(** * Strategy subgraph: the event projector of [mapping.ts]

    A shallow embedding of the mapping module (constants, store
    accessors, the three rotation routines and the nine event handlers)
    over an explicit entity store, followed by the properties of the
    projection.

    - [BigInt] values are unbounded integers ([Z]); AssemblyScript [i32]
      counters are integers with their wrap-around written out ([wrap32]).
    - [Bytes] values are byte lists; [toHexString] is the lower-case
      ["0x"]-prefixed rendering used for entity ids and address tests.
    - every entity kind has its own table, a finite map from the entity
      id (a string) to the entity; [save] overwrites the entry and
      [store.remove] deletes it. *)

From Stdlib Require Import ZArith Lia Ascii String.
From Stdlib.Strings Require Import Byte.
From stdpp Require Import gmap strings list fin_maps pretty sorting.

Local Open Scope string_scope.
Local Open Scope Z_scope.

(** ** Scalars of the host language *)

Definition BigInt := Z.
Definition Bytes := list byte.

#[global] Instance byte_eq_dec : EqDecision byte := Byte.byte_eq_dec.

(** [i32] arithmetic wraps around modulo [2^32] into [-2^31 .. 2^31 - 1]. *)
Definition wrap32 (z : Z) : Z := (z + 2 ^ 31) mod 2 ^ 32 - 2 ^ 31.

(** [x.toString()] for [i32] and [BigInt]: signed decimal. *)
Definition toString (z : Z) : string := pretty z.

Definition hexDigit (n : N) : ascii :=
  match n with
  | 0 => "0" | 1 => "1" | 2 => "2" | 3 => "3" | 4 => "4" | 5 => "5"
  | 6 => "6" | 7 => "7" | 8 => "8" | 9 => "9" | 10 => "a" | 11 => "b"
  | 12 => "c" | 13 => "d" | 14 => "e" | _ => "f"
  end%char%N.

Definition byteToHex (b : byte) (rest : string) : string :=
  String (hexDigit (Byte.to_N b / 16)) (String (hexDigit (Byte.to_N b mod 16)) rest).

(** [Bytes.toHexString()] (also [toHex()]): ["0x"] and two lower-case
    hexadecimal digits per byte. *)
Definition toHexString (b : Bytes) : string := "0x" +:+ foldr byteToHex EmptyString b.

Definition hexValue (c : ascii) : option N :=
  let n := N_of_ascii c in
  if ((48 <=? n) && (n <=? 57))%N then Some (n - 48)%N
  else if ((97 <=? n) && (n <=? 102))%N then Some (n - 87)%N
  else if ((65 <=? n) && (n <=? 70))%N then Some (n - 55)%N
  else None.

Fixpoint hexPairs (s : string) : Bytes :=
  match s with
  | String hi (String lo rest) =>
      match hexValue hi, hexValue lo with
      | Some h, Some l =>
          match Byte.of_N (16 * h + l) with
          | Some b => b :: hexPairs rest
          | None => []
          end
      | _, _ => []
      end
  | _ => []
  end.

(** [Bytes.fromHexString]: the bytes of a ["0x"]-prefixed hex string. *)
Definition fromHexString (s : string) : Bytes :=
  match s with
  | String "0" (String "x" rest) => hexPairs rest
  | _ => hexPairs s
  end.

Definition lowerChar (c : ascii) : ascii :=
  let n := N_of_ascii c in
  if ((65 <=? n) && (n <=? 90))%N then ascii_of_N (n + 32) else c.

(** [String.toLowerCase()] on the ASCII range. *)
Fixpoint toLowerCase (s : string) : string :=
  match s with
  | EmptyString => EmptyString
  | String c rest => String (lowerChar c) (toLowerCase rest)
  end.

(** ** Constants of the mapping *)

Definition PROTOCOL_STATS_ID : string := "protocol-stats".
Definition FEES_POOL_ADDRESS : string := "0x00000000000fee50000000add2e5500000000000".
Definition ADDRESS_ZERO : string := "0x0000000000000000000000000000000000000000".
Definition MAX_TRANSACTIONS : Z := 10.
Definition MAX_PRIZES : Z := 7.

(** ** Entities (generated schema classes)

    Modelled from the spec: the classes generated from the schema are not
    among the sources.  Each record has the fields that the handlers
    assign and read, with the types the spec's data model gives them:
    [BigInt] amounts and days, [i32] counts, [Bytes] addresses and
    hashes, and the nullable claim and expiry stamps as options. *)

Module User.
Record t := mk {
    id : string;
    address : Bytes;
    totalLotteryWinnings : BigInt;
    totalAuctionWinnings : BigInt;
    totalAuctionSpent : BigInt;
    lotteryWinCount : Z;
    auctionWinCount : Z;
    totalMinted : BigInt;
    totalRedeemed : BigInt;
    transactionCount : Z
  }.

Definition set_lotteryWinCount (v : Z) (e : t) : t :=
    mk (id e) (address e) (totalLotteryWinnings e) (totalAuctionWinnings e)
       (totalAuctionSpent e) v (auctionWinCount e) (totalMinted e) (totalRedeemed e)
       (transactionCount e).
Definition set_totalLotteryWinnings (v : BigInt) (e : t) : t :=
    mk (id e) (address e) v (totalAuctionWinnings e) (totalAuctionSpent e)
       (lotteryWinCount e) (auctionWinCount e) (totalMinted e) (totalRedeemed e)
       (transactionCount e).
Definition set_auctionWinCount (v : Z) (e : t) : t :=
    mk (id e) (address e) (totalLotteryWinnings e) (totalAuctionWinnings e)
       (totalAuctionSpent e) (lotteryWinCount e) v (totalMinted e) (totalRedeemed e)
       (transactionCount e).
Definition set_totalAuctionWinnings (v : BigInt) (e : t) : t :=
    mk (id e) (address e) (totalLotteryWinnings e) v (totalAuctionSpent e)
       (lotteryWinCount e) (auctionWinCount e) (totalMinted e) (totalRedeemed e)
       (transactionCount e).
Definition set_totalAuctionSpent (v : BigInt) (e : t) : t :=
    mk (id e) (address e) (totalLotteryWinnings e) (totalAuctionWinnings e) v
       (lotteryWinCount e) (auctionWinCount e) (totalMinted e) (totalRedeemed e)
       (transactionCount e).
Definition set_totalMinted (v : BigInt) (e : t) : t :=
    mk (id e) (address e) (totalLotteryWinnings e) (totalAuctionWinnings e)
       (totalAuctionSpent e) (lotteryWinCount e) (auctionWinCount e) v (totalRedeemed e)
       (transactionCount e).
Definition set_totalRedeemed (v : BigInt) (e : t) : t :=
    mk (id e) (address e) (totalLotteryWinnings e) (totalAuctionWinnings e)
       (totalAuctionSpent e) (lotteryWinCount e) (auctionWinCount e) (totalMinted e) v
       (transactionCount e).
Definition set_transactionCount (v : Z) (e : t) : t :=
    mk (id e) (address e) (totalLotteryWinnings e) (totalAuctionWinnings e)
       (totalAuctionSpent e) (lotteryWinCount e) (auctionWinCount e) (totalMinted e)
       (totalRedeemed e) v.
End User.

Module ProtocolStats.
Record t := mk {
    id : string;
    totalLotteryPrizes : BigInt;
    totalAuctionPrizes : BigInt;
    totalLotteryClaimed : BigInt;
    totalAuctionClaimed : BigInt;
    totalLotteryExpired : BigInt;
    totalAuctionExpired : BigInt;
    lotteryCount : Z;
    auctionCount : Z;
    totalMinted : BigInt;
    totalRedeemed : BigInt;
    totalFees : BigInt;
    totalTransactions : Z;
    transactionCounter : Z
  }.

Definition set_lotteryCount (v : Z) (e : t) : t :=
    mk (id e) (totalLotteryPrizes e) (totalAuctionPrizes e) (totalLotteryClaimed e)
       (totalAuctionClaimed e) (totalLotteryExpired e) (totalAuctionExpired e) v
       (auctionCount e) (totalMinted e) (totalRedeemed e) (totalFees e)
       (totalTransactions e) (transactionCounter e).
Definition set_totalLotteryPrizes (v : BigInt) (e : t) : t :=
    mk (id e) v (totalAuctionPrizes e) (totalLotteryClaimed e) (totalAuctionClaimed e)
       (totalLotteryExpired e) (totalAuctionExpired e) (lotteryCount e) (auctionCount e)
       (totalMinted e) (totalRedeemed e) (totalFees e) (totalTransactions e)
       (transactionCounter e).
Definition set_auctionCount (v : Z) (e : t) : t :=
    mk (id e) (totalLotteryPrizes e) (totalAuctionPrizes e) (totalLotteryClaimed e)
       (totalAuctionClaimed e) (totalLotteryExpired e) (totalAuctionExpired e)
       (lotteryCount e) v (totalMinted e) (totalRedeemed e) (totalFees e)
       (totalTransactions e) (transactionCounter e).
Definition set_totalAuctionPrizes (v : BigInt) (e : t) : t :=
    mk (id e) (totalLotteryPrizes e) v (totalLotteryClaimed e) (totalAuctionClaimed e)
       (totalLotteryExpired e) (totalAuctionExpired e) (lotteryCount e) (auctionCount e)
       (totalMinted e) (totalRedeemed e) (totalFees e) (totalTransactions e)
       (transactionCounter e).
Definition set_totalLotteryClaimed (v : BigInt) (e : t) : t :=
    mk (id e) (totalLotteryPrizes e) (totalAuctionPrizes e) v (totalAuctionClaimed e)
       (totalLotteryExpired e) (totalAuctionExpired e) (lotteryCount e) (auctionCount e)
       (totalMinted e) (totalRedeemed e) (totalFees e) (totalTransactions e)
       (transactionCounter e).
Definition set_totalAuctionClaimed (v : BigInt) (e : t) : t :=
    mk (id e) (totalLotteryPrizes e) (totalAuctionPrizes e) (totalLotteryClaimed e) v
       (totalLotteryExpired e) (totalAuctionExpired e) (lotteryCount e) (auctionCount e)
       (totalMinted e) (totalRedeemed e) (totalFees e) (totalTransactions e)
       (transactionCounter e).
Definition set_totalLotteryExpired (v : BigInt) (e : t) : t :=
    mk (id e) (totalLotteryPrizes e) (totalAuctionPrizes e) (totalLotteryClaimed e)
       (totalAuctionClaimed e) v (totalAuctionExpired e) (lotteryCount e) (auctionCount
       e) (totalMinted e) (totalRedeemed e) (totalFees e) (totalTransactions e)
       (transactionCounter e).
Definition set_totalAuctionExpired (v : BigInt) (e : t) : t :=
    mk (id e) (totalLotteryPrizes e) (totalAuctionPrizes e) (totalLotteryClaimed e)
       (totalAuctionClaimed e) (totalLotteryExpired e) v (lotteryCount e) (auctionCount
       e) (totalMinted e) (totalRedeemed e) (totalFees e) (totalTransactions e)
       (transactionCounter e).
Definition set_totalMinted (v : BigInt) (e : t) : t :=
    mk (id e) (totalLotteryPrizes e) (totalAuctionPrizes e) (totalLotteryClaimed e)
       (totalAuctionClaimed e) (totalLotteryExpired e) (totalAuctionExpired e)
       (lotteryCount e) (auctionCount e) v (totalRedeemed e) (totalFees e)
       (totalTransactions e) (transactionCounter e).
Definition set_totalRedeemed (v : BigInt) (e : t) : t :=
    mk (id e) (totalLotteryPrizes e) (totalAuctionPrizes e) (totalLotteryClaimed e)
       (totalAuctionClaimed e) (totalLotteryExpired e) (totalAuctionExpired e)
       (lotteryCount e) (auctionCount e) (totalMinted e) v (totalFees e)
       (totalTransactions e) (transactionCounter e).
Definition set_totalFees (v : BigInt) (e : t) : t :=
    mk (id e) (totalLotteryPrizes e) (totalAuctionPrizes e) (totalLotteryClaimed e)
       (totalAuctionClaimed e) (totalLotteryExpired e) (totalAuctionExpired e)
       (lotteryCount e) (auctionCount e) (totalMinted e) (totalRedeemed e) v
       (totalTransactions e) (transactionCounter e).
Definition set_totalTransactions (v : Z) (e : t) : t :=
    mk (id e) (totalLotteryPrizes e) (totalAuctionPrizes e) (totalLotteryClaimed e)
       (totalAuctionClaimed e) (totalLotteryExpired e) (totalAuctionExpired e)
       (lotteryCount e) (auctionCount e) (totalMinted e) (totalRedeemed e) (totalFees e)
       v (transactionCounter e).
Definition set_transactionCounter (v : Z) (e : t) : t :=
    mk (id e) (totalLotteryPrizes e) (totalAuctionPrizes e) (totalLotteryClaimed e)
       (totalAuctionClaimed e) (totalLotteryExpired e) (totalAuctionExpired e)
       (lotteryCount e) (auctionCount e) (totalMinted e) (totalRedeemed e) (totalFees e)
       (totalTransactions e) v.
End ProtocolStats.

Module Transaction.
Record t := mk {
    id : string;
    type : string;
    user : Bytes;
    monAmount : BigInt;
    stratAmount : BigInt;
    fee : BigInt;
    timestamp : BigInt;
    blockNumber : BigInt;
    txHash : Bytes;
    userEntity : string
  }.
End Transaction.

Module LotteryPrize.
Record t := mk {
    id : string;
    day : BigInt;
    winner : Bytes;
    amount : BigInt;
    claimed : bool;
    expired : bool;
    timestamp : BigInt;
    blockNumber : BigInt;
    txHash : Bytes;
    user : string;
    claimTimestamp : option BigInt;
    claimTxHash : option Bytes;
    expiryTimestamp : option BigInt;
    expiryTxHash : option Bytes;
    beneficiary : option Bytes
  }.

Definition set_claimed (v : bool) (e : t) : t :=
    mk (id e) (day e) (winner e) (amount e) v (expired e) (timestamp e) (blockNumber e)
       (txHash e) (user e) (claimTimestamp e) (claimTxHash e) (expiryTimestamp e)
       (expiryTxHash e) (beneficiary e).
Definition set_claimTimestamp (v : option BigInt) (e : t) : t :=
    mk (id e) (day e) (winner e) (amount e) (claimed e) (expired e) (timestamp e)
       (blockNumber e) (txHash e) (user e) v (claimTxHash e) (expiryTimestamp e)
       (expiryTxHash e) (beneficiary e).
Definition set_claimTxHash (v : option Bytes) (e : t) : t :=
    mk (id e) (day e) (winner e) (amount e) (claimed e) (expired e) (timestamp e)
       (blockNumber e) (txHash e) (user e) (claimTimestamp e) v (expiryTimestamp e)
       (expiryTxHash e) (beneficiary e).
Definition set_expired (v : bool) (e : t) : t :=
    mk (id e) (day e) (winner e) (amount e) (claimed e) v (timestamp e) (blockNumber e)
       (txHash e) (user e) (claimTimestamp e) (claimTxHash e) (expiryTimestamp e)
       (expiryTxHash e) (beneficiary e).
Definition set_expiryTimestamp (v : option BigInt) (e : t) : t :=
    mk (id e) (day e) (winner e) (amount e) (claimed e) (expired e) (timestamp e)
       (blockNumber e) (txHash e) (user e) (claimTimestamp e) (claimTxHash e) v
       (expiryTxHash e) (beneficiary e).
Definition set_expiryTxHash (v : option Bytes) (e : t) : t :=
    mk (id e) (day e) (winner e) (amount e) (claimed e) (expired e) (timestamp e)
       (blockNumber e) (txHash e) (user e) (claimTimestamp e) (claimTxHash e)
       (expiryTimestamp e) v (beneficiary e).
Definition set_beneficiary (v : option Bytes) (e : t) : t :=
    mk (id e) (day e) (winner e) (amount e) (claimed e) (expired e) (timestamp e)
       (blockNumber e) (txHash e) (user e) (claimTimestamp e) (claimTxHash e)
       (expiryTimestamp e) (expiryTxHash e) v.
End LotteryPrize.

Module AuctionPrize.
Record t := mk {
    id : string;
    day : BigInt;
    winner : Bytes;
    stratAmount : BigInt;
    monPaid : BigInt;
    claimed : bool;
    expired : bool;
    timestamp : BigInt;
    blockNumber : BigInt;
    txHash : Bytes;
    bidCount : Z;
    user : string;
    claimTimestamp : option BigInt;
    claimTxHash : option Bytes;
    expiryTimestamp : option BigInt;
    expiryTxHash : option Bytes;
    beneficiary : option Bytes
  }.

Definition set_claimed (v : bool) (e : t) : t :=
    mk (id e) (day e) (winner e) (stratAmount e) (monPaid e) v (expired e) (timestamp e)
       (blockNumber e) (txHash e) (bidCount e) (user e) (claimTimestamp e) (claimTxHash
       e) (expiryTimestamp e) (expiryTxHash e) (beneficiary e).
Definition set_claimTimestamp (v : option BigInt) (e : t) : t :=
    mk (id e) (day e) (winner e) (stratAmount e) (monPaid e) (claimed e) (expired e)
       (timestamp e) (blockNumber e) (txHash e) (bidCount e) (user e) v (claimTxHash e)
       (expiryTimestamp e) (expiryTxHash e) (beneficiary e).
Definition set_claimTxHash (v : option Bytes) (e : t) : t :=
    mk (id e) (day e) (winner e) (stratAmount e) (monPaid e) (claimed e) (expired e)
       (timestamp e) (blockNumber e) (txHash e) (bidCount e) (user e) (claimTimestamp e)
       v (expiryTimestamp e) (expiryTxHash e) (beneficiary e).
Definition set_expired (v : bool) (e : t) : t :=
    mk (id e) (day e) (winner e) (stratAmount e) (monPaid e) (claimed e) v (timestamp e)
       (blockNumber e) (txHash e) (bidCount e) (user e) (claimTimestamp e) (claimTxHash
       e) (expiryTimestamp e) (expiryTxHash e) (beneficiary e).
Definition set_expiryTimestamp (v : option BigInt) (e : t) : t :=
    mk (id e) (day e) (winner e) (stratAmount e) (monPaid e) (claimed e) (expired e)
       (timestamp e) (blockNumber e) (txHash e) (bidCount e) (user e) (claimTimestamp e)
       (claimTxHash e) v (expiryTxHash e) (beneficiary e).
Definition set_expiryTxHash (v : option Bytes) (e : t) : t :=
    mk (id e) (day e) (winner e) (stratAmount e) (monPaid e) (claimed e) (expired e)
       (timestamp e) (blockNumber e) (txHash e) (bidCount e) (user e) (claimTimestamp e)
       (claimTxHash e) (expiryTimestamp e) v (beneficiary e).
Definition set_beneficiary (v : option Bytes) (e : t) : t :=
    mk (id e) (day e) (winner e) (stratAmount e) (monPaid e) (claimed e) (expired e)
       (timestamp e) (blockNumber e) (txHash e) (bidCount e) (user e) (claimTimestamp e)
       (claimTxHash e) (expiryTimestamp e) (expiryTxHash e) v.
Definition set_bidCount (v : Z) (e : t) : t :=
    mk (id e) (day e) (winner e) (stratAmount e) (monPaid e) (claimed e) (expired e)
       (timestamp e) (blockNumber e) (txHash e) v (user e) (claimTimestamp e)
       (claimTxHash e) (expiryTimestamp e) (expiryTxHash e) (beneficiary e).
End AuctionPrize.

Module Bid.
Record t := mk {
    id : string;
    bidder : Bytes;
    amount : BigInt;
    day : BigInt;
    timestamp : BigInt;
    blockNumber : BigInt;
    txHash : Bytes;
    auction : string
  }.
End Bid.

(** ** The entity store *)

Record Store := mkStore {
  users : gmap string User.t;
  protocolStats : gmap string ProtocolStats.t;
  transactions : gmap string Transaction.t;
  lotteryPrizes : gmap string LotteryPrize.t;
  auctionPrizes : gmap string AuctionPrize.t;
  bids : gmap string Bid.t
}.

Definition emptyStore : Store := mkStore ∅ ∅ ∅ ∅ ∅ ∅.

Definition withUsers (f : gmap string User.t → gmap string User.t) (s : Store) : Store :=
  mkStore (f (users s)) (protocolStats s) (transactions s)
          (lotteryPrizes s) (auctionPrizes s) (bids s).
Definition withProtocolStats
    (f : gmap string ProtocolStats.t → gmap string ProtocolStats.t) (s : Store) : Store :=
  mkStore (users s) (f (protocolStats s)) (transactions s)
          (lotteryPrizes s) (auctionPrizes s) (bids s).
Definition withTransactions
    (f : gmap string Transaction.t → gmap string Transaction.t) (s : Store) : Store :=
  mkStore (users s) (protocolStats s) (f (transactions s))
          (lotteryPrizes s) (auctionPrizes s) (bids s).
Definition withLotteryPrizes
    (f : gmap string LotteryPrize.t → gmap string LotteryPrize.t) (s : Store) : Store :=
  mkStore (users s) (protocolStats s) (transactions s)
          (f (lotteryPrizes s)) (auctionPrizes s) (bids s).
Definition withAuctionPrizes
    (f : gmap string AuctionPrize.t → gmap string AuctionPrize.t) (s : Store) : Store :=
  mkStore (users s) (protocolStats s) (transactions s)
          (lotteryPrizes s) (f (auctionPrizes s)) (bids s).
Definition withBids (f : gmap string Bid.t → gmap string Bid.t) (s : Store) : Store :=
  mkStore (users s) (protocolStats s) (transactions s)
          (lotteryPrizes s) (auctionPrizes s) (f (bids s)).

(** [Entity.load(id)], [entity.save()] and [store.remove(kind, id)]. *)
Definition loadUser (id : string) (s : Store) : option User.t := users s !! id.
Definition saveUser (u : User.t) : Store → Store := withUsers <[User.id u := u]>.

Definition loadProtocolStats (id : string) (s : Store) : option ProtocolStats.t :=
  protocolStats s !! id.
Definition saveProtocolStats (p : ProtocolStats.t) : Store → Store :=
  withProtocolStats <[ProtocolStats.id p := p]>.

Definition loadTransaction (id : string) (s : Store) : option Transaction.t :=
  transactions s !! id.
Definition saveTransaction (t : Transaction.t) : Store → Store :=
  withTransactions <[Transaction.id t := t]>.
Definition removeTransaction (id : string) : Store → Store :=
  withTransactions (delete id).

Definition loadLotteryPrize (id : string) (s : Store) : option LotteryPrize.t :=
  lotteryPrizes s !! id.
Definition saveLotteryPrize (p : LotteryPrize.t) : Store → Store :=
  withLotteryPrizes <[LotteryPrize.id p := p]>.
Definition removeLotteryPrize (id : string) : Store → Store :=
  withLotteryPrizes (delete id).

Definition loadAuctionPrize (id : string) (s : Store) : option AuctionPrize.t :=
  auctionPrizes s !! id.
Definition saveAuctionPrize (p : AuctionPrize.t) : Store → Store :=
  withAuctionPrizes <[AuctionPrize.id p := p]>.
Definition removeAuctionPrize (id : string) : Store → Store :=
  withAuctionPrizes (delete id).

Definition saveBid (b : Bid.t) : Store → Store := withBids <[Bid.id b := b]>.

(** ** Events (generated contract bindings)

    Modelled from the spec: the bindings generated from the contract ABI
    are not among the sources.  Every event carries its parameters, the
    block (timestamp and number), the transaction (hash) and its log
    index, as the handlers read them. *)

Module ethereum.
Record Block := mkBlock { timestamp : BigInt; number : BigInt }.
Record Transaction := mkTransaction { hash : Bytes }.
Record Event (P : Type) := mkEvent {
    params : P;
    block : Block;
    transaction : Transaction;
    logIndex : BigInt
  }.
Arguments mkEvent {P} _ _ _ _.
Arguments params {P} _.
Arguments block {P} _.
Arguments transaction {P} _.
Arguments logIndex {P} _.
End ethereum.

Module LotteryWon.
Record params := mk { day : BigInt; winner : Bytes; amount : BigInt }.
Definition t := ethereum.Event params.
End LotteryWon.

Module AuctionWon.
Record params := mk {
    day : BigInt; winner : Bytes; stratAmount : BigInt; monPaid : BigInt
  }.
Definition t := ethereum.Event params.
End AuctionWon.

Module PrizeClaimed.
Record params := mk { winner : Bytes; amount : BigInt }.
Definition t := ethereum.Event params.
End PrizeClaimed.

Module BeneficiaryFunded.
Record params := mk {
    previousWinner : Bytes; beneficiary : Bytes; amount : BigInt
  }.
Definition t := ethereum.Event params.
End BeneficiaryFunded.

Module AuctionStarted.
Record params := mk { day : BigInt; stratAmount : BigInt }.
Definition t := ethereum.Event params.
End AuctionStarted.

Module BidPlaced.
Record params := mk { bidder : Bytes; amount : BigInt; day : BigInt }.
Definition t := ethereum.Event params.
End BidPlaced.

Module Minted.
Record params := mk {
    to : Bytes; monAmount : BigInt; stratAmount : BigInt; fee : BigInt
  }.
Definition t := ethereum.Event params.
End Minted.

Module Redeemed.
Record params := mk {
    from : Bytes; monAmount : BigInt; stratAmount : BigInt; fee : BigInt
  }.
Definition t := ethereum.Event params.
End Redeemed.

Module Transfer.
Record params := mk { from : Bytes; to : Bytes; value : BigInt }.
Definition t := ethereum.Event params.
End Transfer.

(** ** Store accessors *)

Definition getOrCreateUser (address : Bytes) (s : Store) : User.t * Store :=
  match loadUser (toHexString address) s with
  | Some user => (user, s)
  | None =>
      let user := User.mk (toHexString address) address 0 0 0 0 0 0 0 0 in
      (user, saveUser user s)
  end.

Definition getOrCreateProtocolStats (s : Store) : ProtocolStats.t * Store :=
  match loadProtocolStats PROTOCOL_STATS_ID s with
  | Some stats => (stats, s)
  | None =>
      let stats := ProtocolStats.mk PROTOCOL_STATS_ID 0 0 0 0 0 0 0 0 0 0 0 0 0 in
      (stats, saveProtocolStats stats s)
  end.

(** ** Rotation *)

(** The probing loop of [rotateTransactions]: keys [i], [i+1], ... are
    loaded until one is missing.  [fuel] bounds the number of loads; the
    caller passes one more than the number of stored transactions, which
    the loop cannot use up (see [probeTransactions_stops]). *)
Fixpoint probeTransactions (fuel : nat) (i : Z) (s : Store) : list Transaction.t :=
  match fuel with
  | O => []
  | S fuel' =>
      match loadTransaction (toString i) s with
      | None => []
      | Some tx => tx :: probeTransactions fuel' (wrap32 (i + 1)) s
      end
  end.

(** The comparator handed to [transactions.sort]. *)
Definition compareTimestamp (a b : Transaction.t) : Z :=
  if Transaction.timestamp a <? Transaction.timestamp b then -1
  else if Transaction.timestamp a >? Transaction.timestamp b then 1
  else 0.

(** [Array#sort] with a comparator, on an array of references, is a
    stable insertion sort: each element in turn moves left past the
    elements it compares below, so equal timestamps keep their probe
    order.  [insertLeft] takes the already sorted prefix in reverse (last
    element first). *)
Fixpoint insertLeft {A} (cmp : A → A → Z) (a : A) (revPrefix : list A) : list A :=
  match revPrefix with
  | [] => [a]
  | b :: rest => if cmp a b <? 0 then b :: insertLeft cmp a rest else a :: b :: rest
  end.

Definition sort {A} (cmp : A → A → Z) (l : list A) : list A :=
  reverse (fold_left (λ revPrefix a, insertLeft cmp a revPrefix) l []).

(** [rotateTransactions]: probe from key 0, and when at least
    [MAX_TRANSACTIONS] records were found, sort them by timestamp and
    remove the first [length - MAX_TRANSACTIONS + 1] of them by id. *)
Definition rotateTransactions (s : Store) : Store :=
  let transactions := probeTransactions (S (size (transactions s))) 0 s in
  if Z.of_nat (length transactions) >=? MAX_TRANSACTIONS then
    let transactions := sort compareTimestamp transactions in
    fold_left (λ s tx, removeTransaction (Transaction.id tx) s)
      (take (Z.to_nat (Z.of_nat (length transactions) - MAX_TRANSACTIONS + 1)) transactions)
      s
  else s.

(** The loop of [rotateLotteryPrizes]; [n] iterations remain, [i] is the
    loop counter (it stays below 100, where [i32] addition does not
    wrap).  The loop ends early on the first negative day. *)
Fixpoint rotateLotteryLoop (n : nat) (i : Z) (oldestDayToKeep : BigInt) (s : Store) : Store :=
  match n with
  | O => s
  | S n' =>
      let dayToCheck := oldestDayToKeep - (i + 1) in
      if dayToCheck <? 0 then s
      else
        let prizeId := toString dayToCheck +:+ "-lottery" in
        let s := match loadLotteryPrize prizeId s with
                 | Some _ => removeLotteryPrize prizeId s
                 | None => s
                 end in
        rotateLotteryLoop n' (i + 1) oldestDayToKeep s
  end.

Definition rotateLotteryPrizes (currentDay : BigInt) (s : Store) : Store :=
  let oldestDayToKeep := currentDay - (MAX_PRIZES - 1) in
  rotateLotteryLoop 100 0 oldestDayToKeep s.

Fixpoint rotateAuctionLoop (n : nat) (i : Z) (oldestDayToKeep : BigInt) (s : Store) : Store :=
  match n with
  | O => s
  | S n' =>
      let dayToCheck := oldestDayToKeep - (i + 1) in
      if dayToCheck <? 0 then s
      else
        let prizeId := toString dayToCheck +:+ "-auction" in
        let s := match loadAuctionPrize prizeId s with
                 | Some _ => removeAuctionPrize prizeId s
                 | None => s
                 end in
        rotateAuctionLoop n' (i + 1) oldestDayToKeep s
  end.

Definition rotateAuctionPrizes (currentDay : BigInt) (s : Store) : Store :=
  let oldestDayToKeep := currentDay - (MAX_PRIZES - 1) in
  rotateAuctionLoop 100 0 oldestDayToKeep s.

(** ** Handlers *)

Import ethereum.

Definition handleLotteryWon (event : LotteryWon.t) (s : Store) : Store :=
  let s := rotateLotteryPrizes (LotteryWon.day (params event)) s in
  let id := toString (LotteryWon.day (params event)) +:+ "-lottery" in
  let '(user, s) := getOrCreateUser (LotteryWon.winner (params event)) s in
  let prize :=
    LotteryPrize.mk id
      (LotteryWon.day (params event))
      (LotteryWon.winner (params event))
      (LotteryWon.amount (params event))
      false false
      (timestamp (block event)) (number (block event)) (hash (transaction event))
      (User.id user)
      None None None None None in
  let user := User.set_lotteryWinCount (wrap32 (User.lotteryWinCount user + 1)) user in
  let user := User.set_totalLotteryWinnings
                (User.totalLotteryWinnings user + LotteryWon.amount (params event)) user in
  let s := saveUser user s in
  let '(stats, s) := getOrCreateProtocolStats s in
  let stats := ProtocolStats.set_lotteryCount
                 (wrap32 (ProtocolStats.lotteryCount stats + 1)) stats in
  let stats := ProtocolStats.set_totalLotteryPrizes
                 (ProtocolStats.totalLotteryPrizes stats + LotteryWon.amount (params event))
                 stats in
  let s := saveProtocolStats stats s in
  saveLotteryPrize prize s.

Definition handleAuctionWon (event : AuctionWon.t) (s : Store) : Store :=
  let s := rotateAuctionPrizes (AuctionWon.day (params event)) s in
  let id := toString (AuctionWon.day (params event)) +:+ "-auction" in
  let '(user, s) := getOrCreateUser (AuctionWon.winner (params event)) s in
  let prize :=
    AuctionPrize.mk id
      (AuctionWon.day (params event))
      (AuctionWon.winner (params event))
      (AuctionWon.stratAmount (params event))
      (AuctionWon.monPaid (params event))
      false false
      (timestamp (block event)) (number (block event)) (hash (transaction event))
      0
      (User.id user)
      None None None None None in
  let user := User.set_auctionWinCount (wrap32 (User.auctionWinCount user + 1)) user in
  let user := User.set_totalAuctionWinnings
                (User.totalAuctionWinnings user + AuctionWon.stratAmount (params event))
                user in
  let user := User.set_totalAuctionSpent
                (User.totalAuctionSpent user + AuctionWon.monPaid (params event)) user in
  let s := saveUser user s in
  let '(stats, s) := getOrCreateProtocolStats s in
  let stats := ProtocolStats.set_auctionCount
                 (wrap32 (ProtocolStats.auctionCount stats + 1)) stats in
  let stats := ProtocolStats.set_totalAuctionPrizes
                 (ProtocolStats.totalAuctionPrizes stats
                  + AuctionWon.stratAmount (params event)) stats in
  let s := saveProtocolStats stats s in
  saveAuctionPrize prize s.

(** The condition under which a lottery record answers a claim. *)
Definition lotteryMatchesClaim (winner : Bytes) (amount : BigInt) (lottery : LotteryPrize.t) : bool :=
  bool_decide (LotteryPrize.winner lottery = winner)
  && (LotteryPrize.amount lottery =? amount)
  && negb (LotteryPrize.claimed lottery)
  && negb (LotteryPrize.expired lottery).

Definition auctionMatchesClaim (winner : Bytes) (amount : BigInt) (auction : AuctionPrize.t) : bool :=
  bool_decide (AuctionPrize.winner auction = winner)
  && (AuctionPrize.stratAmount auction =? amount)
  && negb (AuctionPrize.claimed auction)
  && negb (AuctionPrize.expired auction).

(** What the first loop of [handlePrizeClaimed] does with the record it
    matched (the body of its [if]). *)
Definition markLotteryClaimed (event : PrizeClaimed.t) (lottery : LotteryPrize.t) (s : Store) : Store :=
  let amount := PrizeClaimed.amount (params event) in
  let lottery := LotteryPrize.set_claimed true lottery in
  let lottery := LotteryPrize.set_claimTimestamp (Some (timestamp (block event))) lottery in
  let lottery := LotteryPrize.set_claimTxHash (Some (hash (transaction event))) lottery in
  let s := saveLotteryPrize lottery s in
  let '(stats, s) := getOrCreateProtocolStats s in
  let stats := ProtocolStats.set_totalLotteryClaimed
                 (ProtocolStats.totalLotteryClaimed stats + amount) stats in
  saveProtocolStats stats s.

(** First loop of [handlePrizeClaimed]: [n] iterations remain, [i] is the
    loop counter (below 30, no [i32] wrap-around); returns [foundLottery]
    and the store. *)
Fixpoint claimLotteryLoop (n : nat) (i : Z) (event : PrizeClaimed.t) (s : Store) : bool * Store :=
  match n with
  | O => (false, s)
  | S n' =>
      let winner := PrizeClaimed.winner (params event) in
      let amount := PrizeClaimed.amount (params event) in
      let lotteryId := toString i +:+ "-lottery" in
      match loadLotteryPrize lotteryId s with
      | Some lottery =>
          if lotteryMatchesClaim winner amount lottery
          then (true, markLotteryClaimed event lottery s)
          else claimLotteryLoop n' (i + 1) event s
      | None => claimLotteryLoop n' (i + 1) event s
      end
  end.

Definition markAuctionClaimed (event : PrizeClaimed.t) (auction : AuctionPrize.t) (s : Store) : Store :=
  let amount := PrizeClaimed.amount (params event) in
  let auction := AuctionPrize.set_claimed true auction in
  let auction := AuctionPrize.set_claimTimestamp (Some (timestamp (block event))) auction in
  let auction := AuctionPrize.set_claimTxHash (Some (hash (transaction event))) auction in
  let s := saveAuctionPrize auction s in
  let '(stats, s) := getOrCreateProtocolStats s in
  let stats := ProtocolStats.set_totalAuctionClaimed
                 (ProtocolStats.totalAuctionClaimed stats + amount) stats in
  saveProtocolStats stats s.

(** Second loop of [handlePrizeClaimed]. *)
Fixpoint claimAuctionLoop (n : nat) (i : Z) (event : PrizeClaimed.t) (s : Store) : Store :=
  match n with
  | O => s
  | S n' =>
      let winner := PrizeClaimed.winner (params event) in
      let amount := PrizeClaimed.amount (params event) in
      let auctionId := toString i +:+ "-auction" in
      match loadAuctionPrize auctionId s with
      | Some auction =>
          if auctionMatchesClaim winner amount auction
          then markAuctionClaimed event auction s
          else claimAuctionLoop n' (i + 1) event s
      | None => claimAuctionLoop n' (i + 1) event s
      end
  end.

Definition handlePrizeClaimed (event : PrizeClaimed.t) (s : Store) : Store :=
  let '(foundLottery, s) := claimLotteryLoop 30 0 event s in
  if negb foundLottery then claimAuctionLoop 30 0 event s else s.

(** The condition under which a record answers an expiry. *)
Definition lotteryMatchesExpiry (previousWinner : Bytes) (lottery : LotteryPrize.t) : bool :=
  bool_decide (LotteryPrize.winner lottery = previousWinner)
  && negb (LotteryPrize.claimed lottery)
  && negb (LotteryPrize.expired lottery).

Definition auctionMatchesExpiry (previousWinner : Bytes) (auction : AuctionPrize.t) : bool :=
  bool_decide (AuctionPrize.winner auction = previousWinner)
  && negb (AuctionPrize.claimed auction)
  && negb (AuctionPrize.expired auction).

Definition markLotteryExpired (event : BeneficiaryFunded.t) (lottery : LotteryPrize.t) (s : Store) : Store :=
  let beneficiary := BeneficiaryFunded.beneficiary (params event) in
  let lottery := LotteryPrize.set_expired true lottery in
  let lottery := LotteryPrize.set_expiryTimestamp (Some (timestamp (block event))) lottery in
  let lottery := LotteryPrize.set_expiryTxHash (Some (hash (transaction event))) lottery in
  let lottery := LotteryPrize.set_beneficiary (Some beneficiary) lottery in
  let s := saveLotteryPrize lottery s in
  let '(stats, s) := getOrCreateProtocolStats s in
  let stats := ProtocolStats.set_totalLotteryExpired
                 (ProtocolStats.totalLotteryExpired stats + LotteryPrize.amount lottery)
                 stats in
  saveProtocolStats stats s.

Fixpoint expireLotteryLoop (n : nat) (i : Z) (event : BeneficiaryFunded.t) (s : Store) : bool * Store :=
  match n with
  | O => (false, s)
  | S n' =>
      let previousWinner := BeneficiaryFunded.previousWinner (params event) in
      let lotteryId := toString i +:+ "-lottery" in
      match loadLotteryPrize lotteryId s with
      | Some lottery =>
          if lotteryMatchesExpiry previousWinner lottery
          then (true, markLotteryExpired event lottery s)
          else expireLotteryLoop n' (i + 1) event s
      | None => expireLotteryLoop n' (i + 1) event s
      end
  end.

Definition markAuctionExpired (event : BeneficiaryFunded.t) (auction : AuctionPrize.t) (s : Store) : Store :=
  let beneficiary := BeneficiaryFunded.beneficiary (params event) in
  let auction := AuctionPrize.set_expired true auction in
  let auction := AuctionPrize.set_expiryTimestamp (Some (timestamp (block event))) auction in
  let auction := AuctionPrize.set_expiryTxHash (Some (hash (transaction event))) auction in
  let auction := AuctionPrize.set_beneficiary (Some beneficiary) auction in
  let s := saveAuctionPrize auction s in
  let '(stats, s) := getOrCreateProtocolStats s in
  let stats := ProtocolStats.set_totalAuctionExpired
                 (ProtocolStats.totalAuctionExpired stats + AuctionPrize.stratAmount auction)
                 stats in
  saveProtocolStats stats s.

Fixpoint expireAuctionLoop (n : nat) (i : Z) (event : BeneficiaryFunded.t) (s : Store) : Store :=
  match n with
  | O => s
  | S n' =>
      let previousWinner := BeneficiaryFunded.previousWinner (params event) in
      let auctionId := toString i +:+ "-auction" in
      match loadAuctionPrize auctionId s with
      | Some auction =>
          if auctionMatchesExpiry previousWinner auction
          then markAuctionExpired event auction s
          else expireAuctionLoop n' (i + 1) event s
      | None => expireAuctionLoop n' (i + 1) event s
      end
  end.

Definition handleBeneficiaryFunded (event : BeneficiaryFunded.t) (s : Store) : Store :=
  let '(foundLottery, s) := expireLotteryLoop 30 0 event s in
  if negb foundLottery then expireAuctionLoop 30 0 event s else s.

Definition handleAuctionStarted (event : AuctionStarted.t) (s : Store) : Store :=
  let id := toString (AuctionStarted.day (params event)) +:+ "-auction" in
  match loadAuctionPrize id s with
  | Some _ => s
  | None =>
      let auction :=
        AuctionPrize.mk id
          (AuctionStarted.day (params event))
          (fromHexString "0x0000000000000000000000000000000000000000")
          (AuctionStarted.stratAmount (params event))
          0
          false false
          (timestamp (block event)) (number (block event)) (hash (transaction event))
          0
          "0x0000000000000000000000000000000000000000"
          None None None None None in
      saveAuctionPrize auction s
  end.

Definition handleBidPlaced (event : BidPlaced.t) (s : Store) : Store :=
  let id := toHexString (hash (transaction event)) +:+ "-" +:+ toString (logIndex event) in
  let auctionId := toString (BidPlaced.day (params event)) +:+ "-auction" in
  let bid :=
    Bid.mk id
      (BidPlaced.bidder (params event))
      (BidPlaced.amount (params event))
      (BidPlaced.day (params event))
      (timestamp (block event)) (number (block event)) (hash (transaction event))
      auctionId in
  let s := match loadAuctionPrize auctionId s with
           | Some auction =>
               let auction := AuctionPrize.set_bidCount
                                (wrap32 (AuctionPrize.bidCount auction + 1)) auction in
               saveAuctionPrize auction s
           | None => s
           end in
  saveBid bid s.

Definition handleMinted (event : Minted.t) (s : Store) : Store :=
  let s := rotateTransactions s in
  let '(stats, s) := getOrCreateProtocolStats s in
  let id := toString (ProtocolStats.transactionCounter stats) in
  let '(user, s) := getOrCreateUser (Minted.to (params event)) s in
  let transaction :=
    Transaction.mk id "MINT"
      (Minted.to (params event))
      (Minted.monAmount (params event))
      (Minted.stratAmount (params event))
      (Minted.fee (params event))
      (timestamp (block event)) (number (block event)) (hash (transaction event))
      (User.id user) in
  let user := User.set_totalMinted
                (User.totalMinted user + Minted.stratAmount (params event)) user in
  let user := User.set_transactionCount (wrap32 (User.transactionCount user + 1)) user in
  let s := saveUser user s in
  let stats := ProtocolStats.set_totalMinted
                 (ProtocolStats.totalMinted stats + Minted.stratAmount (params event))
                 stats in
  let stats := ProtocolStats.set_totalFees
                 (ProtocolStats.totalFees stats + Minted.fee (params event)) stats in
  let stats := ProtocolStats.set_totalTransactions
                 (wrap32 (ProtocolStats.totalTransactions stats + 1)) stats in
  let stats := ProtocolStats.set_transactionCounter
                 (wrap32 (ProtocolStats.transactionCounter stats + 1)) stats in
  let s := saveProtocolStats stats s in
  saveTransaction transaction s.

Definition handleRedeemed (event : Redeemed.t) (s : Store) : Store :=
  let s := rotateTransactions s in
  let '(stats, s) := getOrCreateProtocolStats s in
  let id := toString (ProtocolStats.transactionCounter stats) in
  let '(user, s) := getOrCreateUser (Redeemed.from (params event)) s in
  let transaction :=
    Transaction.mk id "REDEEM"
      (Redeemed.from (params event))
      (Redeemed.monAmount (params event))
      (Redeemed.stratAmount (params event))
      (Redeemed.fee (params event))
      (timestamp (block event)) (number (block event)) (hash (transaction event))
      (User.id user) in
  let user := User.set_totalRedeemed
                (User.totalRedeemed user + Redeemed.stratAmount (params event)) user in
  let user := User.set_transactionCount (wrap32 (User.transactionCount user + 1)) user in
  let s := saveUser user s in
  let stats := ProtocolStats.set_totalRedeemed
                 (ProtocolStats.totalRedeemed stats + Redeemed.stratAmount (params event))
                 stats in
  let stats := ProtocolStats.set_totalFees
                 (ProtocolStats.totalFees stats + Redeemed.fee (params event)) stats in
  let stats := ProtocolStats.set_totalTransactions
                 (wrap32 (ProtocolStats.totalTransactions stats + 1)) stats in
  let stats := ProtocolStats.set_transactionCounter
                 (wrap32 (ProtocolStats.transactionCounter stats + 1)) stats in
  let s := saveProtocolStats stats s in
  saveTransaction transaction s.

Definition handleTransfer (event : Transfer.t) (s : Store) : Store :=
  if bool_decide (toLowerCase (toHexString (Transfer.to (params event)))
                  ≠ toLowerCase FEES_POOL_ADDRESS) then s
  else if bool_decide (toLowerCase (toHexString (Transfer.from (params event)))
                       = toLowerCase ADDRESS_ZERO) then s
  else
    let s := rotateTransactions s in
    let '(stats, s) := getOrCreateProtocolStats s in
    let id := toString (ProtocolStats.transactionCounter stats) in
    let '(user, s) := getOrCreateUser (Transfer.from (params event)) s in
    let transaction :=
      Transaction.mk id "TRANSFER"
        (Transfer.from (params event))
        0
        (Transfer.value (params event))
        0
        (timestamp (block event)) (number (block event)) (hash (transaction event))
        (User.id user) in
    let user := User.set_transactionCount (wrap32 (User.transactionCount user + 1)) user in
    let s := saveUser user s in
    let stats := ProtocolStats.set_totalTransactions
                   (wrap32 (ProtocolStats.totalTransactions stats + 1)) stats in
    let stats := ProtocolStats.set_transactionCounter
                   (wrap32 (ProtocolStats.transactionCounter stats + 1)) stats in
    let s := saveProtocolStats stats s in
    saveTransaction transaction s.

(** ** The event router *)

Inductive ContractEvent :=
| EvLotteryWon (e : LotteryWon.t)
| EvAuctionWon (e : AuctionWon.t)
| EvPrizeClaimed (e : PrizeClaimed.t)
| EvBeneficiaryFunded (e : BeneficiaryFunded.t)
| EvAuctionStarted (e : AuctionStarted.t)
| EvBidPlaced (e : BidPlaced.t)
| EvMinted (e : Minted.t)
| EvRedeemed (e : Redeemed.t)
| EvTransfer (e : Transfer.t).

(** Modelled from the spec: the manifest that binds each event kind to
    its handler is not part of the sources; the spec's Event Router
    dispatches each incoming event to the handler of its kind, one event
    at a time, in arrival order. *)
Definition dispatch (ev : ContractEvent) (s : Store) : Store :=
  match ev with
  | EvLotteryWon e => handleLotteryWon e s
  | EvAuctionWon e => handleAuctionWon e s
  | EvPrizeClaimed e => handlePrizeClaimed e s
  | EvBeneficiaryFunded e => handleBeneficiaryFunded e s
  | EvAuctionStarted e => handleAuctionStarted e s
  | EvBidPlaced e => handleBidPlaced e s
  | EvMinted e => handleMinted e s
  | EvRedeemed e => handleRedeemed e s
  | EvTransfer e => handleTransfer e s
  end.

Definition processEvents (evs : list ContractEvent) (s : Store) : Store :=
  fold_left (λ s ev, dispatch ev s) evs s.

(** * Vocabulary of the properties

    Entity keys, the records the handlers write, the predicates and the
    sample events that the statements below are phrased with. *)

(** ** Entity keys and the two special addresses *)

Definition lotteryKey (day : BigInt) : string := toString day +:+ "-lottery".
Definition auctionKey (day : BigInt) : string := toString day +:+ "-auction".

(** The two addresses the transfer handler tests for, as byte strings. *)
Definition feesPoolAddress : Bytes := fromHexString FEES_POOL_ADDRESS.
Definition zeroAddress : Bytes := fromHexString ADDRESS_ZERO.

(** ** What the accessors create and read *)

Definition newUser (address : Bytes) : User.t :=
  User.mk (toHexString address) address 0 0 0 0 0 0 0 0.
Definition newProtocolStats : ProtocolStats.t :=
  ProtocolStats.mk PROTOCOL_STATS_ID 0 0 0 0 0 0 0 0 0 0 0 0 0.

(** The statistics singleton as a handler sees it. *)
Definition currentStats (s : Store) : ProtocolStats.t := (getOrCreateProtocolStats s).1.

Definition deleteAll (l : list Transaction.t) (m : gmap string Transaction.t) :
    gmap string Transaction.t :=
  fold_left (λ m tx, delete (Transaction.id tx) m) l m.

Definition liveTransactions (s : Store) : nat := size (transactions s).

Definition bidCountOn (day : Z) (s : Store) : option Z :=
  AuctionPrize.bidCount <$> loadAuctionPrize (auctionKey day) s.

(** ** The records the handlers write *)

(** The record [handleLotteryWon] stores, given the id of the winner's
    user entity. *)
Definition lotteryWonRecord (event : LotteryWon.t) (userId : string) : LotteryPrize.t :=
  LotteryPrize.mk
    (lotteryKey (LotteryWon.day (params event)))
    (LotteryWon.day (params event))
    (LotteryWon.winner (params event))
    (LotteryWon.amount (params event))
    false false
    (timestamp (block event)) (number (block event)) (hash (transaction event))
    userId
    None None None None None.

(** The record [handleAuctionWon] stores: a fresh one, with no bids. *)
Definition auctionWonRecord (event : AuctionWon.t) (userId : string) : AuctionPrize.t :=
  AuctionPrize.mk
    (auctionKey (AuctionWon.day (params event)))
    (AuctionWon.day (params event))
    (AuctionWon.winner (params event))
    (AuctionWon.stratAmount (params event))
    (AuctionWon.monPaid (params event))
    false false
    (timestamp (block event)) (number (block event)) (hash (transaction event))
    0
    userId
    None None None None None.

(** The placeholder [handleAuctionStarted] stores for a day without record. *)
Definition auctionPlaceholder (event : AuctionStarted.t) : AuctionPrize.t :=
  AuctionPrize.mk
    (auctionKey (AuctionStarted.day (params event)))
    (AuctionStarted.day (params event))
    zeroAddress
    (AuctionStarted.stratAmount (params event))
    0
    false false
    (timestamp (block event)) (number (block event)) (hash (transaction event))
    0
    ADDRESS_ZERO
    None None None None None.

Definition claimedLottery (event : PrizeClaimed.t) (lottery : LotteryPrize.t) : LotteryPrize.t :=
  LotteryPrize.set_claimTxHash (Some (hash (transaction event)))
    (LotteryPrize.set_claimTimestamp (Some (timestamp (block event)))
       (LotteryPrize.set_claimed true lottery)).

Definition claimedAuction (event : PrizeClaimed.t) (auction : AuctionPrize.t) : AuctionPrize.t :=
  AuctionPrize.set_claimTxHash (Some (hash (transaction event)))
    (AuctionPrize.set_claimTimestamp (Some (timestamp (block event)))
       (AuctionPrize.set_claimed true auction)).

Definition expiredLottery (event : BeneficiaryFunded.t) (lottery : LotteryPrize.t) : LotteryPrize.t :=
  LotteryPrize.set_beneficiary (Some (BeneficiaryFunded.beneficiary (params event)))
    (LotteryPrize.set_expiryTxHash (Some (hash (transaction event)))
       (LotteryPrize.set_expiryTimestamp (Some (timestamp (block event)))
          (LotteryPrize.set_expired true lottery))).

Definition expiredAuction (event : BeneficiaryFunded.t) (auction : AuctionPrize.t) : AuctionPrize.t :=
  AuctionPrize.set_beneficiary (Some (BeneficiaryFunded.beneficiary (params event)))
    (AuctionPrize.set_expiryTxHash (Some (hash (transaction event)))
       (AuctionPrize.set_expiryTimestamp (Some (timestamp (block event)))
          (AuctionPrize.set_expired true auction))).

(** The records [handleMinted] and [handleTransfer] write, given the
    counter value they read and the id of the user entity. *)
Definition mintedRecord (event : Minted.t) (counter : Z) (userId : string) : Transaction.t :=
  Transaction.mk (toString counter) "MINT"
    (Minted.to (params event))
    (Minted.monAmount (params event))
    (Minted.stratAmount (params event))
    (Minted.fee (params event))
    (timestamp (block event)) (number (block event)) (hash (transaction event))
    userId.

Definition transferRecord (event : Transfer.t) (counter : Z) (userId : string) : Transaction.t :=
  Transaction.mk (toString counter) "TRANSFER"
    (Transfer.from (params event))
    0
    (Transfer.value (params event))
    0
    (timestamp (block event)) (number (block event)) (hash (transaction event))
    userId.

(** ** The bounded scan *)

(** The first counter value [j] in [i .. i + n - 1] whose record exists
    and matches, with that record: what the four loops look for. *)
Fixpoint scanFirst {E} (load : Z → option E) (matches : E → bool) (n : nat) (i : Z) :
    option (Z * E) :=
  match n with
  | O => None
  | S n' =>
      match load i with
      | Some e => if matches e then Some (i, e) else scanFirst load matches n' (i + 1)
      | None => scanFirst load matches n' (i + 1)
      end
  end.

(** The day keys a claim or expiry can reach. *)
Definition scanLottery (matches : LotteryPrize.t → bool) (s : Store) : option (Z * LotteryPrize.t) :=
  scanFirst (λ j, loadLotteryPrize (lotteryKey j) s) matches 30 0.
Definition scanAuction (matches : AuctionPrize.t → bool) (s : Store) : option (Z * AuctionPrize.t) :=
  scanFirst (λ j, loadAuctionPrize (auctionKey j) s) matches 30 0.
Strategy expand [scanLottery scanAuction].

(** ** Invariants of the store *)

Definition idsMatch {E} (id : E → string) (m : gmap string E) : Prop :=
  map_Forall (λ k e, id e = k) m.

Record wfStore (s : Store) : Prop := mkWf {
  wf_users : idsMatch User.id (users s);
  wf_protocolStats : idsMatch ProtocolStats.id (protocolStats s);
  wf_transactions : idsMatch Transaction.id (transactions s);
  wf_lotteryPrizes : idsMatch LotteryPrize.id (lotteryPrizes s);
  wf_auctionPrizes : idsMatch AuctionPrize.id (auctionPrizes s);
  wf_bids : idsMatch Bid.id (bids s)
}.

(** What holds of every prize record in a store reached from the empty
    one: it sits under the key of its day, it is not both claimed and
    expired, and from day 30 on it is neither. *)
Definition lotteryOk (k : string) (p : LotteryPrize.t) : Prop :=
  k = lotteryKey (LotteryPrize.day p)
  ∧ ¬ (LotteryPrize.claimed p = true ∧ LotteryPrize.expired p = true)
  ∧ (30 ≤ LotteryPrize.day p →
     LotteryPrize.claimed p = false ∧ LotteryPrize.expired p = false).

Definition auctionOk (k : string) (p : AuctionPrize.t) : Prop :=
  k = auctionKey (AuctionPrize.day p)
  ∧ ¬ (AuctionPrize.claimed p = true ∧ AuctionPrize.expired p = true)
  ∧ (30 ≤ AuctionPrize.day p →
     AuctionPrize.claimed p = false ∧ AuctionPrize.expired p = false).

Definition prizeInv (s : Store) : Prop :=
  map_Forall lotteryOk (lotteryPrizes s) ∧ map_Forall auctionOk (auctionPrizes s).

(** ** Runs of events *)

Definition lotteryWins (l : list LotteryWon.t) : list ContractEvent := map EvLotteryWon l.
Definition winDay (event : LotteryWon.t) : Z := LotteryWon.day (params event).

(** [R] relates every element of the list to its successor. *)
Fixpoint consecutive (R : Z → Z → Prop) (l : list Z) : Prop :=
  match l with
  | a :: (b :: _) as rest => R a b ∧ consecutive R rest
  | _ => True
  end.

Definition dayWindow (D : Z) (d : Z) : Prop := 0 ≤ d ∧ D - 6 ≤ d ≤ D.

(** Every stored lottery record sits under the key of a day in [P]. *)
Definition lotteryDaysWithin (P : Z → Prop) (s : Store) : Prop :=
  ∀ k, is_Some (loadLotteryPrize k s) → ∃ d, k = lotteryKey d ∧ P d.

(** The claim as the specification words it, for reference below. *)
Definition lotteryWindowAsStated : Prop :=
  ∀ (pre : list LotteryWon.t) (event : LotteryWon.t),
    consecutive Z.lt (map winDay (pre ++ [event])) →
    ∀ d, d ≤ winDay event - 7 →
      loadLotteryPrize (lotteryKey d)
        (processEvents (lotteryWins (pre ++ [event])) emptyStore) = None.

(** ** Sample events *)

Definition alice : Bytes := replicate 20 x01.
Definition bob : Bytes := replicate 20 x02.

(** A 32-byte transaction hash that differs from one timestamp to the
    next. *)
Definition sampleHash (ts : Z) : Bytes :=
  (replicate 31 x00 ++ [default x00 (Byte.of_N (Z.to_N (ts mod 256)))])%list.

(** The event with parameters [p] in the block of timestamp [ts]. *)
Definition at_ {P} (ts : Z) (p : P) : Event P :=
  mkEvent p (mkBlock ts ts) (mkTransaction (sampleHash ts)) 0.

Definition lotteryWonOn (day : Z) (winner : Bytes) (amount : Z) : LotteryWon.t :=
  at_ day (LotteryWon.mk day winner amount).

Definition auctionStartedOn (day : Z) (stratAmount : Z) : AuctionStarted.t :=
  at_ day (AuctionStarted.mk day stratAmount).

Definition bidPlacedAt (ts day : Z) (bidder : Bytes) (amount : Z) : BidPlaced.t :=
  at_ ts (BidPlaced.mk bidder amount day).

Definition auctionWonAt (ts day : Z) (winner : Bytes) (stratAmount monPaid : Z) :
    AuctionWon.t :=
  at_ ts (AuctionWon.mk day winner stratAmount monPaid).

Definition prizeClaimedBy (ts : Z) (winner : Bytes) (amount : Z) : PrizeClaimed.t :=
  at_ ts (PrizeClaimed.mk winner amount).

Definition beneficiaryFundedFor (ts : Z) (previousWinner beneficiary : Bytes) (amount : Z) :
    BeneficiaryFunded.t :=
  at_ ts (BeneficiaryFunded.mk previousWinner beneficiary amount).

Definition transferOf (ts : Z) (from to : Bytes) (value : Z) : Transfer.t :=
  at_ ts (Transfer.mk from to value).

Definition mintedAt (ts : Z) : Minted.t := at_ ts (Minted.mk alice 1 1 0).

(** Mints at the timestamps [1 .. n]. *)
Definition mints (n : nat) : list ContractEvent :=
  map (λ k, EvMinted (mintedAt (Z.of_nat k))) (seq 1 n).

(** ** The aggregates after each event *)

(** The user a handler gets for an address: the stored one, or a new one
    with zero totals. *)
Definition currentUser (address : Bytes) (s : Store) : User.t :=
  (getOrCreateUser address s).1.

Definition lotteryWonUser (event : LotteryWon.t) (user : User.t) : User.t :=
  let user := User.set_lotteryWinCount (wrap32 (User.lotteryWinCount user + 1)) user in
  User.set_totalLotteryWinnings
    (User.totalLotteryWinnings user + LotteryWon.amount (params event)) user.

Definition lotteryWonStats (event : LotteryWon.t) (stats : ProtocolStats.t) : ProtocolStats.t :=
  let stats := ProtocolStats.set_lotteryCount
                 (wrap32 (ProtocolStats.lotteryCount stats + 1)) stats in
  ProtocolStats.set_totalLotteryPrizes
    (ProtocolStats.totalLotteryPrizes stats + LotteryWon.amount (params event)) stats.

Definition auctionWonUser (event : AuctionWon.t) (user : User.t) : User.t :=
  let user := User.set_auctionWinCount (wrap32 (User.auctionWinCount user + 1)) user in
  let user := User.set_totalAuctionWinnings
                (User.totalAuctionWinnings user + AuctionWon.stratAmount (params event))
                user in
  User.set_totalAuctionSpent
    (User.totalAuctionSpent user + AuctionWon.monPaid (params event)) user.

Definition auctionWonStats (event : AuctionWon.t) (stats : ProtocolStats.t) : ProtocolStats.t :=
  let stats := ProtocolStats.set_auctionCount
                 (wrap32 (ProtocolStats.auctionCount stats + 1)) stats in
  ProtocolStats.set_totalAuctionPrizes
    (ProtocolStats.totalAuctionPrizes stats + AuctionWon.stratAmount (params event)) stats.

Definition mintedUser (event : Minted.t) (user : User.t) : User.t :=
  let user := User.set_totalMinted
                (User.totalMinted user + Minted.stratAmount (params event)) user in
  User.set_transactionCount (wrap32 (User.transactionCount user + 1)) user.

Definition mintedStats (event : Minted.t) (stats : ProtocolStats.t) : ProtocolStats.t :=
  let stats := ProtocolStats.set_totalMinted
                 (ProtocolStats.totalMinted stats + Minted.stratAmount (params event))
                 stats in
  let stats := ProtocolStats.set_totalFees
                 (ProtocolStats.totalFees stats + Minted.fee (params event)) stats in
  let stats := ProtocolStats.set_totalTransactions
                 (wrap32 (ProtocolStats.totalTransactions stats + 1)) stats in
  ProtocolStats.set_transactionCounter
    (wrap32 (ProtocolStats.transactionCounter stats + 1)) stats.

Definition redeemedUser (event : Redeemed.t) (user : User.t) : User.t :=
  let user := User.set_totalRedeemed
                (User.totalRedeemed user + Redeemed.stratAmount (params event)) user in
  User.set_transactionCount (wrap32 (User.transactionCount user + 1)) user.

Definition redeemedStats (event : Redeemed.t) (stats : ProtocolStats.t) : ProtocolStats.t :=
  let stats := ProtocolStats.set_totalRedeemed
                 (ProtocolStats.totalRedeemed stats + Redeemed.stratAmount (params event))
                 stats in
  let stats := ProtocolStats.set_totalFees
                 (ProtocolStats.totalFees stats + Redeemed.fee (params event)) stats in
  let stats := ProtocolStats.set_totalTransactions
                 (wrap32 (ProtocolStats.totalTransactions stats + 1)) stats in
  ProtocolStats.set_transactionCounter
    (wrap32 (ProtocolStats.transactionCounter stats + 1)) stats.

Definition transferUser (user : User.t) : User.t :=
  User.set_transactionCount (wrap32 (User.transactionCount user + 1)) user.

Definition transferStats (stats : ProtocolStats.t) : ProtocolStats.t :=
  let stats := ProtocolStats.set_totalTransactions
                 (wrap32 (ProtocolStats.totalTransactions stats + 1)) stats in
  ProtocolStats.set_transactionCounter
    (wrap32 (ProtocolStats.transactionCounter stats + 1)) stats.

(** The record [handleRedeemed] writes. *)
Definition redeemedRecord (event : Redeemed.t) (counter : Z) (userId : string) : Transaction.t :=
  Transaction.mk (toString counter) "REDEEM"
    (Redeemed.from (params event))
    (Redeemed.monAmount (params event))
    (Redeemed.stratAmount (params event))
    (Redeemed.fee (params event))
    (timestamp (block event)) (number (block event)) (hash (transaction event))
    userId.

(** Whether [handleTransfer] records the transfer. *)
Definition feeTransfer (event : Transfer.t) : bool :=
  bool_decide (Transfer.to (params event) = feesPoolAddress)
  && negb (bool_decide (Transfer.from (params event) = zeroAddress)).

Definition lotteryClaimedStats (amount : BigInt) (stats : ProtocolStats.t) : ProtocolStats.t :=
  ProtocolStats.set_totalLotteryClaimed
    (ProtocolStats.totalLotteryClaimed stats + amount) stats.

Definition auctionClaimedStats (amount : BigInt) (stats : ProtocolStats.t) : ProtocolStats.t :=
  ProtocolStats.set_totalAuctionClaimed
    (ProtocolStats.totalAuctionClaimed stats + amount) stats.

Definition lotteryExpiredStats (amount : BigInt) (stats : ProtocolStats.t) : ProtocolStats.t :=
  ProtocolStats.set_totalLotteryExpired
    (ProtocolStats.totalLotteryExpired stats + amount) stats.

Definition auctionExpiredStats (amount : BigInt) (stats : ProtocolStats.t) : ProtocolStats.t :=
  ProtocolStats.set_totalAuctionExpired
    (ProtocolStats.totalAuctionExpired stats + amount) stats.

(** The id and the record [handleBidPlaced] writes. *)
Definition bidKey (txHash : Bytes) (logIndex : BigInt) : string :=
  toHexString txHash +:+ "-" +:+ toString logIndex.

Definition bidRecord (event : BidPlaced.t) : Bid.t :=
  Bid.mk (bidKey (hash (transaction event)) (logIndex event))
    (BidPlaced.bidder (params event))
    (BidPlaced.amount (params event))
    (BidPlaced.day (params event))
    (timestamp (block event)) (number (block event)) (hash (transaction event))
    (auctionKey (BidPlaced.day (params event))).

Definition countedBid (auction : AuctionPrize.t) : AuctionPrize.t :=
  AuctionPrize.set_bidCount (wrap32 (AuctionPrize.bidCount auction + 1)) auction.

(** ** The effect of one event on the aggregates and on the tables *)

(** The address whose [User] entity the handler of the event updates. *)
Definition eventUser (ev : ContractEvent) : option Bytes :=
  match ev with
  | EvLotteryWon e => Some (LotteryWon.winner (params e))
  | EvAuctionWon e => Some (AuctionWon.winner (params e))
  | EvMinted e => Some (Minted.to (params e))
  | EvRedeemed e => Some (Redeemed.from (params e))
  | EvTransfer e => if feeTransfer e then Some (Transfer.from (params e)) else None
  | _ => None
  end.

Definition userAfter (ev : ContractEvent) (user : User.t) : User.t :=
  match ev with
  | EvLotteryWon e => lotteryWonUser e user
  | EvAuctionWon e => auctionWonUser e user
  | EvMinted e => mintedUser e user
  | EvRedeemed e => redeemedUser e user
  | EvTransfer e => transferUser user
  | _ => user
  end.

(** The statistics after the event, from those before it; the claim and
    expiry handlers change them only when their scan of the store finds
    a record. *)
Definition statsAfter (ev : ContractEvent) (s : Store) (stats : ProtocolStats.t) :
    ProtocolStats.t :=
  match ev with
  | EvLotteryWon e => lotteryWonStats e stats
  | EvAuctionWon e => auctionWonStats e stats
  | EvPrizeClaimed e =>
      let winner := PrizeClaimed.winner (params e) in
      let amount := PrizeClaimed.amount (params e) in
      match scanLottery (lotteryMatchesClaim winner amount) s with
      | Some _ => lotteryClaimedStats amount stats
      | None =>
          match scanAuction (auctionMatchesClaim winner amount) s with
          | Some _ => auctionClaimedStats amount stats
          | None => stats
          end
      end
  | EvBeneficiaryFunded e =>
      let previousWinner := BeneficiaryFunded.previousWinner (params e) in
      match scanLottery (lotteryMatchesExpiry previousWinner) s with
      | Some (_, lottery) => lotteryExpiredStats (LotteryPrize.amount lottery) stats
      | None =>
          match scanAuction (auctionMatchesExpiry previousWinner) s with
          | Some (_, auction) => auctionExpiredStats (AuctionPrize.stratAmount auction) stats
          | None => stats
          end
      end
  | EvAuctionStarted _ | EvBidPlaced _ => stats
  | EvMinted e => mintedStats e stats
  | EvRedeemed e => redeemedStats e stats
  | EvTransfer e => if feeTransfer e then transferStats stats else stats
  end.

(** The [Transaction] record the event's handler writes under the counter
    value [counter], if it writes one. *)
Definition transactionOf (ev : ContractEvent) (counter : Z) : option Transaction.t :=
  match ev with
  | EvMinted e => Some (mintedRecord e counter (toHexString (Minted.to (params e))))
  | EvRedeemed e => Some (redeemedRecord e counter (toHexString (Redeemed.from (params e))))
  | EvTransfer e =>
      if feeTransfer e
      then Some (transferRecord e counter (toHexString (Transfer.from (params e))))
      else None
  | _ => None
  end.

(** The events that write a [Transaction]. *)
Definition recorded (ev : ContractEvent) : bool :=
  match ev with
  | EvMinted _ | EvRedeemed _ => true
  | EvTransfer e => feeTransfer e
  | _ => false
  end.

(** ** Sums over the event log *)

Definition sumOver (f : ContractEvent → Z) (evs : list ContractEvent) : Z :=
  foldr (λ ev acc, f ev + acc) 0 evs.

Definition countOver (p : ContractEvent → bool) (evs : list ContractEvent) : Z :=
  sumOver (λ ev, if p ev then 1 else 0) evs.

(** The events that update the [User] of [address]. *)
Definition about (address : Bytes) (ev : ContractEvent) : bool :=
  bool_decide (eventUser ev = Some address).

(** [f] on the events about [address], zero on the others. *)
Definition onlyFor (address : Bytes) (f : ContractEvent → Z) (ev : ContractEvent) : Z :=
  if about address ev then f ev else 0.

Definition mintedOf (ev : ContractEvent) : Z :=
  match ev with EvMinted e => Minted.stratAmount (params e) | _ => 0 end.
Definition redeemedOf (ev : ContractEvent) : Z :=
  match ev with EvRedeemed e => Redeemed.stratAmount (params e) | _ => 0 end.
Definition feeOf (ev : ContractEvent) : Z :=
  match ev with
  | EvMinted e => Minted.fee (params e)
  | EvRedeemed e => Redeemed.fee (params e)
  | _ => 0
  end.
Definition lotteryPrizeOf (ev : ContractEvent) : Z :=
  match ev with EvLotteryWon e => LotteryWon.amount (params e) | _ => 0 end.
Definition auctionPrizeOf (ev : ContractEvent) : Z :=
  match ev with EvAuctionWon e => AuctionWon.stratAmount (params e) | _ => 0 end.
Definition auctionPaidOf (ev : ContractEvent) : Z :=
  match ev with EvAuctionWon e => AuctionWon.monPaid (params e) | _ => 0 end.

Definition isLotteryWon (ev : ContractEvent) : bool :=
  match ev with EvLotteryWon _ => true | _ => false end.
Definition isAuctionWon (ev : ContractEvent) : bool :=
  match ev with EvAuctionWon _ => true | _ => false end.

(** ** Order of the transactions by age *)

Definition notYounger (a b : Transaction.t) : Prop :=
  Transaction.timestamp a ≤ Transaction.timestamp b.

(** The transactions of a list that carry the timestamp [ts], in the
    order of the list. *)
Definition stampedAt (ts : BigInt) (l : list Transaction.t) : list Transaction.t :=
  filter (λ tx, Transaction.timestamp tx = ts) l.

(** ** The transaction table after [n] recorded events *)

(** The number of live transactions after [n] events that wrote one. *)
Definition liveAfter (n : Z) : Z := if n <=? MAX_TRANSACTIONS then n else n - 1.

(** What holds of the counter and of the transaction table once [n]
    events have written a transaction: the keys are counter values below
    [n]; up to the cap they are all there, and beyond it one of the first
    ten is not. *)
Definition transactionsInv (n : Z) (s : Store) : Prop :=
  ProtocolStats.transactionCounter (currentStats s) = n
  ∧ (∀ k tx, loadTransaction k s = Some tx → ∃ j, k = toString j ∧ 0 ≤ j < n)
  ∧ (n ≤ MAX_TRANSACTIONS → ∀ j, 0 ≤ j < n → is_Some (loadTransaction (toString j) s))
  ∧ (MAX_TRANSACTIONS < n →
     ∃ j, 0 ≤ j < MAX_TRANSACTIONS ∧ loadTransaction (toString j) s = None)
  ∧ Z.of_nat (liveTransactions s) = liveAfter n.

(** ** First match of a scan *)

(** [e], loaded for day [j], is the match with the smallest day among the
    thirty days the claim and expiry handlers try, 0 to 29. *)
Definition firstMatch {E} (load : Z → option E) (matches : E → bool) (j : Z) (e : E) : Prop :=
  0 ≤ j < 30 ∧ load j = Some e ∧ matches e = true
  ∧ ∀ i e', 0 ≤ i < j → load i = Some e' → matches e' = false.

(** No record of the thirty days matches. *)
Definition noMatch {E} (load : Z → option E) (matches : E → bool) : Prop :=
  ∀ i e, 0 ≤ i < 30 → load i = Some e → matches e = false.

Definition lotteryOn (s : Store) (day : Z) : option LotteryPrize.t :=
  loadLotteryPrize (lotteryKey day) s.
Definition auctionOn (s : Store) (day : Z) : option AuctionPrize.t :=
  loadAuctionPrize (auctionKey day) s.

(** ** Bids *)

(** A string without the character [-]. *)
Fixpoint dashFree (s : string) : Prop :=
  match s with
  | EmptyString => True
  | String c rest => c ≠ "-"%char ∧ dashFree rest
  end.

(** What identifies a bid event on chain: its transaction and its
    position in the log. *)
Definition bidIdentity (event : BidPlaced.t) : Bytes * BigInt :=
  (hash (transaction event), logIndex event).

(** The bid events of a log, in order. *)
Definition bidsOf (evs : list ContractEvent) : list BidPlaced.t :=
  omap (λ ev, match ev with EvBidPlaced e => Some e | _ => None end) evs.

(** The number of bids of a list placed for [day]. *)
Definition bidsFor (day : Z) (l : list BidPlaced.t) : Z :=
  Z.of_nat (length (filter (λ b, BidPlaced.day (params b) = day) l)).

(** ** Which tables an event can change *)

Definition touchesStats (ev : ContractEvent) : bool :=
  match ev with
  | EvAuctionStarted _ | EvBidPlaced _ => false
  | EvTransfer e => feeTransfer e
  | _ => true
  end.

Definition touchesLottery (ev : ContractEvent) : bool :=
  match ev with
  | EvLotteryWon _ | EvPrizeClaimed _ | EvBeneficiaryFunded _ => true
  | _ => false
  end.

Definition touchesAuction (ev : ContractEvent) : bool :=
  match ev with
  | EvAuctionWon _ | EvAuctionStarted _ | EvBidPlaced _
  | EvPrizeClaimed _ | EvBeneficiaryFunded _ => true
  | _ => false
  end.

Definition isBidPlaced (ev : ContractEvent) : bool :=
  match ev with EvBidPlaced _ => true | _ => false end.

(** ** Keys and references between entities *)

(** The user entity a record refers to exists. *)
Definition userExists (userId : string) (s : Store) : Prop := is_Some (loadUser userId s).

(** What links the entities of a store: users are keyed by their address,
    the statistics entity is the only one of its table, each record
    refers to the user of its address, each bid to the auction of its
    day. *)
Record linked (s : Store) : Prop := mkLinked {
  linked_users : ∀ k u, users s !! k = Some u → k = toHexString (User.address u);
  linked_protocolStats : ∀ k stats, protocolStats s !! k = Some stats → k = PROTOCOL_STATS_ID;
  linked_transactions : ∀ k tx, transactions s !! k = Some tx →
    Transaction.userEntity tx = toHexString (Transaction.user tx)
    ∧ userExists (Transaction.userEntity tx) s;
  linked_lotteryPrizes : ∀ k p, lotteryPrizes s !! k = Some p →
    LotteryPrize.user p = toHexString (LotteryPrize.winner p)
    ∧ userExists (LotteryPrize.user p) s;
  linked_auctionPrizes : ∀ k a, auctionPrizes s !! k = Some a →
    AuctionPrize.user a = toHexString (AuctionPrize.winner a)
    ∧ (userExists (AuctionPrize.user a) s ∨ AuctionPrize.winner a = zeroAddress);
  linked_bids : ∀ k b, bids s !! k = Some b → Bid.auction b = auctionKey (Bid.day b)
}.

(** ** Lottery prizes not yet paid out *)

Definition sumMap {A} (f : A → Z) (m : gmap string A) : Z :=
  map_fold (λ _ x acc, f x + acc) 0 m.

(** The amount a stored lottery record still holds: its amount while it
    is neither claimed nor expired. *)
Definition openAmount (p : LotteryPrize.t) : Z :=
  if LotteryPrize.claimed p || LotteryPrize.expired p then 0 else LotteryPrize.amount p.

Definition openLottery (s : Store) : Z := sumMap openAmount (lotteryPrizes s).

(** ** Timestamps of the recorded events *)

Definition eventTimestamp (ev : ContractEvent) : BigInt :=
  match ev with
  | EvLotteryWon e => timestamp (block e)
  | EvAuctionWon e => timestamp (block e)
  | EvPrizeClaimed e => timestamp (block e)
  | EvBeneficiaryFunded e => timestamp (block e)
  | EvAuctionStarted e => timestamp (block e)
  | EvBidPlaced e => timestamp (block e)
  | EvMinted e => timestamp (block e)
  | EvRedeemed e => timestamp (block e)
  | EvTransfer e => timestamp (block e)
  end.

(** The block timestamps of the events of a log that write a
    transaction, in order. *)
Definition recordedStamps (evs : list ContractEvent) : list BigInt :=
  omap (λ ev, if recorded ev then Some (eventTimestamp ev) else None) evs.

(** What holds of the transaction table when the recorded events came in
    the order of their timestamps: stored timestamps are those of
    recorded events and grow with the key, every key from 1 on is taken,
    and key 0 is free once the cap was passed. *)
Definition oldestFirst (n : Z) (stamps : list BigInt) (s : Store) : Prop :=
  (∀ k tx, loadTransaction k s = Some tx → Transaction.timestamp tx ∈ stamps)
  ∧ (∀ i j txi txj, 0 ≤ i ≤ j →
       loadTransaction (toString i) s = Some txi →
       loadTransaction (toString j) s = Some txj →
       Transaction.timestamp txi ≤ Transaction.timestamp txj)
  ∧ (∀ j, 1 ≤ j < n → is_Some (loadTransaction (toString j) s))
  ∧ (MAX_TRANSACTIONS < n → loadTransaction (toString 0) s = None).

(** ** Auction prizes not yet paid out *)

(** The amount a stored auction record still holds: its token amount
    while it has a winner other than the zero address of the
    placeholder and is neither claimed nor expired. *)
Definition openAuctionAmount (a : AuctionPrize.t) : Z :=
  if AuctionPrize.claimed a || AuctionPrize.expired a
     || bool_decide (AuctionPrize.winner a = zeroAddress)
  then 0 else AuctionPrize.stratAmount a.

Definition openAuction (s : Store) : Z := sumMap openAuctionAmount (auctionPrizes s).

(** The address a claim or an expiry looks for. *)
Definition soughtWinner (ev : ContractEvent) : option Bytes :=
  match ev with
  | EvPrizeClaimed e => Some (PrizeClaimed.winner (params e))
  | EvBeneficiaryFunded e => Some (BeneficiaryFunded.previousWinner (params e))
  | _ => None
  end.

(** * Properties *)

(** ** Entity keys *)

Lemma length_append (s1 s2 : string) :
  String.length (s1 +:+ s2) = (String.length s1 + String.length s2)%nat.
Proof. induction s1 as [|c s1 IH]; simpl; [done | by rewrite IH]. Qed.

Lemma append_inj_r (suffix s1 s2 : string) :
  s1 +:+ suffix = s2 +:+ suffix → s1 = s2.
Proof.
  revert s2. induction s1 as [|c s1 IH]; intros [|d s2] H; simpl in H.
  - done.
  - apply (f_equal String.length) in H. rewrite !length_append in H. simpl in H. lia.
  - apply (f_equal String.length) in H. rewrite !length_append in H. simpl in H. lia.
  - change (String c (s1 +:+ suffix) = String d (s2 +:+ suffix)) in H.
    injection H as -> H. f_equal. by apply IH.
Qed.

Lemma toString_inj (a b : Z) : toString a = toString b → a = b.
Proof. apply pretty_Z_inj. Qed.

Lemma lotteryKey_inj (a b : Z) : lotteryKey a = lotteryKey b → a = b.
Proof. intros H. by apply toString_inj, (append_inj_r "-lottery"). Qed.

Lemma auctionKey_inj (a b : Z) : auctionKey a = auctionKey b → a = b.
Proof. intros H. by apply toString_inj, (append_inj_r "-auction"). Qed.

Lemma lotteryKey_ne (a b : Z) : a ≠ b → lotteryKey a ≠ lotteryKey b.
Proof. intros H E. by apply H, lotteryKey_inj. Qed.


(** ** Auction placeholder and bid counting *)

(** C9. [AuctionStarted] for a day without a record stores a placeholder
    with the zero address as winner, nothing paid and no bids, and the next
    [BidPlaced] for that day brings its bid count to 1; when the day
    already has a record, [AuctionStarted] leaves the store as it is.
    (The claim's day 3 is the instance [day = 3].) *)
Theorem auction_started_placeholder
    (started : AuctionStarted.t) (bid : BidPlaced.t) (s : Store) :
  BidPlaced.day (params bid) = AuctionStarted.day (params started) →
  let day := AuctionStarted.day (params started) in
  let s1 := handleAuctionStarted started s in
  (loadAuctionPrize (auctionKey day) s = None →
     ∃ p, loadAuctionPrize (auctionKey day) s1 = Some p
        ∧ AuctionPrize.day p = day
        ∧ AuctionPrize.stratAmount p = AuctionStarted.stratAmount (params started)
        ∧ AuctionPrize.winner p = replicate 20 x00
        ∧ toHexString (AuctionPrize.winner p) = ADDRESS_ZERO
        ∧ AuctionPrize.monPaid p = 0
        ∧ AuctionPrize.bidCount p = 0
        ∧ loadAuctionPrize (auctionKey day) (handleBidPlaced bid s1)
          = Some (AuctionPrize.set_bidCount 1 p))
  ∧ (is_Some (loadAuctionPrize (auctionKey day) s) → s1 = s).
Proof.
  intros Hday day s1. subst day s1. unfold handleAuctionStarted, auctionKey. split.
  - intros Hnone. rewrite Hnone. eexists. split.
    + unfold loadAuctionPrize, saveAuctionPrize. simpl. apply lookup_insert_eq.
    + repeat split; try reflexivity.
      unfold handleBidPlaced. rewrite Hday.
      unfold loadAuctionPrize, saveAuctionPrize, saveBid. simpl.
      rewrite lookup_insert_eq. simpl. by rewrite lookup_insert_eq.
  - intros [p Hp]. by rewrite Hp.
Qed.

(** At day 3, from the empty store; and a second start for the same day. *)
Lemma auction_started_placeholder_witness :
  (∃ p, loadAuctionPrize (auctionKey 3) (handleAuctionStarted (auctionStartedOn 3 50) emptyStore)
        = Some p
      ∧ toHexString (AuctionPrize.winner p) = ADDRESS_ZERO
      ∧ AuctionPrize.bidCount p = 0
      ∧ loadAuctionPrize (auctionKey 3)
          (handleBidPlaced (bidPlacedAt 4 3 alice 7)
             (handleAuctionStarted (auctionStartedOn 3 50) emptyStore))
        = Some (AuctionPrize.set_bidCount 1 p))
  ∧ handleAuctionStarted (auctionStartedOn 3 60)
      (handleAuctionStarted (auctionStartedOn 3 50) emptyStore)
    = handleAuctionStarted (auctionStartedOn 3 50) emptyStore.
Proof.
  split.
  - destruct (auction_started_placeholder (auctionStartedOn 3 50) (bidPlacedAt 4 3 alice 7)
                emptyStore eq_refl) as [H _].
    destruct (H ltac:(vm_compute; reflexivity)) as (p & Hp & _ & _ & _ & Hw & _ & Hb & Hbid).
    exists p. repeat split; assumption.
  - destruct (auction_started_placeholder (auctionStartedOn 3 60) (bidPlacedAt 4 3 alice 7)
                (handleAuctionStarted (auctionStartedOn 3 50) emptyStore) eq_refl)
      as [_ H].
    apply H. vm_compute. eexists. reflexivity.
Defined.

(** ** Hexadecimal rendering of addresses *)

Lemma hexDigit_inj (x y : N) :
  (x < 16)%N → (y < 16)%N → hexDigit x = hexDigit y → x = y.
Proof. compute; intros. by repeat (discriminate || case_match). Qed.

Lemma lowerChar_hexDigit (n : N) : lowerChar (hexDigit n) = hexDigit n.
Proof. unfold hexDigit. by repeat case_match. Qed.

Lemma toLowerCase_byteToHex (x : byte) (rest : string) :
  toLowerCase (byteToHex x rest) = byteToHex x (toLowerCase rest).
Proof. unfold byteToHex. cbn [toLowerCase]. by rewrite !lowerChar_hexDigit. Qed.

Lemma toLowerCase_hex (b : Bytes) :
  toLowerCase (foldr byteToHex EmptyString b) = foldr byteToHex EmptyString b.
Proof.
  induction b as [|x b IH]; [done|].
  change (foldr byteToHex EmptyString (x :: b)) with (byteToHex x (foldr byteToHex EmptyString b)).
  by rewrite toLowerCase_byteToHex, IH.
Qed.

Lemma toLowerCase_toHexString (b : Bytes) : toLowerCase (toHexString b) = toHexString b.
Proof.
  unfold toHexString.
  change (toLowerCase ("0x" +:+ ?r)) with ("0x" +:+ toLowerCase r).
  by rewrite toLowerCase_hex.
Qed.

Lemma byte_to_N_inj (a b : byte) : Byte.to_N a = Byte.to_N b → a = b.
Proof.
  intros H. pose proof (Byte.of_to_N a) as Ha. pose proof (Byte.of_to_N b) as Hb.
  rewrite H in Ha. congruence.
Qed.

Lemma byteToHex_inj (a b : byte) (r1 r2 : string) :
  byteToHex a r1 = byteToHex b r2 → a = b ∧ r1 = r2.
Proof.
  unfold byteToHex. intros H. injection H as Hhi Hlo Hr. split; [|done].
  pose proof (Byte.to_N_bounded a). pose proof (Byte.to_N_bounded b).
  apply hexDigit_inj in Hhi; [|apply N.Div0.div_lt_upper_bound; lia..].
  apply hexDigit_inj in Hlo; [|apply N.mod_lt; lia..].
  apply byte_to_N_inj.
  rewrite (N.div_mod (Byte.to_N a) 16), (N.div_mod (Byte.to_N b) 16) by lia.
  by rewrite Hhi, Hlo.
Qed.

#[global] Instance toHexString_inj : Inj (=) (=) toHexString.
Proof.
  intros a b H. unfold toHexString in H. apply (inj (String.app "0x")) in H.
  revert b H. induction a as [|x a IH]; intros [|y b] H; simpl in H.
  - done.
  - unfold byteToHex in H. discriminate.
  - unfold byteToHex in H. discriminate.
  - apply byteToHex_inj in H as [-> H]. f_equal. by apply IH.
Qed.

Lemma toHexString_feesPoolAddress : toHexString feesPoolAddress = FEES_POOL_ADDRESS.
Proof. reflexivity. Qed.

Lemma toHexString_zeroAddress : toHexString zeroAddress = ADDRESS_ZERO.
Proof. reflexivity. Qed.

Lemma zeroAddress_bytes : zeroAddress = replicate 20 x00.
Proof. reflexivity. Qed.

(** The first test of [handleTransfer] holds exactly for destinations
    other than the fee pool, the second exactly for the zero source. *)
Lemma transfer_to_test (a : Bytes) :
  bool_decide (toLowerCase (toHexString a) ≠ toLowerCase FEES_POOL_ADDRESS)
  = bool_decide (a ≠ feesPoolAddress).
Proof.
  apply bool_decide_ext. rewrite toLowerCase_toHexString.
  change (toLowerCase FEES_POOL_ADDRESS) with (toHexString feesPoolAddress).
  split; intros H E; apply H; [by rewrite E | by apply (inj toHexString)].
Qed.

Lemma transfer_from_test (a : Bytes) :
  bool_decide (toLowerCase (toHexString a) = toLowerCase ADDRESS_ZERO)
  = bool_decide (a = zeroAddress).
Proof.
  apply bool_decide_ext. rewrite toLowerCase_toHexString.
  change (toLowerCase ADDRESS_ZERO) with (toHexString zeroAddress).
  split; [apply (inj toHexString) | by intros ->].
Qed.

(** ** Store algebra *)

(** Each [with...] updates its own table and no other. *)
Create Rewrite HintDb store.

Lemma users_withUsers (f : gmap string User.t → gmap string User.t) (s : Store) :
  users (withUsers f s) = f (users s).
Proof. reflexivity. Qed.
Lemma users_withProtocolStats (f : gmap string ProtocolStats.t → gmap string ProtocolStats.t) (s : Store) :
  users (withProtocolStats f s) = users s.
Proof. reflexivity. Qed.
Lemma users_withTransactions (f : gmap string Transaction.t → gmap string Transaction.t) (s : Store) :
  users (withTransactions f s) = users s.
Proof. reflexivity. Qed.
Lemma users_withLotteryPrizes (f : gmap string LotteryPrize.t → gmap string LotteryPrize.t) (s : Store) :
  users (withLotteryPrizes f s) = users s.
Proof. reflexivity. Qed.
Lemma users_withAuctionPrizes (f : gmap string AuctionPrize.t → gmap string AuctionPrize.t) (s : Store) :
  users (withAuctionPrizes f s) = users s.
Proof. reflexivity. Qed.
Lemma users_withBids (f : gmap string Bid.t → gmap string Bid.t) (s : Store) :
  users (withBids f s) = users s.
Proof. reflexivity. Qed.
Lemma protocolStats_withUsers (f : gmap string User.t → gmap string User.t) (s : Store) :
  protocolStats (withUsers f s) = protocolStats s.
Proof. reflexivity. Qed.
Lemma protocolStats_withProtocolStats (f : gmap string ProtocolStats.t → gmap string ProtocolStats.t) (s : Store) :
  protocolStats (withProtocolStats f s) = f (protocolStats s).
Proof. reflexivity. Qed.
Lemma protocolStats_withTransactions (f : gmap string Transaction.t → gmap string Transaction.t) (s : Store) :
  protocolStats (withTransactions f s) = protocolStats s.
Proof. reflexivity. Qed.
Lemma protocolStats_withLotteryPrizes (f : gmap string LotteryPrize.t → gmap string LotteryPrize.t) (s : Store) :
  protocolStats (withLotteryPrizes f s) = protocolStats s.
Proof. reflexivity. Qed.
Lemma protocolStats_withAuctionPrizes (f : gmap string AuctionPrize.t → gmap string AuctionPrize.t) (s : Store) :
  protocolStats (withAuctionPrizes f s) = protocolStats s.
Proof. reflexivity. Qed.
Lemma protocolStats_withBids (f : gmap string Bid.t → gmap string Bid.t) (s : Store) :
  protocolStats (withBids f s) = protocolStats s.
Proof. reflexivity. Qed.
Lemma transactions_withUsers (f : gmap string User.t → gmap string User.t) (s : Store) :
  transactions (withUsers f s) = transactions s.
Proof. reflexivity. Qed.
Lemma transactions_withProtocolStats (f : gmap string ProtocolStats.t → gmap string ProtocolStats.t) (s : Store) :
  transactions (withProtocolStats f s) = transactions s.
Proof. reflexivity. Qed.
Lemma transactions_withTransactions (f : gmap string Transaction.t → gmap string Transaction.t) (s : Store) :
  transactions (withTransactions f s) = f (transactions s).
Proof. reflexivity. Qed.
Lemma transactions_withLotteryPrizes (f : gmap string LotteryPrize.t → gmap string LotteryPrize.t) (s : Store) :
  transactions (withLotteryPrizes f s) = transactions s.
Proof. reflexivity. Qed.
Lemma transactions_withAuctionPrizes (f : gmap string AuctionPrize.t → gmap string AuctionPrize.t) (s : Store) :
  transactions (withAuctionPrizes f s) = transactions s.
Proof. reflexivity. Qed.
Lemma transactions_withBids (f : gmap string Bid.t → gmap string Bid.t) (s : Store) :
  transactions (withBids f s) = transactions s.
Proof. reflexivity. Qed.
Lemma lotteryPrizes_withUsers (f : gmap string User.t → gmap string User.t) (s : Store) :
  lotteryPrizes (withUsers f s) = lotteryPrizes s.
Proof. reflexivity. Qed.
Lemma lotteryPrizes_withProtocolStats (f : gmap string ProtocolStats.t → gmap string ProtocolStats.t) (s : Store) :
  lotteryPrizes (withProtocolStats f s) = lotteryPrizes s.
Proof. reflexivity. Qed.
Lemma lotteryPrizes_withTransactions (f : gmap string Transaction.t → gmap string Transaction.t) (s : Store) :
  lotteryPrizes (withTransactions f s) = lotteryPrizes s.
Proof. reflexivity. Qed.
Lemma lotteryPrizes_withLotteryPrizes (f : gmap string LotteryPrize.t → gmap string LotteryPrize.t) (s : Store) :
  lotteryPrizes (withLotteryPrizes f s) = f (lotteryPrizes s).
Proof. reflexivity. Qed.
Lemma lotteryPrizes_withAuctionPrizes (f : gmap string AuctionPrize.t → gmap string AuctionPrize.t) (s : Store) :
  lotteryPrizes (withAuctionPrizes f s) = lotteryPrizes s.
Proof. reflexivity. Qed.
Lemma lotteryPrizes_withBids (f : gmap string Bid.t → gmap string Bid.t) (s : Store) :
  lotteryPrizes (withBids f s) = lotteryPrizes s.
Proof. reflexivity. Qed.
Lemma auctionPrizes_withUsers (f : gmap string User.t → gmap string User.t) (s : Store) :
  auctionPrizes (withUsers f s) = auctionPrizes s.
Proof. reflexivity. Qed.
Lemma auctionPrizes_withProtocolStats (f : gmap string ProtocolStats.t → gmap string ProtocolStats.t) (s : Store) :
  auctionPrizes (withProtocolStats f s) = auctionPrizes s.
Proof. reflexivity. Qed.
Lemma auctionPrizes_withTransactions (f : gmap string Transaction.t → gmap string Transaction.t) (s : Store) :
  auctionPrizes (withTransactions f s) = auctionPrizes s.
Proof. reflexivity. Qed.
Lemma auctionPrizes_withLotteryPrizes (f : gmap string LotteryPrize.t → gmap string LotteryPrize.t) (s : Store) :
  auctionPrizes (withLotteryPrizes f s) = auctionPrizes s.
Proof. reflexivity. Qed.
Lemma auctionPrizes_withAuctionPrizes (f : gmap string AuctionPrize.t → gmap string AuctionPrize.t) (s : Store) :
  auctionPrizes (withAuctionPrizes f s) = f (auctionPrizes s).
Proof. reflexivity. Qed.
Lemma auctionPrizes_withBids (f : gmap string Bid.t → gmap string Bid.t) (s : Store) :
  auctionPrizes (withBids f s) = auctionPrizes s.
Proof. reflexivity. Qed.
Lemma bids_withUsers (f : gmap string User.t → gmap string User.t) (s : Store) :
  bids (withUsers f s) = bids s.
Proof. reflexivity. Qed.
Lemma bids_withProtocolStats (f : gmap string ProtocolStats.t → gmap string ProtocolStats.t) (s : Store) :
  bids (withProtocolStats f s) = bids s.
Proof. reflexivity. Qed.
Lemma bids_withTransactions (f : gmap string Transaction.t → gmap string Transaction.t) (s : Store) :
  bids (withTransactions f s) = bids s.
Proof. reflexivity. Qed.
Lemma bids_withLotteryPrizes (f : gmap string LotteryPrize.t → gmap string LotteryPrize.t) (s : Store) :
  bids (withLotteryPrizes f s) = bids s.
Proof. reflexivity. Qed.
Lemma bids_withAuctionPrizes (f : gmap string AuctionPrize.t → gmap string AuctionPrize.t) (s : Store) :
  bids (withAuctionPrizes f s) = bids s.
Proof. reflexivity. Qed.
Lemma bids_withBids (f : gmap string Bid.t → gmap string Bid.t) (s : Store) :
  bids (withBids f s) = f (bids s).
Proof. reflexivity. Qed.

#[global] Hint Rewrite
  users_withUsers users_withProtocolStats users_withTransactions
  users_withLotteryPrizes users_withAuctionPrizes users_withBids
  protocolStats_withUsers protocolStats_withProtocolStats protocolStats_withTransactions
  protocolStats_withLotteryPrizes protocolStats_withAuctionPrizes protocolStats_withBids
  transactions_withUsers transactions_withProtocolStats transactions_withTransactions
  transactions_withLotteryPrizes transactions_withAuctionPrizes transactions_withBids
  lotteryPrizes_withUsers lotteryPrizes_withProtocolStats lotteryPrizes_withTransactions
  lotteryPrizes_withLotteryPrizes lotteryPrizes_withAuctionPrizes lotteryPrizes_withBids
  auctionPrizes_withUsers auctionPrizes_withProtocolStats auctionPrizes_withTransactions
  auctionPrizes_withLotteryPrizes auctionPrizes_withAuctionPrizes auctionPrizes_withBids
  bids_withUsers bids_withProtocolStats bids_withTransactions
  bids_withLotteryPrizes bids_withAuctionPrizes bids_withBids
  : store.

(** The entity operations as table updates. *)
Lemma loadUser_eq (k : string) (s : Store) :
  loadUser k s = users s !! k.
Proof. reflexivity. Qed.
Lemma loadProtocolStats_eq (k : string) (s : Store) :
  loadProtocolStats k s = protocolStats s !! k.
Proof. reflexivity. Qed.
Lemma loadTransaction_eq (k : string) (s : Store) :
  loadTransaction k s = transactions s !! k.
Proof. reflexivity. Qed.
Lemma loadLotteryPrize_eq (k : string) (s : Store) :
  loadLotteryPrize k s = lotteryPrizes s !! k.
Proof. reflexivity. Qed.
Lemma loadAuctionPrize_eq (k : string) (s : Store) :
  loadAuctionPrize k s = auctionPrizes s !! k.
Proof. reflexivity. Qed.
Lemma saveUser_eq (e : User.t) (s : Store) :
  saveUser e s = withUsers <[User.id e := e]> s.
Proof. reflexivity. Qed.
Lemma saveProtocolStats_eq (e : ProtocolStats.t) (s : Store) :
  saveProtocolStats e s = withProtocolStats <[ProtocolStats.id e := e]> s.
Proof. reflexivity. Qed.
Lemma saveTransaction_eq (e : Transaction.t) (s : Store) :
  saveTransaction e s = withTransactions <[Transaction.id e := e]> s.
Proof. reflexivity. Qed.
Lemma removeTransaction_eq (k : string) (s : Store) :
  removeTransaction k s = withTransactions (delete k) s.
Proof. reflexivity. Qed.
Lemma saveLotteryPrize_eq (e : LotteryPrize.t) (s : Store) :
  saveLotteryPrize e s = withLotteryPrizes <[LotteryPrize.id e := e]> s.
Proof. reflexivity. Qed.
Lemma removeLotteryPrize_eq (k : string) (s : Store) :
  removeLotteryPrize k s = withLotteryPrizes (delete k) s.
Proof. reflexivity. Qed.
Lemma saveAuctionPrize_eq (e : AuctionPrize.t) (s : Store) :
  saveAuctionPrize e s = withAuctionPrizes <[AuctionPrize.id e := e]> s.
Proof. reflexivity. Qed.
Lemma removeAuctionPrize_eq (k : string) (s : Store) :
  removeAuctionPrize k s = withAuctionPrizes (delete k) s.
Proof. reflexivity. Qed.
Lemma saveBid_eq (e : Bid.t) (s : Store) :
  saveBid e s = withBids <[Bid.id e := e]> s.
Proof. reflexivity. Qed.

#[global] Hint Rewrite
  loadUser_eq loadProtocolStats_eq loadTransaction_eq
  loadLotteryPrize_eq loadAuctionPrize_eq saveUser_eq
  saveProtocolStats_eq saveTransaction_eq removeTransaction_eq
  saveLotteryPrize_eq removeLotteryPrize_eq saveAuctionPrize_eq
  removeAuctionPrize_eq saveBid_eq
  : store.

(** Push the table projections through the entity operations, by
    rewriting. *)
Ltac store_simpl := autorewrite with store in *.

Lemma Store_eq (s1 s2 : Store) :
  users s1 = users s2 → protocolStats s1 = protocolStats s2 →
  transactions s1 = transactions s2 → lotteryPrizes s1 = lotteryPrizes s2 →
  auctionPrizes s1 = auctionPrizes s2 → bids s1 = bids s2 → s1 = s2.
Proof. destruct s1, s2. simpl. by intros -> -> -> -> -> ->. Qed.

(** [getOrCreateUser] leaves a store that holds the returned user under
    the address key and is otherwise the given one. *)
Lemma getOrCreateUser_eq (address : Bytes) (s s1 : Store) (user : User.t) :
  getOrCreateUser address s = (user, s1) →
  s1 = withUsers <[toHexString address := user]> s
  ∧ (loadUser (toHexString address) s = Some user
     ∨ loadUser (toHexString address) s = None ∧ user = newUser address).
Proof.
  unfold getOrCreateUser. destruct (loadUser _ s) as [u|] eqn:E; intros [= <- <-].
  - split; [|by left]. unfold loadUser in E.
    apply Store_eq; store_simpl; try done. by rewrite insert_id.
  - split; [done | by right].
Qed.

Lemma getOrCreateProtocolStats_eq (s s1 : Store) (stats : ProtocolStats.t) :
  getOrCreateProtocolStats s = (stats, s1) →
  s1 = withProtocolStats <[PROTOCOL_STATS_ID := stats]> s
  ∧ (loadProtocolStats PROTOCOL_STATS_ID s = Some stats
     ∨ loadProtocolStats PROTOCOL_STATS_ID s = None ∧ stats = newProtocolStats).
Proof.
  unfold getOrCreateProtocolStats.
  destruct (loadProtocolStats _ s) as [u|] eqn:E; intros [= <- <-].
  - split; [|by left]. unfold loadProtocolStats in E.
    apply Store_eq; store_simpl; try done. by rewrite insert_id.
  - split; [done | by right].
Qed.

Lemma wrap32_small (z : Z) : - 2 ^ 31 ≤ z < 2 ^ 31 → wrap32 z = z.
Proof. unfold wrap32. intros H. rewrite Z.mod_small; lia. Qed.

Lemma wrap32_succ_ne (z : Z) : wrap32 (z + 1) ≠ z.
Proof.
  unfold wrap32. change (2 ^ 31) with 2147483648. change (2 ^ 32) with 4294967296.
  intros H.
  pose proof (Z.mod_pos_bound (z + 1 + 2147483648) 4294967296 eq_refl).
  pose proof (Z.div_mod (z + 1 + 2147483648) 4294967296 ltac:(lia)). lia.
Qed.

(** ** Transaction rotation touches the transaction table only *)

Lemma removeAll_eq (l : list Transaction.t) (s : Store) :
  fold_left (λ s tx, removeTransaction (Transaction.id tx) s) l s
  = withTransactions (deleteAll l) s.
Proof.
  revert s. induction l as [|tx l IH]; intros s; simpl.
  - by destruct s.
  - rewrite IH. by destruct s.
Qed.

Lemma deleteAll_lookup (l : list Transaction.t) (m : gmap string Transaction.t) (k : string) :
  deleteAll l m !! k = None ∨ deleteAll l m !! k = m !! k.
Proof.
  revert m. induction l as [|tx l IH]; intros m; simpl; [by right|].
  destruct (IH (delete (Transaction.id tx) m)) as [H|H]; [by left|].
  unfold deleteAll in *. simpl. rewrite H.
  destruct (decide (Transaction.id tx = k)) as [->|Hne].
  - left. apply lookup_delete_eq.
  - right. by apply lookup_delete_ne.
Qed.

Lemma rotateTransactions_eq (s : Store) :
  rotateTransactions s
  = withTransactions (λ _, transactions (rotateTransactions s)) s.
Proof.
  unfold rotateTransactions. case_match; [|by destruct s].
  rewrite removeAll_eq. by destruct s.
Qed.

Lemma rotateTransactions_lookup (s : Store) (k : string) :
  loadTransaction k (rotateTransactions s) = None
  ∨ loadTransaction k (rotateTransactions s) = loadTransaction k s.
Proof.
  unfold rotateTransactions, loadTransaction. case_match; [|by right].
  rewrite removeAll_eq. store_simpl. apply deleteAll_lookup.
Qed.

Lemma rotateTransactions_protocolStats (s : Store) :
  protocolStats (rotateTransactions s) = protocolStats s.
Proof. by rewrite rotateTransactions_eq. Qed.

Lemma rotateTransactions_users (s : Store) : users (rotateTransactions s) = users s.
Proof. by rewrite rotateTransactions_eq. Qed.

Lemma rotateTransactions_lotteryPrizes (s : Store) :
  lotteryPrizes (rotateTransactions s) = lotteryPrizes s.
Proof. by rewrite rotateTransactions_eq. Qed.

Lemma rotateTransactions_auctionPrizes (s : Store) :
  auctionPrizes (rotateTransactions s) = auctionPrizes s.
Proof. by rewrite rotateTransactions_eq. Qed.

Lemma rotateTransactions_bids (s : Store) : bids (rotateTransactions s) = bids s.
Proof. by rewrite rotateTransactions_eq. Qed.

Lemma getOrCreateProtocolStats_fst (s s' : Store) :
  protocolStats s' = protocolStats s →
  (getOrCreateProtocolStats s').1 = (getOrCreateProtocolStats s).1.
Proof.
  intros H. unfold getOrCreateProtocolStats, loadProtocolStats. rewrite H.
  by destruct (protocolStats s !! PROTOCOL_STATS_ID).
Qed.

Lemma currentStats_rotateTransactions (s : Store) :
  currentStats (rotateTransactions s) = currentStats s.
Proof. apply getOrCreateProtocolStats_fst, rotateTransactions_protocolStats. Qed.

(** ** Fee-pool transfers *)

Lemma getOrCreateUser_id (address : Bytes) (s s1 : Store) (user : User.t) :
  map_Forall (λ k u, User.id u = k) (users s) →
  getOrCreateUser address s = (user, s1) → User.id user = toHexString address.
Proof.
  intros Hwf [_ [H|[_ ->]]]%getOrCreateUser_eq; [|done].
  by apply (Hwf _ _ H).
Qed.

Lemma handleTransfer_ignored (event : Transfer.t) (s : Store) :
  ¬ (Transfer.to (params event) = feesPoolAddress
     ∧ Transfer.from (params event) ≠ zeroAddress) →
  handleTransfer event s = s.
Proof.
  intros H. unfold handleTransfer. rewrite transfer_to_test, transfer_from_test.
  case_bool_decide; [done|]. case_bool_decide; [done|]. destruct H. split; [|done].
  by destruct (decide (Transfer.to (params event) = feesPoolAddress)).
Qed.

Lemma handleTransfer_recorded (event : Transfer.t) (s : Store) :
  Transfer.to (params event) = feesPoolAddress →
  Transfer.from (params event) ≠ zeroAddress →
  ∃ tx,
    loadTransaction (toString (ProtocolStats.transactionCounter (currentStats s)))
      (handleTransfer event s) = Some tx
    ∧ Transaction.id tx = toString (ProtocolStats.transactionCounter (currentStats s))
    ∧ Transaction.type tx = "TRANSFER"
    ∧ Transaction.user tx = Transfer.from (params event)
    ∧ Transaction.monAmount tx = 0
    ∧ Transaction.stratAmount tx = Transfer.value (params event)
    ∧ Transaction.fee tx = 0
    ∧ Transaction.timestamp tx = timestamp (block event)
    ∧ Transaction.blockNumber tx = number (block event)
    ∧ Transaction.txHash tx = hash (transaction event).
Proof.
  intros Hto Hfrom. unfold handleTransfer. rewrite transfer_to_test, transfer_from_test.
  rewrite bool_decide_eq_false_2 by (by intros []).
  rewrite bool_decide_eq_false_2 by done.
  rewrite <- (currentStats_rotateTransactions s). unfold currentStats.
  destruct (getOrCreateProtocolStats (rotateTransactions s)) as [stats s1].
  destruct (getOrCreateUser _ s1) as [user s2].
  eexists. split; [store_simpl; apply lookup_insert_eq|]. by repeat split.
Qed.

(** C7. A transfer is recorded exactly when it goes to the fee pool and
    does not come from the zero address: then a TRANSFER record is stored
    under the sequence counter, otherwise the store is returned as it was
    (no entity changes).  When the counter key is free, as it is until the
    counter wraps, a transaction record is new in the result if and only
    if the transfer is of that kind. *)
Theorem transfer_recorded_iff_fee_pool (event : Transfer.t) (s : Store) :
  let recorded :=
    Transfer.to (params event) = feesPoolAddress
    ∧ Transfer.from (params event) ≠ zeroAddress in
  let key := toString (ProtocolStats.transactionCounter (currentStats s)) in
  let s' := handleTransfer event s in
  (recorded →
     ∃ tx, loadTransaction key s' = Some tx
         ∧ Transaction.type tx = "TRANSFER"
         ∧ Transaction.user tx = Transfer.from (params event)
         ∧ Transaction.stratAmount tx = Transfer.value (params event)
         ∧ Transaction.timestamp tx = timestamp (block event)
         ∧ Transaction.txHash tx = hash (transaction event))
  ∧ (¬ recorded → s' = s)
  ∧ (loadTransaction key s = None →
       (∃ k, loadTransaction k s = None ∧ is_Some (loadTransaction k s')) ↔ recorded).
Proof.
  intros recorded key s'. split; [|split].
  - intros [Hto Hfrom].
    destruct (handleTransfer_recorded event s Hto Hfrom)
      as (tx & H & _ & Hty & Hu & _ & Ha & _ & Hts & _ & Hh).
    exists tx. repeat split; assumption.
  - apply handleTransfer_ignored.
  - intros Hfree. split.
    + intros (k & Hnone & Hsome). destruct (decide recorded) as [|Hn]; [assumption|].
      subst s'. rewrite (handleTransfer_ignored event s Hn), Hnone in Hsome.
      by destruct Hsome.
    + intros [Hto Hfrom].
      destruct (handleTransfer_recorded event s Hto Hfrom) as (tx & H & ?).
      exists key. split; [assumption|]. by exists tx.
Qed.

(** One transfer of each kind, on the empty store. *)
Lemma transfer_recorded_iff_fee_pool_witness :
  (∃ tx, loadTransaction "0" (handleTransfer (transferOf 1 alice feesPoolAddress 9) emptyStore)
         = Some tx
       ∧ Transaction.type tx = "TRANSFER")
  ∧ handleTransfer (transferOf 1 zeroAddress feesPoolAddress 9) emptyStore = emptyStore
  ∧ handleTransfer (transferOf 1 alice bob 9) emptyStore = emptyStore.
Proof.
  split; [|split].
  - destruct (transfer_recorded_iff_fee_pool (transferOf 1 alice feesPoolAddress 9) emptyStore)
      as (H & _ & _).
    destruct H as (tx & Htx & Hty & _).
    + split; [reflexivity | vm_compute; discriminate].
    + exists tx. split; assumption.
  - destruct (transfer_recorded_iff_fee_pool (transferOf 1 zeroAddress feesPoolAddress 9)
                emptyStore) as (_ & H & _).
    apply H. intros [_ Hne]. by apply Hne.
  - destruct (transfer_recorded_iff_fee_pool (transferOf 1 alice bob 9) emptyStore)
      as (_ & H & _).
    apply H. intros [Hto _]. vm_compute in Hto. discriminate Hto.
Defined.

(** ** Day-window rotation of lottery prizes *)

Lemma rotateLotteryLoop_eq (n : nat) (i o : Z) (s : Store) :
  rotateLotteryLoop n i o s
  = withLotteryPrizes (λ _, lotteryPrizes (rotateLotteryLoop n i o s)) s.
Proof.
  revert i s. induction n as [|n IH]; intros i s; simpl; [by destruct s|].
  case_match; [by destruct s|].
  rewrite IH. case_match; by destruct s.
Qed.

Lemma rotateLotteryLoop_lookup (n : nat) (i o : Z) (s : Store) (k : string) :
  loadLotteryPrize k (rotateLotteryLoop n i o s) = None
  ∨ loadLotteryPrize k (rotateLotteryLoop n i o s) = loadLotteryPrize k s.
Proof.
  revert i s. induction n as [|n IH]; intros i s; simpl; [by right|].
  case_match; [by right|].
  match goal with |- context [rotateLotteryLoop n _ _ ?s'] =>
    destruct (IH (i + 1) s') as [H'|H']; [by left|]; rewrite H' end.
  case_match; [|by right]. unfold loadLotteryPrize, removeLotteryPrize. store_simpl.
  destruct (decide (toString (o - (i + 1)) +:+ "-lottery" = k)) as [->|Hne].
  - left. apply lookup_delete_eq.
  - right. by apply lookup_delete_ne.
Qed.

Lemma rotateLotteryLoop_removed (n : nat) (i o : Z) (s : Store) (j : Z) :
  i ≤ j < i + Z.of_nat n → 0 ≤ o - (j + 1) →
  loadLotteryPrize (lotteryKey (o - (j + 1))) (rotateLotteryLoop n i o s) = None.
Proof.
  revert i s. induction n as [|n IH]; intros i s Hj Hpos; [lia|].
  simpl. case_match eqn:Hneg; [lia|].
  destruct (decide (j = i)) as [->|Hne].
  - match goal with |- context [rotateLotteryLoop n _ _ ?s'] =>
      destruct (rotateLotteryLoop_lookup n (i + 1) o s' (lotteryKey (o - (i + 1))))
        as [H'|H']; [done|]; rewrite H'; clear H' end.
    unfold lotteryKey. destruct (loadLotteryPrize _ s) eqn:Hload; [|done].
    unfold loadLotteryPrize, removeLotteryPrize. store_simpl. apply lookup_delete_eq.
  - apply IH; lia.
Qed.

Lemma rotateLotteryLoop_kept (n : nat) (i o : Z) (s : Store) (k : string) :
  (∀ j, i ≤ j < i + Z.of_nat n → 0 ≤ o - (j + 1) → k ≠ lotteryKey (o - (j + 1))) →
  loadLotteryPrize k (rotateLotteryLoop n i o s) = loadLotteryPrize k s.
Proof.
  revert i s. induction n as [|n IH]; intros i s Hk; [done|].
  simpl. case_match eqn:Hneg; [done|].
  rewrite IH by (intros j Hj; apply Hk; lia).
  case_match; [|done]. unfold loadLotteryPrize, removeLotteryPrize. store_simpl.
  apply lookup_delete_ne. intros E. apply (Hk i); [lia..|by symmetry].
Qed.

Lemma rotateLotteryPrizes_eq (day : Z) (s : Store) :
  rotateLotteryPrizes day s
  = withLotteryPrizes (λ _, lotteryPrizes (rotateLotteryPrizes day s)) s.
Proof. apply rotateLotteryLoop_eq. Qed.

Lemma rotateLotteryPrizes_lookup (day : Z) (s : Store) (k : string) :
  loadLotteryPrize k (rotateLotteryPrizes day s) = None
  ∨ loadLotteryPrize k (rotateLotteryPrizes day s) = loadLotteryPrize k s.
Proof. apply rotateLotteryLoop_lookup. Qed.

(** The rotation for day [D] removes the records of the hundred days
    [D - 106 .. D - 7] (those that are not negative). *)
Lemma rotateLotteryPrizes_removed (day d : Z) (s : Store) :
  0 ≤ d → day - 106 ≤ d ≤ day - 7 →
  loadLotteryPrize (lotteryKey d) (rotateLotteryPrizes day s) = None.
Proof.
  intros Hd Hr. unfold rotateLotteryPrizes, MAX_PRIZES.
  replace d with (day - (7 - 1) - ((day - 7 - d) + 1)) by lia.
  apply rotateLotteryLoop_removed; lia.
Qed.

(** Every other record stays. *)
Lemma rotateLotteryPrizes_kept (day d : Z) (s : Store) :
  ¬ (0 ≤ d ∧ day - 106 ≤ d ≤ day - 7) →
  loadLotteryPrize (lotteryKey d) (rotateLotteryPrizes day s)
  = loadLotteryPrize (lotteryKey d) s.
Proof.
  intros Hd. unfold rotateLotteryPrizes, MAX_PRIZES.
  apply rotateLotteryLoop_kept. intros j Hj Hpos E%lotteryKey_inj. lia.
Qed.

(** ** Day-window rotation of auction prizes *)

Lemma rotateAuctionLoop_eq (n : nat) (i o : Z) (s : Store) :
  rotateAuctionLoop n i o s
  = withAuctionPrizes (λ _, auctionPrizes (rotateAuctionLoop n i o s)) s.
Proof.
  revert i s. induction n as [|n IH]; intros i s; simpl; [by destruct s|].
  case_match; [by destruct s|].
  rewrite IH. case_match; by destruct s.
Qed.

Lemma rotateAuctionLoop_lookup (n : nat) (i o : Z) (s : Store) (k : string) :
  loadAuctionPrize k (rotateAuctionLoop n i o s) = None
  ∨ loadAuctionPrize k (rotateAuctionLoop n i o s) = loadAuctionPrize k s.
Proof.
  revert i s. induction n as [|n IH]; intros i s; simpl; [by right|].
  case_match; [by right|].
  match goal with |- context [rotateAuctionLoop n _ _ ?s'] =>
    destruct (IH (i + 1) s') as [H'|H']; [by left|]; rewrite H' end.
  case_match; [|by right]. unfold loadAuctionPrize, removeAuctionPrize. store_simpl.
  destruct (decide (toString (o - (i + 1)) +:+ "-auction" = k)) as [->|Hne].
  - left. apply lookup_delete_eq.
  - right. by apply lookup_delete_ne.
Qed.

Lemma rotateAuctionLoop_removed (n : nat) (i o : Z) (s : Store) (j : Z) :
  i ≤ j < i + Z.of_nat n → 0 ≤ o - (j + 1) →
  loadAuctionPrize (auctionKey (o - (j + 1))) (rotateAuctionLoop n i o s) = None.
Proof.
  revert i s. induction n as [|n IH]; intros i s Hj Hpos; [lia|].
  simpl. case_match eqn:Hneg; [lia|].
  destruct (decide (j = i)) as [->|Hne].
  - match goal with |- context [rotateAuctionLoop n _ _ ?s'] =>
      destruct (rotateAuctionLoop_lookup n (i + 1) o s' (auctionKey (o - (i + 1))))
        as [H'|H']; [done|]; rewrite H'; clear H' end.
    unfold auctionKey. destruct (loadAuctionPrize _ s) eqn:Hload; [|done].
    unfold loadAuctionPrize, removeAuctionPrize. store_simpl. apply lookup_delete_eq.
  - apply IH; lia.
Qed.

Lemma rotateAuctionLoop_kept (n : nat) (i o : Z) (s : Store) (k : string) :
  (∀ j, i ≤ j < i + Z.of_nat n → 0 ≤ o - (j + 1) → k ≠ auctionKey (o - (j + 1))) →
  loadAuctionPrize k (rotateAuctionLoop n i o s) = loadAuctionPrize k s.
Proof.
  revert i s. induction n as [|n IH]; intros i s Hk; [done|].
  simpl. case_match eqn:Hneg; [done|].
  rewrite IH by (intros j Hj; apply Hk; lia).
  case_match; [|done]. unfold loadAuctionPrize, removeAuctionPrize. store_simpl.
  apply lookup_delete_ne. intros E. apply (Hk i); [lia..|by symmetry].
Qed.

Lemma rotateAuctionPrizes_eq (day : Z) (s : Store) :
  rotateAuctionPrizes day s
  = withAuctionPrizes (λ _, auctionPrizes (rotateAuctionPrizes day s)) s.
Proof. apply rotateAuctionLoop_eq. Qed.

Lemma rotateAuctionPrizes_lookup (day : Z) (s : Store) (k : string) :
  loadAuctionPrize k (rotateAuctionPrizes day s) = None
  ∨ loadAuctionPrize k (rotateAuctionPrizes day s) = loadAuctionPrize k s.
Proof. apply rotateAuctionLoop_lookup. Qed.

(** The rotation for day [D] removes the records of the hundred days
    [D - 106 .. D - 7] (those that are not negative). *)
Lemma rotateAuctionPrizes_removed (day d : Z) (s : Store) :
  0 ≤ d → day - 106 ≤ d ≤ day - 7 →
  loadAuctionPrize (auctionKey d) (rotateAuctionPrizes day s) = None.
Proof.
  intros Hd Hr. unfold rotateAuctionPrizes, MAX_PRIZES.
  replace d with (day - (7 - 1) - ((day - 7 - d) + 1)) by lia.
  apply rotateAuctionLoop_removed; lia.
Qed.

(** Every other record stays. *)
Lemma rotateAuctionPrizes_kept (day d : Z) (s : Store) :
  ¬ (0 ≤ d ∧ day - 106 ≤ d ≤ day - 7) →
  loadAuctionPrize (auctionKey d) (rotateAuctionPrizes day s)
  = loadAuctionPrize (auctionKey d) s.
Proof.
  intros Hd. unfold rotateAuctionPrizes, MAX_PRIZES.
  apply rotateAuctionLoop_kept. intros j Hj Hpos E%auctionKey_inj. lia.
Qed.

(** ** Lottery wins *)

Lemma handleLotteryWon_lotteryPrizes (event : LotteryWon.t) (s : Store) :
  ∃ userId,
    lotteryPrizes (handleLotteryWon event s)
    = <[lotteryKey (LotteryWon.day (params event)) := lotteryWonRecord event userId]>
        (lotteryPrizes (rotateLotteryPrizes (LotteryWon.day (params event)) s)).
Proof.
  unfold handleLotteryWon.
  destruct (getOrCreateUser _ _) as [user s1] eqn:Hu.
  apply getOrCreateUser_eq in Hu as [-> _].
  destruct (getOrCreateProtocolStats _) as [stats s2] eqn:Hs.
  apply getOrCreateProtocolStats_eq in Hs as [-> _].
  exists (User.id user). store_simpl. reflexivity.
Qed.

Lemma handleLotteryWon_removed (event : LotteryWon.t) (s : Store) (d : Z) :
  0 ≤ d →
  LotteryWon.day (params event) - 106 ≤ d ≤ LotteryWon.day (params event) - 7 →
  loadLotteryPrize (lotteryKey d) (handleLotteryWon event s) = None.
Proof.
  intros Hd Hr. destruct (handleLotteryWon_lotteryPrizes event s) as [uid H].
  rewrite loadLotteryPrize_eq, H, lookup_insert_ne by (apply lotteryKey_ne; lia).
  rewrite <- loadLotteryPrize_eq. by apply rotateLotteryPrizes_removed.
Qed.

Lemma lotteryDaysWithin_handleLotteryWon (P Q : Z → Prop) (event : LotteryWon.t) (s : Store) :
  let day := LotteryWon.day (params event) in
  lotteryDaysWithin P s →
  Q day →
  (∀ d, P d → ¬ (0 ≤ d ∧ day - 106 ≤ d ≤ day - 7) → Q d) →
  lotteryDaysWithin Q (handleLotteryWon event s).
Proof.
  intros day HP HQ Hstep k Hk.
  destruct (handleLotteryWon_lotteryPrizes event s) as [uid H].
  rewrite loadLotteryPrize_eq, H in Hk. fold day in Hk.
  destruct (decide (lotteryKey day = k)) as [<-|Hne].
  { exists day. split; [reflexivity | assumption]. }
  rewrite lookup_insert_ne in Hk by assumption.
  rewrite <- loadLotteryPrize_eq in Hk.
  destruct (rotateLotteryPrizes_lookup day s k) as [E|E].
  { rewrite E in Hk. by destruct Hk. }
  rewrite E in Hk. destruct (HP k Hk) as (d & -> & Hd). exists d. split; [reflexivity|].
  apply Hstep; [assumption|]. intros [Hd0 Hr].
  rewrite <- E, rotateLotteryPrizes_removed in Hk by assumption. by destruct Hk.
Qed.

(** ** Runs of events *)

Lemma processEvents_app (l1 l2 : list ContractEvent) (s : Store) :
  processEvents (l1 ++ l2) s = processEvents l2 (processEvents l1 s).
Proof. apply fold_left_app. Qed.

Lemma processEvents_cons (ev : ContractEvent) (l : list ContractEvent) (s : Store) :
  processEvents (ev :: l) s = processEvents l (dispatch ev s).
Proof. reflexivity. Qed.

Lemma processEvents_snoc (l : list ContractEvent) (ev : ContractEvent) (s : Store) :
  processEvents (l ++ [ev]) s = dispatch ev (processEvents l s).
Proof. by rewrite processEvents_app. Qed.

Lemma processEvents_lotteryWins_cons (e : LotteryWon.t) (l : list LotteryWon.t) (s : Store) :
  processEvents (lotteryWins (e :: l)) s
  = processEvents (lotteryWins l) (handleLotteryWon e s).
Proof.
  unfold lotteryWins. rewrite map_cons. rewrite processEvents_cons. reflexivity.
Qed.

Lemma processEvents_lotteryWins_snoc (l : list LotteryWon.t) (e : LotteryWon.t) (s : Store) :
  processEvents (lotteryWins (l ++ [e])) s
  = handleLotteryWon e (processEvents (lotteryWins l) s).
Proof.
  unfold lotteryWins. rewrite map_app, processEvents_app. reflexivity.
Qed.

Lemma consecutive_and (R1 R2 : Z → Z → Prop) (l : list Z) :
  consecutive R1 l → consecutive R2 l → consecutive (λ a b, R1 a b ∧ R2 a b) l.
Proof.
  induction l as [|a l IH]; [done|]. destruct l as [|b l]; [done|].
  intros [? ?] [? ?]. split; [by split|]. by apply IH.
Qed.

Lemma lotteryDaysWithin_empty (P : Z → Prop) : lotteryDaysWithin P emptyStore.
Proof. intros k [p Hp]. by rewrite loadLotteryPrize_eq in Hp. Qed.

Lemma lotteryDaysWithin_nonneg_run (l : list LotteryWon.t) (s : Store) :
  lotteryDaysWithin (λ d, 0 ≤ d) s →
  Forall (λ d, 0 ≤ d) (map winDay l) →
  lotteryDaysWithin (λ d, 0 ≤ d) (processEvents (lotteryWins l) s).
Proof.
  revert s. induction l as [|e l IH]; intros s Hs Hl; [assumption|].
  apply Forall_cons in Hl as [He Hl].
  rewrite processEvents_lotteryWins_cons. apply IH; [|assumption].
  eapply lotteryDaysWithin_handleLotteryWon; [exact Hs | exact He | auto].
Qed.

Lemma lotteryDaysWithin_window_step (event : LotteryWon.t) (D : Z) (s : Store) :
  lotteryDaysWithin (dayWindow D) s →
  0 ≤ winDay event → D < winDay event ≤ D + 100 →
  lotteryDaysWithin (dayWindow (winDay event)) (handleLotteryWon event s).
Proof.
  intros Hs Hpos Hgap.
  eapply lotteryDaysWithin_handleLotteryWon; [exact Hs | |].
  - unfold dayWindow, winDay in *. lia.
  - unfold dayWindow, winDay in *. intros d Hd Hn. lia.
Qed.

Lemma lotteryDaysWithin_window_run (l : list LotteryWon.t) (D : Z) (s : Store) :
  lotteryDaysWithin (dayWindow D) s →
  consecutive (λ a b, a < b ∧ b ≤ a + 100) (D :: map winDay l) →
  Forall (λ d, 0 ≤ d) (map winDay l) →
  lotteryDaysWithin (dayWindow (List.last (D :: map winDay l) 0))
    (processEvents (lotteryWins l) s).
Proof.
  revert D s. induction l as [|e l IH]; intros D s Hs Hc Hl; [assumption|].
  apply Forall_cons in Hl as [He Hl]. destruct Hc as [[Hlt Hgap] Hc].
  rewrite processEvents_lotteryWins_cons.
  change (List.last (D :: map winDay (e :: l)) 0)
    with (List.last (winDay e :: map winDay l) 0).
  apply IH; [|assumption..].
  apply (lotteryDaysWithin_window_step e D); [assumption|assumption|lia].
Qed.

(** C2, amended.  After a run of lottery wins with non-negative, strictly
    increasing days, ending with the win for day [D]: no record is left
    for any of the hundred days [D - 106 .. D - 7] that the rotation
    scans ([keepFrom = D - 6], scan from [keepFrom - 1] down); and when
    consecutive wins are never more than 100 days apart, none is left for
    any day [≤ D - 7]. *)
Theorem lottery_rotation_window (pre : list LotteryWon.t) (event : LotteryWon.t) :
  let D := winDay event in
  let s := processEvents (lotteryWins (pre ++ [event])) emptyStore in
  Forall (λ d, 0 ≤ d) (map winDay (pre ++ [event])) →
  consecutive Z.lt (map winDay (pre ++ [event])) →
  (∀ d, D - 106 ≤ d ≤ D - 7 → loadLotteryPrize (lotteryKey d) s = None)
  ∧ (consecutive (λ a b, b ≤ a + 100) (map winDay (pre ++ [event])) →
     ∀ d, d ≤ D - 7 → loadLotteryPrize (lotteryKey d) s = None).
Proof.
  intros D s Hpos Hinc. split.
  - intros d Hd. destruct (decide (0 ≤ d)) as [H0|H0].
    + subst s. rewrite processEvents_lotteryWins_snoc.
      by apply handleLotteryWon_removed.
    + apply eq_None_not_Some. intros Hsome.
      destruct (lotteryDaysWithin_nonneg_run (pre ++ [event])%list emptyStore
                  (lotteryDaysWithin_empty _) Hpos _ Hsome) as (d' & E & Hd').
      apply lotteryKey_inj in E. lia.
  - intros Hgap d Hd. apply eq_None_not_Some. intros Hsome.
    pose proof (consecutive_and _ _ _ Hinc Hgap) as Hc.
    assert (List.last (map winDay (pre ++ [event])) 0 = D) as Hlast.
    { rewrite map_app. apply List.last_last. }
    subst s. destruct (pre ++ [event])%list as [|e0 rest] eqn:El.
    { by destruct pre. }
    apply Forall_cons in Hpos as [Hpos0 Hpos].
    assert (lotteryDaysWithin (dayWindow (winDay e0)) (handleLotteryWon e0 emptyStore))
      as H0.
    { eapply lotteryDaysWithin_handleLotteryWon;
        [apply (lotteryDaysWithin_empty (λ _, False)) | | intros ? []].
      unfold dayWindow, winDay in *. lia. }
    pose proof (lotteryDaysWithin_window_run rest (winDay e0) _ H0 Hc Hpos) as Hrun.
    rewrite <- processEvents_lotteryWins_cons in Hrun.
    change (map winDay (e0 :: rest)) with (winDay e0 :: map winDay rest) in Hlast.
    rewrite Hlast in Hrun.
    destruct (Hrun _ Hsome) as (d' & E & Hd'). apply lotteryKey_inj in E.
    unfold dayWindow in Hd'. lia.
Qed.

(** Counterexample to C2 as stated: a win for day 0 followed by a win for
    day 107; the scan for day 107 covers days 100 down to 1, so the
    record of day 0 stays although [0 ≤ 107 - 7]. *)
Lemma lottery_rotation_window_counterexample : ¬ lotteryWindowAsStated.
Proof.
  intros H.
  specialize (H [lotteryWonOn 0 alice 5] (lotteryWonOn 107 alice 5)).
  assert (consecutive Z.lt (map winDay ([lotteryWonOn 0 alice 5] ++ [lotteryWonOn 107 alice 5])))
    as Hinc by (vm_compute; auto).
  specialize (H Hinc 0 ltac:(vm_compute; discriminate)).
  vm_compute in H. discriminate H.
Qed.

(** Wins for day 0 and day 7: the record of day 0 is gone. *)
Lemma lottery_rotation_window_witness :
  loadLotteryPrize (lotteryKey 0)
    (processEvents (lotteryWins ([lotteryWonOn 0 alice 5] ++ [lotteryWonOn 7 bob 5]))
       emptyStore) = None
  ∧ loadLotteryPrize (lotteryKey (-1))
      (processEvents (lotteryWins ([lotteryWonOn 0 alice 5] ++ [lotteryWonOn 7 bob 5]))
         emptyStore) = None.
Proof.
  destruct (lottery_rotation_window [lotteryWonOn 0 alice 5] (lotteryWonOn 7 bob 5))
    as [H1 H2].
  - repeat constructor; vm_compute; discriminate.
  - vm_compute. auto.
  - split.
    + apply (H1 0). vm_compute. split; discriminate.
    + apply (H2 ltac:(vm_compute; split; [discriminate | exact I]) (-1)).
      vm_compute. discriminate.
Defined.

(** ** Well-formed stores: every entity sits under its own id *)

Lemma idsMatch_insert {E} (id : E → string) (e : E) (m : gmap string E) :
  idsMatch id m → idsMatch id (<[id e := e]> m).
Proof. intros H. by apply map_Forall_insert_2. Qed.

Lemma idsMatch_delete {E} (id : E → string) (k : string) (m : gmap string E) :
  idsMatch id m → idsMatch id (delete k m).
Proof. apply map_Forall_delete. Qed.

Lemma map_Forall_shrink {E} (P : string → E → Prop) (m m' : gmap string E) :
  (∀ k, m' !! k = None ∨ m' !! k = m !! k) → map_Forall P m → map_Forall P m'.
Proof.
  intros Hsub Hm k e Hk. destruct (Hsub k) as [H|H]; rewrite H in Hk; [done|].
  by apply Hm.
Qed.

Lemma wfStore_empty : wfStore emptyStore.
Proof. split; apply map_Forall_empty. Qed.

Lemma wfStore_saveUser (u : User.t) (s : Store) : wfStore s → wfStore (saveUser u s).
Proof. intros []. split; store_simpl; try assumption. by apply idsMatch_insert. Qed.

Lemma wfStore_saveProtocolStats (p : ProtocolStats.t) (s : Store) :
  wfStore s → wfStore (saveProtocolStats p s).
Proof. intros []. split; store_simpl; try assumption. by apply idsMatch_insert. Qed.

Lemma wfStore_saveTransaction (t : Transaction.t) (s : Store) :
  wfStore s → wfStore (saveTransaction t s).
Proof. intros []. split; store_simpl; try assumption. by apply idsMatch_insert. Qed.

Lemma wfStore_saveLotteryPrize (p : LotteryPrize.t) (s : Store) :
  wfStore s → wfStore (saveLotteryPrize p s).
Proof. intros []. split; store_simpl; try assumption. by apply idsMatch_insert. Qed.

Lemma wfStore_saveAuctionPrize (p : AuctionPrize.t) (s : Store) :
  wfStore s → wfStore (saveAuctionPrize p s).
Proof. intros []. split; store_simpl; try assumption. by apply idsMatch_insert. Qed.

Lemma wfStore_saveBid (b : Bid.t) (s : Store) : wfStore s → wfStore (saveBid b s).
Proof. intros []. split; store_simpl; try assumption. by apply idsMatch_insert. Qed.

Lemma wfStore_removeTransaction (k : string) (s : Store) :
  wfStore s → wfStore (removeTransaction k s).
Proof. intros []. split; store_simpl; try assumption. by apply idsMatch_delete. Qed.

Lemma wfStore_removeLotteryPrize (k : string) (s : Store) :
  wfStore s → wfStore (removeLotteryPrize k s).
Proof. intros []. split; store_simpl; try assumption. by apply idsMatch_delete. Qed.

Lemma wfStore_removeAuctionPrize (k : string) (s : Store) :
  wfStore s → wfStore (removeAuctionPrize k s).
Proof. intros []. split; store_simpl; try assumption. by apply idsMatch_delete. Qed.

Lemma wfStore_getOrCreateUser (address : Bytes) (s s1 : Store) (user : User.t) :
  wfStore s → getOrCreateUser address s = (user, s1) →
  wfStore s1 ∧ User.id user = toHexString address.
Proof.
  intros Hwf. unfold getOrCreateUser.
  destruct (loadUser _ s) as [u|] eqn:E; intros [= <- <-].
  - split; [assumption|]. rewrite loadUser_eq in E. by apply (wf_users s Hwf _ _ E).
  - split; [|reflexivity]. by apply wfStore_saveUser.
Qed.

Lemma wfStore_getOrCreateProtocolStats (s s1 : Store) (stats : ProtocolStats.t) :
  wfStore s → getOrCreateProtocolStats s = (stats, s1) →
  wfStore s1 ∧ ProtocolStats.id stats = PROTOCOL_STATS_ID.
Proof.
  intros Hwf. unfold getOrCreateProtocolStats.
  destruct (loadProtocolStats _ s) as [u|] eqn:E; intros [= <- <-].
  - split; [assumption|]. rewrite loadProtocolStats_eq in E.
    by apply (wf_protocolStats s Hwf _ _ E).
  - split; [|reflexivity]. by apply wfStore_saveProtocolStats.
Qed.

Lemma wfStore_removeAll (l : list Transaction.t) (s : Store) :
  wfStore s →
  wfStore (fold_left (λ s tx, removeTransaction (Transaction.id tx) s) l s).
Proof.
  revert s. induction l as [|tx l IH]; intros s Hwf; [assumption|].
  simpl. apply IH. by apply wfStore_removeTransaction.
Qed.

Lemma wfStore_rotateTransactions (s : Store) : wfStore s → wfStore (rotateTransactions s).
Proof.
  intros Hwf. unfold rotateTransactions. case_match; [|assumption].
  by apply wfStore_removeAll.
Qed.

Lemma wfStore_rotateLotteryLoop (n : nat) (i o : Z) (s : Store) :
  wfStore s → wfStore (rotateLotteryLoop n i o s).
Proof.
  revert i s. induction n as [|n IH]; intros i s Hwf; [assumption|].
  cbn [rotateLotteryLoop]. case_match; [assumption|]. apply IH.
  case_match; [|assumption]. by apply wfStore_removeLotteryPrize.
Qed.

Lemma wfStore_rotateAuctionLoop (n : nat) (i o : Z) (s : Store) :
  wfStore s → wfStore (rotateAuctionLoop n i o s).
Proof.
  revert i s. induction n as [|n IH]; intros i s Hwf; [assumption|].
  cbn [rotateAuctionLoop]. case_match; [assumption|]. apply IH.
  case_match; [|assumption]. by apply wfStore_removeAuctionPrize.
Qed.

(** ** The bounded scans of the claim and expiry handlers *)

Lemma scanFirst_None {E} (load : Z → option E) (matches : E → bool) (n : nat) (i : Z) :
  scanFirst load matches n i = None →
  ∀ j e, i ≤ j < i + Z.of_nat n → load j = Some e → matches e = false.
Proof.
  revert i. induction n as [|n IH]; intros i H j e Hj He; [lia|].
  cbn [scanFirst] in H. destruct (decide (j = i)) as [->|Hne].
  - rewrite He in H. by destruct (matches e).
  - apply (IH (i + 1)) with j; [|lia|assumption].
    destruct (load i) as [e'|]; [|assumption]. by destruct (matches e').
Qed.

Lemma scanFirst_None_intro {E} (load : Z → option E) (matches : E → bool) (n : nat) (i : Z) :
  (∀ j e, i ≤ j < i + Z.of_nat n → load j = Some e → matches e = false) →
  scanFirst load matches n i = None.
Proof.
  revert i. induction n as [|n IH]; intros i H; [reflexivity|].
  cbn [scanFirst].
  assert (scanFirst load matches n (i + 1) = None) as Hrec
    by (apply IH; intros j e Hj; apply H; lia).
  destruct (load i) as [e|] eqn:El; [|assumption].
  rewrite (H i e) by (assumption || lia). assumption.
Qed.

Lemma scanFirst_Some {E} (load : Z → option E) (matches : E → bool) (n : nat) (i j : Z) (e : E) :
  scanFirst load matches n i = Some (j, e) →
  i ≤ j < i + Z.of_nat n ∧ load j = Some e ∧ matches e = true
  ∧ ∀ j' e', i ≤ j' < j → load j' = Some e' → matches e' = false.
Proof.
  revert i. induction n as [|n IH]; intros i H; [discriminate|].
  cbn [scanFirst] in H.
  assert (scanFirst load matches n (i + 1) = Some (j, e) →
          i ≤ j < i + Z.of_nat (S n) ∧ load j = Some e ∧ matches e = true
          ∧ ∀ j' e', i ≤ j' < j → load j' = Some e' → matches e' = false) as Hrec.
  { intros Hr. destruct (IH _ Hr) as (Hj & Hl & Hm & Hbefore).
    repeat split; [lia..|assumption|assumption|].
    intros j' e' Hj' He'. destruct (decide (j' = i)) as [->|Hne].
    - rewrite He' in H. destruct (matches e') eqn:Em; [|reflexivity].
      injection H as -> ->. lia.
    - apply (Hbefore j'); [lia | assumption]. }
  destruct (load i) as [e0|] eqn:El; [|by apply Hrec].
  destruct (matches e0) eqn:Em; [|by apply Hrec].
  injection H as <- <-. repeat split; [lia..|assumption|assumption|]. intros; lia.
Qed.

Lemma claimLotteryLoop_scan (n : nat) (i : Z) (event : PrizeClaimed.t) (s : Store) :
  claimLotteryLoop n i event s
  = match scanFirst (λ j, loadLotteryPrize (lotteryKey j) s)
            (lotteryMatchesClaim (PrizeClaimed.winner (params event))
               (PrizeClaimed.amount (params event))) n i with
    | Some (_, lottery) => (true, markLotteryClaimed event lottery s)
    | None => (false, s)
    end.
Proof.
  revert i. induction n as [|n IH]; intros i; [reflexivity|].
  cbn [claimLotteryLoop scanFirst]. change (toString i +:+ "-lottery") with (lotteryKey i).
  destruct (loadLotteryPrize (lotteryKey i) s) as [p|]; [|apply IH].
  case_match; [reflexivity | apply IH].
Qed.

Lemma claimAuctionLoop_scan (n : nat) (i : Z) (event : PrizeClaimed.t) (s : Store) :
  claimAuctionLoop n i event s
  = match scanFirst (λ j, loadAuctionPrize (auctionKey j) s)
            (auctionMatchesClaim (PrizeClaimed.winner (params event))
               (PrizeClaimed.amount (params event))) n i with
    | Some (_, auction) => markAuctionClaimed event auction s
    | None => s
    end.
Proof.
  revert i. induction n as [|n IH]; intros i; [reflexivity|].
  cbn [claimAuctionLoop scanFirst]. change (toString i +:+ "-auction") with (auctionKey i).
  destruct (loadAuctionPrize (auctionKey i) s) as [p|]; [|apply IH].
  case_match; [reflexivity | apply IH].
Qed.

Lemma expireLotteryLoop_scan (n : nat) (i : Z) (event : BeneficiaryFunded.t) (s : Store) :
  expireLotteryLoop n i event s
  = match scanFirst (λ j, loadLotteryPrize (lotteryKey j) s)
            (lotteryMatchesExpiry (BeneficiaryFunded.previousWinner (params event))) n i with
    | Some (_, lottery) => (true, markLotteryExpired event lottery s)
    | None => (false, s)
    end.
Proof.
  revert i. induction n as [|n IH]; intros i; [reflexivity|].
  cbn [expireLotteryLoop scanFirst]. change (toString i +:+ "-lottery") with (lotteryKey i).
  destruct (loadLotteryPrize (lotteryKey i) s) as [p|]; [|apply IH].
  case_match; [reflexivity | apply IH].
Qed.

Lemma expireAuctionLoop_scan (n : nat) (i : Z) (event : BeneficiaryFunded.t) (s : Store) :
  expireAuctionLoop n i event s
  = match scanFirst (λ j, loadAuctionPrize (auctionKey j) s)
            (auctionMatchesExpiry (BeneficiaryFunded.previousWinner (params event))) n i with
    | Some (_, auction) => markAuctionExpired event auction s
    | None => s
    end.
Proof.
  revert i. induction n as [|n IH]; intros i; [reflexivity|].
  cbn [expireAuctionLoop scanFirst]. change (toString i +:+ "-auction") with (auctionKey i).
  destruct (loadAuctionPrize (auctionKey i) s) as [p|]; [|apply IH].
  case_match; [reflexivity | apply IH].
Qed.

Lemma handlePrizeClaimed_scan (event : PrizeClaimed.t) (s : Store) :
  handlePrizeClaimed event s
  = match scanLottery (lotteryMatchesClaim (PrizeClaimed.winner (params event))
                         (PrizeClaimed.amount (params event))) s with
    | Some (_, lottery) => markLotteryClaimed event lottery s
    | None =>
        match scanAuction (auctionMatchesClaim (PrizeClaimed.winner (params event))
                             (PrizeClaimed.amount (params event))) s with
        | Some (_, auction) => markAuctionClaimed event auction s
        | None => s
        end
    end.
Proof.
  unfold handlePrizeClaimed, scanLottery, scanAuction.
  rewrite claimLotteryLoop_scan.
  destruct (scanFirst _ _ 30 0) as [[j p]|]; [reflexivity|].
  cbn [negb]. apply claimAuctionLoop_scan.
Qed.

Lemma handleBeneficiaryFunded_scan (event : BeneficiaryFunded.t) (s : Store) :
  handleBeneficiaryFunded event s
  = match scanLottery (lotteryMatchesExpiry
                         (BeneficiaryFunded.previousWinner (params event))) s with
    | Some (_, lottery) => markLotteryExpired event lottery s
    | None =>
        match scanAuction (auctionMatchesExpiry
                             (BeneficiaryFunded.previousWinner (params event))) s with
        | Some (_, auction) => markAuctionExpired event auction s
        | None => s
        end
    end.
Proof.
  unfold handleBeneficiaryFunded, scanLottery, scanAuction.
  rewrite expireLotteryLoop_scan.
  destruct (scanFirst _ _ 30 0) as [[j p]|]; [reflexivity|].
  cbn [negb]. apply expireAuctionLoop_scan.
Qed.

(** ** Every handler keeps the store well-formed *)

Ltac wf_step :=
  match goal with
  | |- wfStore (let '(_, _) := getOrCreateUser ?a ?s in _) =>
      let E := fresh "E" in
      let Hwf := fresh "Hwf" in
      let Hid := fresh "Hid" in
      destruct (getOrCreateUser a s) eqn:E;
      apply wfStore_getOrCreateUser in E as [Hwf Hid]
  | |- wfStore (let '(_, _) := getOrCreateProtocolStats ?s in _) =>
      let E := fresh "E" in
      let Hwf := fresh "Hwf" in
      let Hid := fresh "Hid" in
      destruct (getOrCreateProtocolStats s) eqn:E;
      apply wfStore_getOrCreateProtocolStats in E as [Hwf Hid]
  | |- wfStore (saveUser _ _) => apply wfStore_saveUser
  | |- wfStore (saveProtocolStats _ _) => apply wfStore_saveProtocolStats
  | |- wfStore (saveTransaction _ _) => apply wfStore_saveTransaction
  | |- wfStore (saveLotteryPrize _ _) => apply wfStore_saveLotteryPrize
  | |- wfStore (saveAuctionPrize _ _) => apply wfStore_saveAuctionPrize
  | |- wfStore (saveBid _ _) => apply wfStore_saveBid
  | |- wfStore (rotateTransactions _) => apply wfStore_rotateTransactions
  | |- wfStore (rotateLotteryPrizes _ _) => apply wfStore_rotateLotteryLoop
  | |- wfStore (rotateAuctionPrizes _ _) => apply wfStore_rotateAuctionLoop
  | |- wfStore (match ?x with Some _ => _ | None => _ end) => destruct x
  | |- wfStore (if ?b then _ else _) => destruct b
  | |- wfStore _ => assumption
  end.

Ltac wf_walk := cbv zeta; repeat wf_step.

Lemma wfStore_markLotteryClaimed (event : PrizeClaimed.t) (p : LotteryPrize.t) (s : Store) :
  wfStore s → wfStore (markLotteryClaimed event p s).
Proof. intros Hs. unfold markLotteryClaimed. wf_walk. Qed.

Lemma wfStore_markAuctionClaimed (event : PrizeClaimed.t) (p : AuctionPrize.t) (s : Store) :
  wfStore s → wfStore (markAuctionClaimed event p s).
Proof. intros Hs. unfold markAuctionClaimed. wf_walk. Qed.

Lemma wfStore_markLotteryExpired (event : BeneficiaryFunded.t) (p : LotteryPrize.t) (s : Store) :
  wfStore s → wfStore (markLotteryExpired event p s).
Proof. intros Hs. unfold markLotteryExpired. wf_walk. Qed.

Lemma wfStore_markAuctionExpired (event : BeneficiaryFunded.t) (p : AuctionPrize.t) (s : Store) :
  wfStore s → wfStore (markAuctionExpired event p s).
Proof. intros Hs. unfold markAuctionExpired. wf_walk. Qed.

Lemma wfStore_handleLotteryWon (event : LotteryWon.t) (s : Store) :
  wfStore s → wfStore (handleLotteryWon event s).
Proof. intros Hs. unfold handleLotteryWon. wf_walk. Qed.

Lemma wfStore_handleAuctionWon (event : AuctionWon.t) (s : Store) :
  wfStore s → wfStore (handleAuctionWon event s).
Proof. intros Hs. unfold handleAuctionWon. wf_walk. Qed.

Lemma wfStore_handlePrizeClaimed (event : PrizeClaimed.t) (s : Store) :
  wfStore s → wfStore (handlePrizeClaimed event s).
Proof.
  intros Hs. rewrite handlePrizeClaimed_scan.
  destruct (scanLottery _ s) as [[j p]|]; [by apply wfStore_markLotteryClaimed|].
  destruct (scanAuction _ s) as [[j p]|]; [by apply wfStore_markAuctionClaimed|].
  assumption.
Qed.

Lemma wfStore_handleBeneficiaryFunded (event : BeneficiaryFunded.t) (s : Store) :
  wfStore s → wfStore (handleBeneficiaryFunded event s).
Proof.
  intros Hs. rewrite handleBeneficiaryFunded_scan.
  destruct (scanLottery _ s) as [[j p]|]; [by apply wfStore_markLotteryExpired|].
  destruct (scanAuction _ s) as [[j p]|]; [by apply wfStore_markAuctionExpired|].
  assumption.
Qed.

Lemma wfStore_handleAuctionStarted (event : AuctionStarted.t) (s : Store) :
  wfStore s → wfStore (handleAuctionStarted event s).
Proof. intros Hs. unfold handleAuctionStarted. wf_walk. Qed.

Lemma wfStore_handleBidPlaced (event : BidPlaced.t) (s : Store) :
  wfStore s → wfStore (handleBidPlaced event s).
Proof. intros Hs. unfold handleBidPlaced. wf_walk. Qed.

Lemma wfStore_handleMinted (event : Minted.t) (s : Store) :
  wfStore s → wfStore (handleMinted event s).
Proof. intros Hs. unfold handleMinted. wf_walk. Qed.

Lemma wfStore_handleRedeemed (event : Redeemed.t) (s : Store) :
  wfStore s → wfStore (handleRedeemed event s).
Proof. intros Hs. unfold handleRedeemed. wf_walk. Qed.

Lemma wfStore_handleTransfer (event : Transfer.t) (s : Store) :
  wfStore s → wfStore (handleTransfer event s).
Proof. intros Hs. unfold handleTransfer. wf_walk. Qed.

Lemma wfStore_dispatch (ev : ContractEvent) (s : Store) :
  wfStore s → wfStore (dispatch ev s).
Proof.
  destruct ev; cbn [dispatch];
    auto using wfStore_handleLotteryWon, wfStore_handleAuctionWon,
      wfStore_handlePrizeClaimed, wfStore_handleBeneficiaryFunded,
      wfStore_handleAuctionStarted, wfStore_handleBidPlaced, wfStore_handleMinted,
      wfStore_handleRedeemed, wfStore_handleTransfer.
Qed.

Lemma wfStore_processEvents (evs : list ContractEvent) (s : Store) :
  wfStore s → wfStore (processEvents evs s).
Proof.
  revert s. induction evs as [|ev evs IH]; intros s Hs; [assumption|].
  rewrite processEvents_cons. by apply IH, wfStore_dispatch.
Qed.

(** ** What each handler does to the two prize tables *)

Ltac open_getOrCreate :=
  cbv zeta;
  repeat match goal with
  | |- context [getOrCreateUser ?a ?s] =>
      let E := fresh "E" in
      destruct (getOrCreateUser a s) as [? ?] eqn:E;
      apply getOrCreateUser_eq in E as [-> _]
  | |- context [getOrCreateProtocolStats ?s] =>
      let E := fresh "E" in
      destruct (getOrCreateProtocolStats s) as [? ?] eqn:E;
      apply getOrCreateProtocolStats_eq in E as [-> _]
  end.

Ltac frame :=
  open_getOrCreate; store_simpl;
  rewrite ?rotateTransactions_lotteryPrizes, ?rotateTransactions_auctionPrizes;
  try reflexivity.

Lemma rotateLotteryPrizes_auctionPrizes (day : Z) (s : Store) :
  auctionPrizes (rotateLotteryPrizes day s) = auctionPrizes s.
Proof. by rewrite rotateLotteryPrizes_eq. Qed.

Lemma rotateAuctionPrizes_lotteryPrizes (day : Z) (s : Store) :
  lotteryPrizes (rotateAuctionPrizes day s) = lotteryPrizes s.
Proof. by rewrite rotateAuctionPrizes_eq. Qed.

Lemma handleLotteryWon_auctionPrizes (event : LotteryWon.t) (s : Store) :
  auctionPrizes (handleLotteryWon event s) = auctionPrizes s.
Proof. unfold handleLotteryWon. frame. apply rotateLotteryPrizes_auctionPrizes. Qed.

Lemma handleAuctionWon_auctionPrizes (event : AuctionWon.t) (s : Store) :
  ∃ userId,
    auctionPrizes (handleAuctionWon event s)
    = <[auctionKey (AuctionWon.day (params event)) := auctionWonRecord event userId]>
        (auctionPrizes (rotateAuctionPrizes (AuctionWon.day (params event)) s)).
Proof.
  unfold handleAuctionWon. open_getOrCreate.
  match goal with u : User.t |- _ => exists (User.id u) end. store_simpl. reflexivity.
Qed.

Lemma handleAuctionWon_lotteryPrizes (event : AuctionWon.t) (s : Store) :
  lotteryPrizes (handleAuctionWon event s) = lotteryPrizes s.
Proof. unfold handleAuctionWon. frame. apply rotateAuctionPrizes_lotteryPrizes. Qed.

Lemma markLotteryClaimed_lotteryPrizes (event : PrizeClaimed.t) (p : LotteryPrize.t) (s : Store) :
  lotteryPrizes (markLotteryClaimed event p s)
  = <[LotteryPrize.id p := claimedLottery event p]> (lotteryPrizes s).
Proof. unfold markLotteryClaimed. frame. Qed.

Lemma markLotteryClaimed_auctionPrizes (event : PrizeClaimed.t) (p : LotteryPrize.t) (s : Store) :
  auctionPrizes (markLotteryClaimed event p s) = auctionPrizes s.
Proof. unfold markLotteryClaimed. frame. Qed.

Lemma markAuctionClaimed_auctionPrizes (event : PrizeClaimed.t) (p : AuctionPrize.t) (s : Store) :
  auctionPrizes (markAuctionClaimed event p s)
  = <[AuctionPrize.id p := claimedAuction event p]> (auctionPrizes s).
Proof. unfold markAuctionClaimed. frame. Qed.

Lemma markAuctionClaimed_lotteryPrizes (event : PrizeClaimed.t) (p : AuctionPrize.t) (s : Store) :
  lotteryPrizes (markAuctionClaimed event p s) = lotteryPrizes s.
Proof. unfold markAuctionClaimed. frame. Qed.

Lemma markLotteryExpired_lotteryPrizes (event : BeneficiaryFunded.t) (p : LotteryPrize.t) (s : Store) :
  lotteryPrizes (markLotteryExpired event p s)
  = <[LotteryPrize.id p := expiredLottery event p]> (lotteryPrizes s).
Proof. unfold markLotteryExpired. frame. Qed.

Lemma markLotteryExpired_auctionPrizes (event : BeneficiaryFunded.t) (p : LotteryPrize.t) (s : Store) :
  auctionPrizes (markLotteryExpired event p s) = auctionPrizes s.
Proof. unfold markLotteryExpired. frame. Qed.

Lemma markAuctionExpired_auctionPrizes (event : BeneficiaryFunded.t) (p : AuctionPrize.t) (s : Store) :
  auctionPrizes (markAuctionExpired event p s)
  = <[AuctionPrize.id p := expiredAuction event p]> (auctionPrizes s).
Proof. unfold markAuctionExpired. frame. Qed.

Lemma markAuctionExpired_lotteryPrizes (event : BeneficiaryFunded.t) (p : AuctionPrize.t) (s : Store) :
  lotteryPrizes (markAuctionExpired event p s) = lotteryPrizes s.
Proof. unfold markAuctionExpired. frame. Qed.

Lemma handleAuctionStarted_lotteryPrizes (event : AuctionStarted.t) (s : Store) :
  lotteryPrizes (handleAuctionStarted event s) = lotteryPrizes s.
Proof. unfold handleAuctionStarted. cbv zeta. case_match; frame. Qed.

Lemma handleBidPlaced_lotteryPrizes (event : BidPlaced.t) (s : Store) :
  lotteryPrizes (handleBidPlaced event s) = lotteryPrizes s.
Proof. unfold handleBidPlaced. cbv zeta. case_match; frame. Qed.

Lemma handleMinted_lotteryPrizes (event : Minted.t) (s : Store) :
  lotteryPrizes (handleMinted event s) = lotteryPrizes s.
Proof. unfold handleMinted. frame. Qed.

Lemma handleMinted_auctionPrizes (event : Minted.t) (s : Store) :
  auctionPrizes (handleMinted event s) = auctionPrizes s.
Proof. unfold handleMinted. frame. Qed.

Lemma handleRedeemed_lotteryPrizes (event : Redeemed.t) (s : Store) :
  lotteryPrizes (handleRedeemed event s) = lotteryPrizes s.
Proof. unfold handleRedeemed. frame. Qed.

Lemma handleRedeemed_auctionPrizes (event : Redeemed.t) (s : Store) :
  auctionPrizes (handleRedeemed event s) = auctionPrizes s.
Proof. unfold handleRedeemed. frame. Qed.

Lemma handleTransfer_lotteryPrizes (event : Transfer.t) (s : Store) :
  lotteryPrizes (handleTransfer event s) = lotteryPrizes s.
Proof.
  unfold handleTransfer. do 2 (destruct (bool_decide _); [reflexivity|]). frame.
Qed.

Lemma handleTransfer_auctionPrizes (event : Transfer.t) (s : Store) :
  auctionPrizes (handleTransfer event s) = auctionPrizes s.
Proof.
  unfold handleTransfer. do 2 (destruct (bool_decide _); [reflexivity|]). frame.
Qed.

Lemma handleAuctionStarted_auctionPrizes (event : AuctionStarted.t) (s : Store) :
  auctionPrizes (handleAuctionStarted event s)
  = match loadAuctionPrize (auctionKey (AuctionStarted.day (params event))) s with
    | Some _ => auctionPrizes s
    | None => <[auctionKey (AuctionStarted.day (params event)) := auctionPlaceholder event]>
                (auctionPrizes s)
    end.
Proof.
  unfold handleAuctionStarted. cbv zeta.
  change (toString (AuctionStarted.day (params event)) +:+ "-auction")
    with (auctionKey (AuctionStarted.day (params event))).
  destruct (loadAuctionPrize _ s); [reflexivity|]. store_simpl. reflexivity.
Qed.

Lemma handleBidPlaced_auctionPrizes (event : BidPlaced.t) (s : Store) :
  auctionPrizes (handleBidPlaced event s)
  = match loadAuctionPrize (auctionKey (BidPlaced.day (params event))) s with
    | Some auction =>
        <[AuctionPrize.id auction :=
            AuctionPrize.set_bidCount (wrap32 (AuctionPrize.bidCount auction + 1)) auction]>
          (auctionPrizes s)
    | None => auctionPrizes s
    end.
Proof.
  unfold handleBidPlaced. cbv zeta.
  change (toString (BidPlaced.day (params event)) +:+ "-auction")
    with (auctionKey (BidPlaced.day (params event))).
  destruct (loadAuctionPrize _ s); store_simpl; reflexivity.
Qed.

(** ** Claimed and expired flags *)

Lemma lotteryMatchesClaim_true (w : Bytes) (a : Z) (p : LotteryPrize.t) :
  lotteryMatchesClaim w a p = true ↔
  LotteryPrize.winner p = w ∧ LotteryPrize.amount p = a
  ∧ LotteryPrize.claimed p = false ∧ LotteryPrize.expired p = false.
Proof.
  unfold lotteryMatchesClaim.
  rewrite !andb_true_iff, !negb_true_iff, bool_decide_eq_true, Z.eqb_eq. tauto.
Qed.

Lemma auctionMatchesClaim_true (w : Bytes) (a : Z) (p : AuctionPrize.t) :
  auctionMatchesClaim w a p = true ↔
  AuctionPrize.winner p = w ∧ AuctionPrize.stratAmount p = a
  ∧ AuctionPrize.claimed p = false ∧ AuctionPrize.expired p = false.
Proof.
  unfold auctionMatchesClaim.
  rewrite !andb_true_iff, !negb_true_iff, bool_decide_eq_true, Z.eqb_eq. tauto.
Qed.

Lemma lotteryMatchesExpiry_true (w : Bytes) (p : LotteryPrize.t) :
  lotteryMatchesExpiry w p = true ↔
  LotteryPrize.winner p = w
  ∧ LotteryPrize.claimed p = false ∧ LotteryPrize.expired p = false.
Proof.
  unfold lotteryMatchesExpiry.
  rewrite !andb_true_iff, !negb_true_iff, bool_decide_eq_true. tauto.
Qed.

Lemma auctionMatchesExpiry_true (w : Bytes) (p : AuctionPrize.t) :
  auctionMatchesExpiry w p = true ↔
  AuctionPrize.winner p = w
  ∧ AuctionPrize.claimed p = false ∧ AuctionPrize.expired p = false.
Proof.
  unfold auctionMatchesExpiry.
  rewrite !andb_true_iff, !negb_true_iff, bool_decide_eq_true. tauto.
Qed.

Lemma prizeInv_empty : prizeInv emptyStore.
Proof. split; apply map_Forall_empty. Qed.

Lemma lotteryOk_rotate (day : Z) (s : Store) :
  map_Forall lotteryOk (lotteryPrizes s) →
  map_Forall lotteryOk (lotteryPrizes (rotateLotteryPrizes day s)).
Proof.
  apply map_Forall_shrink. intros k.
  rewrite <- !loadLotteryPrize_eq. apply rotateLotteryPrizes_lookup.
Qed.

Lemma auctionOk_rotate (day : Z) (s : Store) :
  map_Forall auctionOk (auctionPrizes s) →
  map_Forall auctionOk (auctionPrizes (rotateAuctionPrizes day s)).
Proof.
  apply map_Forall_shrink. intros k.
  rewrite <- !loadAuctionPrize_eq. apply rotateAuctionPrizes_lookup.
Qed.

Lemma prizeInv_handleLotteryWon (event : LotteryWon.t) (s : Store) :
  prizeInv s → prizeInv (handleLotteryWon event s).
Proof.
  intros [HL HA]. split.
  - destruct (handleLotteryWon_lotteryPrizes event s) as [uid ->].
    apply map_Forall_insert_2; [|by apply lotteryOk_rotate].
    split; [reflexivity|]. cbn. split; [intros [? ?]; discriminate | auto].
  - by rewrite handleLotteryWon_auctionPrizes.
Qed.

Lemma prizeInv_handleAuctionWon (event : AuctionWon.t) (s : Store) :
  prizeInv s → prizeInv (handleAuctionWon event s).
Proof.
  intros [HL HA]. split.
  - by rewrite handleAuctionWon_lotteryPrizes.
  - destruct (handleAuctionWon_auctionPrizes event s) as [uid ->].
    apply map_Forall_insert_2; [|by apply auctionOk_rotate].
    split; [reflexivity|]. cbn. split; [intros [? ?]; discriminate | auto].
Qed.

(** A lottery record the scan can reach is for a day below 30 and sits
    under its own id. *)
Lemma scanLottery_found (matches : LotteryPrize.t → bool) (s : Store) (j : Z) (p : LotteryPrize.t) :
  wfStore s → prizeInv s → scanLottery matches s = Some (j, p) →
  0 ≤ j < 30 ∧ LotteryPrize.id p = lotteryKey j ∧ LotteryPrize.day p = j
  ∧ lotteryOk (lotteryKey j) p ∧ matches p = true.
Proof.
  intros Hwf [HL _] (Hj & Hload & Hm & _)%scanFirst_Some.
  rewrite loadLotteryPrize_eq in Hload.
  pose proof (HL _ _ Hload) as Hok. pose proof (wf_lotteryPrizes s Hwf _ _ Hload) as Hid.
  pose proof Hok as (Hkey & _). apply lotteryKey_inj in Hkey.
  split; [lia|]. split; [exact Hid|]. split; [by symmetry|]. by split.
Qed.

Lemma scanAuction_found (matches : AuctionPrize.t → bool) (s : Store) (j : Z) (p : AuctionPrize.t) :
  wfStore s → prizeInv s → scanAuction matches s = Some (j, p) →
  0 ≤ j < 30 ∧ AuctionPrize.id p = auctionKey j ∧ AuctionPrize.day p = j
  ∧ auctionOk (auctionKey j) p ∧ matches p = true.
Proof.
  intros Hwf [_ HA] (Hj & Hload & Hm & _)%scanFirst_Some.
  rewrite loadAuctionPrize_eq in Hload.
  pose proof (HA _ _ Hload) as Hok. pose proof (wf_auctionPrizes s Hwf _ _ Hload) as Hid.
  pose proof Hok as (Hkey & _). apply auctionKey_inj in Hkey.
  split; [lia|]. split; [exact Hid|]. split; [by symmetry|]. by split.
Qed.

Lemma prizeInv_handlePrizeClaimed (event : PrizeClaimed.t) (s : Store) :
  wfStore s → prizeInv s → prizeInv (handlePrizeClaimed event s).
Proof.
  intros Hwf Hinv. rewrite handlePrizeClaimed_scan.
  destruct (scanLottery _ s) as [[j p]|] eqn:EL.
  { destruct (scanLottery_found _ _ _ _ Hwf Hinv EL)
      as (Hj & Hid & Hday & _ & (_ & _ & Hc & He)%lotteryMatchesClaim_true).
    destruct Hinv as [HL HA]. split.
    - rewrite markLotteryClaimed_lotteryPrizes. apply map_Forall_insert_2; [|assumption].
      rewrite Hid. unfold lotteryOk. cbn. rewrite Hday, He.
      split; [reflexivity|]. split; [intros [_ ?]; discriminate | lia].
    - by rewrite markLotteryClaimed_auctionPrizes. }
  destruct (scanAuction _ s) as [[j p]|] eqn:EA; [|assumption].
  destruct (scanAuction_found _ _ _ _ Hwf Hinv EA)
    as (Hj & Hid & Hday & _ & (_ & _ & Hc & He)%auctionMatchesClaim_true).
  destruct Hinv as [HL HA]. split.
  - by rewrite markAuctionClaimed_lotteryPrizes.
  - rewrite markAuctionClaimed_auctionPrizes. apply map_Forall_insert_2; [|assumption].
    rewrite Hid. unfold auctionOk. cbn. rewrite Hday, He.
    split; [reflexivity|]. split; [intros [_ ?]; discriminate | lia].
Qed.

Lemma prizeInv_handleBeneficiaryFunded (event : BeneficiaryFunded.t) (s : Store) :
  wfStore s → prizeInv s → prizeInv (handleBeneficiaryFunded event s).
Proof.
  intros Hwf Hinv. rewrite handleBeneficiaryFunded_scan.
  destruct (scanLottery _ s) as [[j p]|] eqn:EL.
  { destruct (scanLottery_found _ _ _ _ Hwf Hinv EL)
      as (Hj & Hid & Hday & _ & (_ & Hc & He)%lotteryMatchesExpiry_true).
    destruct Hinv as [HL HA]. split.
    - rewrite markLotteryExpired_lotteryPrizes. apply map_Forall_insert_2; [|assumption].
      rewrite Hid. unfold lotteryOk. cbn. rewrite Hday, Hc.
      split; [reflexivity|]. split; [intros [? _]; discriminate | lia].
    - by rewrite markLotteryExpired_auctionPrizes. }
  destruct (scanAuction _ s) as [[j p]|] eqn:EA; [|assumption].
  destruct (scanAuction_found _ _ _ _ Hwf Hinv EA)
    as (Hj & Hid & Hday & _ & (_ & Hc & He)%auctionMatchesExpiry_true).
  destruct Hinv as [HL HA]. split.
  - by rewrite markAuctionExpired_lotteryPrizes.
  - rewrite markAuctionExpired_auctionPrizes. apply map_Forall_insert_2; [|assumption].
    rewrite Hid. unfold auctionOk. cbn. rewrite Hday, Hc.
    split; [reflexivity|]. split; [intros [? _]; discriminate | lia].
Qed.

Lemma prizeInv_handleAuctionStarted (event : AuctionStarted.t) (s : Store) :
  prizeInv s → prizeInv (handleAuctionStarted event s).
Proof.
  intros [HL HA]. split.
  - by rewrite handleAuctionStarted_lotteryPrizes.
  - rewrite handleAuctionStarted_auctionPrizes.
    destruct (loadAuctionPrize _ s); [assumption|].
    apply map_Forall_insert_2; [|assumption].
    split; [reflexivity|]. cbn. split; [intros [? ?]; discriminate | auto].
Qed.

Lemma prizeInv_handleBidPlaced (event : BidPlaced.t) (s : Store) :
  wfStore s → prizeInv s → prizeInv (handleBidPlaced event s).
Proof.
  intros Hwf [HL HA]. split.
  - by rewrite handleBidPlaced_lotteryPrizes.
  - rewrite handleBidPlaced_auctionPrizes.
    destruct (loadAuctionPrize _ s) as [a|] eqn:E; [|assumption].
    rewrite loadAuctionPrize_eq in E.
    apply map_Forall_insert_2; [|assumption].
    rewrite (wf_auctionPrizes s Hwf _ _ E). apply (HA _ _ E).
Qed.

Lemma prizeInv_dispatch (ev : ContractEvent) (s : Store) :
  wfStore s → prizeInv s → prizeInv (dispatch ev s).
Proof.
  intros Hwf Hinv. destruct ev as [e|e|e|e|e|e|e|e|e]; cbn [dispatch].
  - by apply prizeInv_handleLotteryWon.
  - by apply prizeInv_handleAuctionWon.
  - by apply prizeInv_handlePrizeClaimed.
  - by apply prizeInv_handleBeneficiaryFunded.
  - by apply prizeInv_handleAuctionStarted.
  - by apply prizeInv_handleBidPlaced.
  - destruct Hinv. split;
      [by rewrite handleMinted_lotteryPrizes | by rewrite handleMinted_auctionPrizes].
  - destruct Hinv. split;
      [by rewrite handleRedeemed_lotteryPrizes | by rewrite handleRedeemed_auctionPrizes].
  - destruct Hinv. split;
      [by rewrite handleTransfer_lotteryPrizes | by rewrite handleTransfer_auctionPrizes].
Qed.

Lemma reachable_invariants (evs : list ContractEvent) :
  wfStore (processEvents evs emptyStore) ∧ prizeInv (processEvents evs emptyStore).
Proof.
  induction evs as [|ev evs [Hwf Hinv]] using rev_ind.
  - split; [apply wfStore_empty | apply prizeInv_empty].
  - rewrite processEvents_snoc. split;
      [by apply wfStore_dispatch | by apply prizeInv_dispatch].
Qed.

(** C8. In every store reached from the empty one, no lottery or auction
    prize is both claimed and expired. *)
Theorem never_claimed_and_expired (evs : list ContractEvent) :
  let s := processEvents evs emptyStore in
  (∀ k p, lotteryPrizes s !! k = Some p →
     ¬ (LotteryPrize.claimed p = true ∧ LotteryPrize.expired p = true))
  ∧ (∀ k p, auctionPrizes s !! k = Some p →
       ¬ (AuctionPrize.claimed p = true ∧ AuctionPrize.expired p = true)).
Proof.
  intros s. destruct (reachable_invariants evs) as [_ [HL HA]]. split.
  - intros k p H. by destruct (HL k p H) as (_ & ? & _).
  - intros k p H. by destruct (HA k p H) as (_ & ? & _).
Qed.

(** A claimed prize whose winner is then named in an expiry stays
    unexpired. *)
Lemma never_claimed_and_expired_witness :
  let s := processEvents [EvLotteryWon (lotteryWonOn 5 alice 100);
                          EvPrizeClaimed (prizeClaimedBy 6 alice 100);
                          EvBeneficiaryFunded (beneficiaryFundedFor 7 alice bob 100)]
             emptyStore in
  ∃ p, loadLotteryPrize (lotteryKey 5) s = Some p
     ∧ LotteryPrize.claimed p = true
     ∧ ¬ (LotteryPrize.claimed p = true ∧ LotteryPrize.expired p = true).
Proof.
  intros s. destruct (loadLotteryPrize (lotteryKey 5) s) as [p|] eqn:E.
  - exists p. split; [reflexivity|]. split.
    + vm_compute in E. injection E as <-. reflexivity.
    + rewrite loadLotteryPrize_eq in E.
      exact (proj1 (never_claimed_and_expired _) _ _ E).
  - vm_compute in E. discriminate E.
Defined.

(** A claim or expiry that matches no record under the day keys 0 to 29
    changes nothing. *)
Lemma handlePrizeClaimed_unmatched (event : PrizeClaimed.t) (s : Store) :
  (∀ j p, 0 ≤ j < 30 → loadLotteryPrize (lotteryKey j) s = Some p →
     lotteryMatchesClaim (PrizeClaimed.winner (params event))
       (PrizeClaimed.amount (params event)) p = false) →
  (∀ j p, 0 ≤ j < 30 → loadAuctionPrize (auctionKey j) s = Some p →
     auctionMatchesClaim (PrizeClaimed.winner (params event))
       (PrizeClaimed.amount (params event)) p = false) →
  handlePrizeClaimed event s = s.
Proof.
  intros HL HA. rewrite handlePrizeClaimed_scan. unfold scanLottery, scanAuction.
  rewrite !scanFirst_None_intro; [reflexivity | |]; intros j p Hj; [apply HA | apply HL]; lia.
Qed.

Lemma handleBeneficiaryFunded_unmatched (event : BeneficiaryFunded.t) (s : Store) :
  (∀ j p, 0 ≤ j < 30 → loadLotteryPrize (lotteryKey j) s = Some p →
     lotteryMatchesExpiry (BeneficiaryFunded.previousWinner (params event)) p = false) →
  (∀ j p, 0 ≤ j < 30 → loadAuctionPrize (auctionKey j) s = Some p →
     auctionMatchesExpiry (BeneficiaryFunded.previousWinner (params event)) p = false) →
  handleBeneficiaryFunded event s = s.
Proof.
  intros HL HA. rewrite handleBeneficiaryFunded_scan. unfold scanLottery, scanAuction.
  rewrite !scanFirst_None_intro; [reflexivity | |]; intros j p Hj; [apply HA | apply HL]; lia.
Qed.





(** ** Claiming a lottery prize *)

Lemma currentStats_lookup (s : Store) (stats : ProtocolStats.t) :
  protocolStats s !! PROTOCOL_STATS_ID = Some stats → currentStats s = stats.
Proof.
  intros H. unfold currentStats, getOrCreateProtocolStats.
  rewrite loadProtocolStats_eq, H. reflexivity.
Qed.

Lemma markLotteryClaimed_currentStats (event : PrizeClaimed.t) (p : LotteryPrize.t) (s : Store) :
  wfStore s →
  currentStats (markLotteryClaimed event p s)
  = ProtocolStats.set_totalLotteryClaimed
      (ProtocolStats.totalLotteryClaimed (currentStats s)
       + PrizeClaimed.amount (params event))
      (currentStats s).
Proof.
  intros Hwf. unfold markLotteryClaimed. cbv zeta.
  assert (currentStats (saveLotteryPrize
            (LotteryPrize.set_claimTxHash (Some (hash (transaction event)))
               (LotteryPrize.set_claimTimestamp (Some (timestamp (block event)))
                  (LotteryPrize.set_claimed true p))) s) = currentStats s) as Hcur.
  { apply getOrCreateProtocolStats_fst. store_simpl. reflexivity. }
  rewrite <- Hcur. unfold currentStats at 2 3.
  destruct (getOrCreateProtocolStats _) as [stats s1] eqn:E.
  pose proof E as [Hwf1 Hid]%wfStore_getOrCreateProtocolStats;
    [|by apply wfStore_saveLotteryPrize].
  apply getOrCreateProtocolStats_eq in E as [-> _].
  apply currentStats_lookup. store_simpl. cbn [fst].
  change (ProtocolStats.id (ProtocolStats.set_totalLotteryClaimed ?v stats))
    with (ProtocolStats.id stats).
  rewrite Hid. apply lookup_insert_eq.
Qed.

(** C5. Let the store hold, under the key of a day [d] in the scan range
    (the claim's day 5 is the instance [d = 5]), the record that
    [LotteryWon{day = d, winner = W, amount = A}] wrote, and no other
    unclaimed, unexpired prize of either kind for [W] and [A].  Then
    [PrizeClaimed{W, A}] marks that record claimed and stamps its claim
    timestamp and transaction hash, the total of claimed lottery prizes
    grows by exactly [A], and a second [PrizeClaimed{W, A}] leaves the
    whole store unchanged. *)
Theorem prize_claimed_marks_lottery
    (win : LotteryWon.t) (userId : string) (claim again : PrizeClaimed.t) (s : Store) :
  let d := winDay win in
  let W := LotteryWon.winner (params win) in
  let A := LotteryWon.amount (params win) in
  0 ≤ d < 30 →
  wfStore s →
  loadLotteryPrize (lotteryKey d) s = Some (lotteryWonRecord win userId) →
  PrizeClaimed.winner (params claim) = W → PrizeClaimed.amount (params claim) = A →
  PrizeClaimed.winner (params again) = W → PrizeClaimed.amount (params again) = A →
  (∀ k p, lotteryPrizes s !! k = Some p → k ≠ lotteryKey d →
     lotteryMatchesClaim W A p = false) →
  (∀ k p, auctionPrizes s !! k = Some p → auctionMatchesClaim W A p = false) →
  let s1 := handlePrizeClaimed claim s in
  (∃ p, loadLotteryPrize (lotteryKey d) s1 = Some p
      ∧ LotteryPrize.claimed p = true
      ∧ LotteryPrize.claimTimestamp p = Some (timestamp (block claim))
      ∧ LotteryPrize.claimTxHash p = Some (hash (transaction claim))
      ∧ LotteryPrize.expired p = false
      ∧ LotteryPrize.winner p = W ∧ LotteryPrize.amount p = A ∧ LotteryPrize.day p = d)
  ∧ ProtocolStats.totalLotteryClaimed (currentStats s1)
    = ProtocolStats.totalLotteryClaimed (currentStats s) + A
  ∧ handlePrizeClaimed again s1 = s1.
Proof.
  intros d W A Hd Hwf Hrec HcW HcA HaW HaA Hlot Hauc s1.
  set (rec := lotteryWonRecord win userId) in *.
  assert (lotteryMatchesClaim W A rec = true) as Hmatch
    by (by apply lotteryMatchesClaim_true).
  assert (scanLottery (lotteryMatchesClaim W A) s = Some (d, rec)) as Hscan.
  { destruct (scanLottery _ s) as [[j p]|] eqn:E.
    - apply scanFirst_Some in E as (Hj & Hload & Hm & _).
      destruct (decide (j = d)) as [->|Hne]; [congruence|].
      rewrite loadLotteryPrize_eq in Hload.
      rewrite (Hlot _ _ Hload) in Hm by (by apply lotteryKey_ne). discriminate.
    - pose proof (scanFirst_None _ _ _ _ E d rec ltac:(lia) Hrec). congruence. }
  assert (s1 = markLotteryClaimed claim rec s) as Hs1.
  { subst s1. rewrite handlePrizeClaimed_scan, HcW, HcA. fold W A. by rewrite Hscan. }
  assert (lotteryPrizes s1 = <[lotteryKey d := claimedLottery claim rec]> (lotteryPrizes s))
    as HL by (rewrite Hs1; apply markLotteryClaimed_lotteryPrizes).
  assert (auctionPrizes s1 = auctionPrizes s)
    as HA by (rewrite Hs1; apply markLotteryClaimed_auctionPrizes).
  split; [|split].
  - exists (claimedLottery claim rec). split; [|by repeat split].
    rewrite loadLotteryPrize_eq, HL. apply lookup_insert_eq.
  - rewrite Hs1, markLotteryClaimed_currentStats by assumption. by rewrite HcA.
  - rewrite handlePrizeClaimed_scan, HaW, HaA. fold W A.
    assert (scanLottery (lotteryMatchesClaim W A) s1 = None) as ->.
    { apply scanFirst_None_intro. intros j p Hj Hload.
      rewrite loadLotteryPrize_eq, HL in Hload.
      destruct (decide (j = d)) as [->|Hne].
      - rewrite lookup_insert_eq in Hload. injection Hload as <-.
        unfold lotteryMatchesClaim. cbn. by rewrite !andb_false_r.
      - rewrite lookup_insert_ne in Hload by (by apply lotteryKey_ne).
        apply (Hlot _ _ Hload). by apply lotteryKey_ne. }
    assert (scanAuction (auctionMatchesClaim W A) s1 = None) as ->.
    { apply scanFirst_None_intro. intros j p Hj Hload.
      rewrite loadAuctionPrize_eq, HA in Hload. apply (Hauc _ _ Hload). }
    reflexivity.
Qed.

(** The win of day 5, its claim and a repeated claim, from the empty
    store. *)
Lemma prize_claimed_marks_lottery_witness :
  let s := handleLotteryWon (lotteryWonOn 5 alice 100) emptyStore in
  let s1 := handlePrizeClaimed (prizeClaimedBy 6 alice 100) s in
  (∃ p, loadLotteryPrize (lotteryKey 5) s1 = Some p ∧ LotteryPrize.claimed p = true)
  ∧ ProtocolStats.totalLotteryClaimed (currentStats s1)
    = ProtocolStats.totalLotteryClaimed (currentStats s) + 100
  ∧ handlePrizeClaimed (prizeClaimedBy 7 alice 100) s1 = s1.
Proof.
  intros s s1.
  assert (lotteryPrizes s
          = {[lotteryKey 5 := lotteryWonRecord (lotteryWonOn 5 alice 100) (toHexString alice)]})
    as HL by (vm_compute; reflexivity).
  assert (auctionPrizes s = ∅) as HA by (vm_compute; reflexivity).
  destruct (prize_claimed_marks_lottery (lotteryWonOn 5 alice 100) (toHexString alice)
              (prizeClaimedBy 6 alice 100) (prizeClaimedBy 7 alice 100) s)
    as ((p & Hp & Hc & _) & Hstats & Hagain).
  - change (0 ≤ 5 < 30). lia.
  - apply wfStore_handleLotteryWon, wfStore_empty.
  - vm_compute. reflexivity.
  - reflexivity.
  - reflexivity.
  - reflexivity.
  - reflexivity.
  - intros k p Hk Hne. rewrite HL in Hk. apply lookup_singleton_Some in Hk as [<- _].
    by destruct Hne.
  - intros k p Hk. rewrite HA in Hk. by rewrite lookup_empty in Hk.
  - split; [by exists p|]. split; assumption.
Defined.

(** ** Bid counts across the auction win *)

(** Whatever the store, the record [handleAuctionWon] leaves for its day
    has no bids. *)
Lemma handleAuctionWon_bidCount (event : AuctionWon.t) (s : Store) :
  bidCountOn (AuctionWon.day (params event)) (handleAuctionWon event s) = Some 0.
Proof.
  unfold bidCountOn. destruct (handleAuctionWon_auctionPrizes event s) as [uid H].
  by rewrite loadAuctionPrize_eq, H, lookup_insert_eq.
Qed.

(** Bids before the win are counted on the day's record. *)
Lemma handleBidPlaced_bidCount (event : BidPlaced.t) (s : Store) (n : Z) :
  wfStore s →
  bidCountOn (BidPlaced.day (params event)) s = Some n →
  bidCountOn (BidPlaced.day (params event)) (handleBidPlaced event s)
  = Some (wrap32 (n + 1)).
Proof.
  unfold bidCountOn. intros Hwf Hn.
  rewrite loadAuctionPrize_eq in *. rewrite handleBidPlaced_auctionPrizes.
  rewrite loadAuctionPrize_eq.
  destruct (auctionPrizes s !! _) as [a|] eqn:E; [|discriminate].
  rewrite (wf_auctionPrizes s Hwf _ _ E), lookup_insert_eq.
  injection Hn as <-. reflexivity.
Qed.

(** C4 at a failing input: the auction of day 3 is started and two bids
    are placed, which the record counts; the win then stores a fresh
    record whose bid count is 0, not 2. *)
Theorem auction_won_forgets_bids :
  let s := processEvents [EvAuctionStarted (auctionStartedOn 3 50);
                          EvBidPlaced (bidPlacedAt 4 3 alice 7);
                          EvBidPlaced (bidPlacedAt 5 3 bob 8)] emptyStore in
  bidCountOn 3 s = Some 2
  ∧ bidCountOn 3 (dispatch (EvAuctionWon (auctionWonAt 6 3 bob 50 8)) s) = Some 0.
Proof. vm_compute. split; reflexivity. Qed.

(** ** The cap on live transactions *)

(** C1 at a failing input: after eleven mints the record under key 0 has
    been rotated away and ten records are live; the probe of the twelfth
    mint stops at the missing key 0 at once, nothing is rotated, and
    eleven records are live (and one more after every later event). *)
Theorem transaction_cap_exceeded :
  liveTransactions (processEvents (mints 11) emptyStore) = 10%nat
  ∧ loadTransaction "0" (processEvents (mints 11) emptyStore) = None
  ∧ probeTransactions 11 0 (processEvents (mints 11) emptyStore) = []
  ∧ liveTransactions (processEvents (mints 12) emptyStore) = 11%nat
  ∧ liveTransactions (processEvents (mints 30) emptyStore) = 29%nat.
Proof. vm_compute. repeat split; reflexivity. Qed.

(** ** The probe of [rotateTransactions] *)

(** Up to a missing key [m] the probe meets no wrap-around: its [k]-th
    element is the record under key [i + k], and it ends before [m]. *)
Lemma probeTransactions_lookup (fuel : nat) (i m : Z) (s : Store) (k : nat) (tx : Transaction.t) :
  0 ≤ i ≤ m → m < 2 ^ 31 →
  loadTransaction (toString m) s = None →
  probeTransactions fuel i s !! k = Some tx →
  i + Z.of_nat k < m ∧ loadTransaction (toString (i + Z.of_nat k)) s = Some tx.
Proof.
  revert i k. induction fuel as [|fuel IH]; intros i k Hi Hm Hnone Hk; [discriminate|].
  cbn [probeTransactions] in Hk.
  destruct (loadTransaction (toString i) s) as [tx0|] eqn:E; [|discriminate].
  assert (i ≠ m) by congruence.
  destruct k as [|k].
  - injection Hk as <-. rewrite Z.add_0_r. split; [lia | assumption].
  - rewrite wrap32_small in Hk by lia. cbn [lookup list_lookup] in Hk.
    apply IH in Hk as [Hlt Hload]; [|lia..|assumption].
    replace (i + Z.of_nat (S k)) with (i + 1 + Z.of_nat k) by lia. by split.
Qed.

Lemma probeTransactions_end (fuel : nat) (i : Z) (s : Store) :
  0 ≤ i → i + Z.of_nat fuel < 2 ^ 31 →
  (length (probeTransactions fuel i s) < fuel)%nat →
  loadTransaction (toString (i + Z.of_nat (length (probeTransactions fuel i s)))) s = None.
Proof.
  revert i. induction fuel as [|fuel IH]; intros i Hi Hb Hlen; [simpl in Hlen; lia|].
  cbn [probeTransactions] in *.
  destruct (loadTransaction (toString i) s) as [tx0|] eqn:E.
  - cbn [length] in *. rewrite wrap32_small in * by lia.
    replace (i + Z.of_nat (S (length (probeTransactions fuel (i + 1) s))))
      with (i + 1 + Z.of_nat (length (probeTransactions fuel (i + 1) s))) by lia.
    apply IH; lia.
  - cbn [length]. by rewrite Z.add_0_r.
Qed.

Lemma probeTransactions_all_present (fuel : nat) (i : Z) (s : Store) :
  0 ≤ i → i + Z.of_nat fuel < 2 ^ 31 →
  length (probeTransactions fuel i s) = fuel →
  ∀ k, (k < fuel)%nat → is_Some (loadTransaction (toString (i + Z.of_nat k)) s).
Proof.
  revert i. induction fuel as [|fuel IH]; intros i Hi Hb Hlen k Hk; [lia|].
  cbn [probeTransactions] in Hlen.
  destruct (loadTransaction (toString i) s) as [tx0|] eqn:E; [|discriminate].
  destruct k as [|k]; [rewrite Z.add_0_r; by rewrite E|].
  cbn [length] in Hlen. rewrite wrap32_small in Hlen by lia.
  replace (i + Z.of_nat (S k)) with (i + 1 + Z.of_nat k) by lia.
  apply IH; lia.
Qed.

(** The probing loop ends on a missing key: the fuel the model gives it,
    one more than the number of stored transactions, cannot be used up
    (as long as the store holds fewer than [2^31 - 1] transactions). *)
Lemma probeTransactions_stops (s : Store) :
  Z.of_nat (size (transactions s)) < 2 ^ 31 - 1 →
  let found := probeTransactions (S (size (transactions s))) 0 s in
  (length found ≤ size (transactions s))%nat
  ∧ loadTransaction (toString (Z.of_nat (length found))) s = None.
Proof.
  intros Hsize found.
  assert (length found ≤ S (size (transactions s)))%nat as Hle.
  { subst found. generalize (S (size (transactions s))) 0.
    intros fuel. induction fuel as [|fuel IH]; intros i; cbn [probeTransactions];
      [simpl; lia|].
    destruct (loadTransaction _ s); cbn [length]; [|lia]. specialize (IH (wrap32 (i + 1))). lia. }
  assert (length found ≠ S (size (transactions s))) as Hne.
  { intros Hfull.
    pose proof (probeTransactions_all_present (S (size (transactions s))) 0 s
                  ltac:(lia) ltac:(lia) Hfull) as Hall.
    set (keys := (λ k : nat, toString (Z.of_nat k)) <$> seq 0 (S (size (transactions s)))).
    assert (NoDup keys) as Hnd.
    { apply NoDup_fmap_2; [|apply NoDup_seq].
      intros a b E. apply toString_inj in E. lia. }
    assert (list_to_set keys ⊆ dom (transactions s)) as Hsub.
    { intros x Hx. apply elem_of_list_to_set, list_elem_of_fmap in Hx as (k & -> & Hk).
      apply elem_of_seq in Hk. apply elem_of_dom.
      rewrite <- loadTransaction_eq. apply (Hall k). lia. }
    apply subseteq_size in Hsub.
    rewrite size_list_to_set, size_dom in Hsub by assumption.
    subst keys. rewrite length_fmap, length_seq in Hsub. lia. }
  split; [lia|]. subst found.
  apply (probeTransactions_end (S (size (transactions s))) 0 s); lia.
Qed.

(** ** Sorting by timestamp *)

Lemma insertLeft_elem {A} (cmp : A → A → Z) (a x : A) (l : list A) :
  x ∈ insertLeft cmp a l ↔ x = a ∨ x ∈ l.
Proof.
  induction l as [|b l IH]; cbn [insertLeft].
  - rewrite list_elem_of_singleton, elem_of_nil. tauto.
  - destruct (cmp a b <? 0); rewrite !elem_of_cons; [rewrite IH|]; tauto.
Qed.

Lemma insertLeft_length {A} (cmp : A → A → Z) (a : A) (l : list A) :
  length (insertLeft cmp a l) = S (length l).
Proof.
  induction l as [|b l IH]; cbn [insertLeft]; [reflexivity|].
  destruct (cmp a b <? 0); cbn [length]; [by rewrite IH | reflexivity].
Qed.

Lemma sortPrefix_elem {A} (cmp : A → A → Z) (l acc : list A) (x : A) :
  x ∈ fold_left (λ revPrefix a, insertLeft cmp a revPrefix) l acc ↔ x ∈ l ∨ x ∈ acc.
Proof.
  revert acc. induction l as [|a l IH]; intros acc; cbn [fold_left].
  - rewrite elem_of_nil. tauto.
  - rewrite IH, insertLeft_elem, elem_of_cons. tauto.
Qed.

Lemma sortPrefix_length {A} (cmp : A → A → Z) (l acc : list A) :
  length (fold_left (λ revPrefix a, insertLeft cmp a revPrefix) l acc)
  = (length l + length acc)%nat.
Proof.
  revert acc. induction l as [|a l IH]; intros acc; cbn [fold_left]; [reflexivity|].
  rewrite IH, insertLeft_length. cbn [length]. lia.
Qed.

Lemma sort_elem {A} (cmp : A → A → Z) (l : list A) (x : A) : x ∈ sort cmp l ↔ x ∈ l.
Proof.
  unfold sort. rewrite elem_of_reverse, sortPrefix_elem, elem_of_nil. tauto.
Qed.

Lemma sort_length {A} (cmp : A → A → Z) (l : list A) : length (sort cmp l) = length l.
Proof. unfold sort. rewrite length_reverse, sortPrefix_length. cbn [length]. lia. Qed.

Lemma take_elem {A} (n : nat) (l : list A) (x : A) : x ∈ take n l → x ∈ l.
Proof. intros (i & Hi & _)%elem_of_take. apply list_elem_of_lookup. by exists i. Qed.

(** An element that compares below none of the others stays last. *)
Lemma sort_snoc {A} (cmp : A → A → Z) (l : list A) (a : A) :
  (∀ b, b ∈ l → (cmp a b <? 0) = false) →
  sort cmp (l ++ [a]) = (sort cmp l ++ [a])%list.
Proof.
  intros Hmax. unfold sort. rewrite fold_left_app. cbn [fold_left].
  set (acc := fold_left (λ revPrefix a, insertLeft cmp a revPrefix) l []).
  assert (insertLeft cmp a acc = a :: acc) as ->.
  { assert (∀ b, b ∈ acc → b ∈ l) as Hacc.
    { intros b Hb. apply sortPrefix_elem in Hb as [?|Hb]; [assumption|].
      by apply elem_of_nil in Hb. }
    destruct acc as [|b acc]; [reflexivity|]. cbn [insertLeft].
    rewrite Hmax; [reflexivity|]. apply Hacc. by left. }
  apply reverse_cons.
Qed.

Lemma compareTimestamp_not_below (a b : Transaction.t) :
  Transaction.timestamp b ≤ Transaction.timestamp a → (compareTimestamp a b <? 0) = false.
Proof.
  intros H. unfold compareTimestamp.
  destruct (Transaction.timestamp a <? Transaction.timestamp b) eqn:E; [lia|].
  by destruct (Transaction.timestamp a >? Transaction.timestamp b).
Qed.

Lemma deleteAll_lookup_ne (l : list Transaction.t) (m : gmap string Transaction.t) (k : string) :
  (∀ tx, tx ∈ l → Transaction.id tx ≠ k) → deleteAll l m !! k = m !! k.
Proof.
  revert m. induction l as [|tx l IH]; intros m Hl; [reflexivity|].
  unfold deleteAll in *. cbn [fold_left].
  rewrite IH by (intros; apply Hl; by right).
  apply lookup_delete_ne, Hl. by left.
Qed.

(** The record written last is not the one rotation evicts: with key
    [c + 1] free the probe ends at the record under key [c], and when
    that one is no older than the others the sort leaves it last, out of
    reach of the deletions. *)
Lemma rotateTransactions_keeps_newest (s : Store) (c : Z) (newest : Transaction.t) :
  wfStore s → 0 ≤ c → c + 1 < 2 ^ 31 →
  loadTransaction (toString c) s = Some newest →
  loadTransaction (toString (c + 1)) s = None →
  (∀ k tx, loadTransaction k s = Some tx →
     Transaction.timestamp tx ≤ Transaction.timestamp newest) →
  loadTransaction (toString c) (rotateTransactions s) = Some newest.
Proof.
  intros Hwf Hc Hc1 Hnew Hfree Hts. unfold rotateTransactions.
  set (l := probeTransactions (S (size (transactions s))) 0 s).
  destruct (Z.of_nat (length l) >=? MAX_TRANSACTIONS); [|assumption].
  rewrite removeAll_eq, loadTransaction_eq, transactions_withTransactions.
  rewrite deleteAll_lookup_ne; [by rewrite <- loadTransaction_eq|].
  assert (∀ k tx, l !! k = Some tx →
            Z.of_nat k < c + 1 ∧ loadTransaction (toString (Z.of_nat k)) s = Some tx) as Hl.
  { intros k tx Hk.
    apply (probeTransactions_lookup _ 0 (c + 1) s k tx) in Hk; [|lia|lia|assumption].
    by rewrite Z.add_0_l in Hk. }
  set (l' := take (Z.to_nat c) l).
  assert (∀ tx, tx ∈ l' → Transaction.id tx ≠ toString c
                          ∧ Transaction.timestamp tx ≤ Transaction.timestamp newest) as Hl'.
  { intros tx (k & Hk)%list_elem_of_lookup. subst l'.
    apply lookup_take_Some in Hk as [Hk Hlt]. apply Hl in Hk as [_ Hk].
    split; [|by apply (Hts _ _ Hk)]. rewrite loadTransaction_eq in Hk.
    rewrite (wf_transactions s Hwf _ _ Hk). intros E%toString_inj. lia. }
  intros tx Htx. apply Hl'.
  pose proof (take_drop (Z.to_nat c) l) as Hsplit. fold l' in Hsplit.
  destruct (drop (Z.to_nat c) l) as [|x [|y rest]] eqn:Edrop.
  - rewrite app_nil_r in Hsplit. rewrite Hsplit.
    apply take_elem in Htx. by apply sort_elem in Htx.
  - assert (length l' = Z.to_nat c) as Hlen.
    { subst l'. rewrite length_take. apply Nat.min_l.
      apply (f_equal length) in Edrop. rewrite length_drop in Edrop. simpl in Edrop. lia. }
    assert (x = newest) as ->.
    { assert (l !! Z.to_nat c = Some x) as Hx
        by (rewrite <- Hsplit, lookup_app_r, Hlen, Nat.sub_diag by lia; reflexivity).
      apply Hl in Hx as [_ Hx]. rewrite Z2Nat.id in Hx by lia. congruence. }
    rewrite <- Hsplit in Htx.
    rewrite sort_snoc in Htx
      by (intros b Hb; apply compareTimestamp_not_below, Hl', Hb).
    rewrite length_app, sort_length in Htx. cbn [length] in Htx.
    rewrite take_app_le in Htx by (rewrite sort_length; unfold MAX_TRANSACTIONS; lia).
    apply take_elem in Htx. by apply sort_elem in Htx.
  - assert (l !! S (Z.to_nat c) = Some y) as Hy.
    { rewrite <- (take_drop (Z.to_nat c) l), Edrop.
      assert (length (take (Z.to_nat c) l) = Z.to_nat c) as Hlen.
      { rewrite length_take. apply Nat.min_l.
        apply (f_equal length) in Edrop. rewrite length_drop in Edrop. simpl in Edrop. lia. }
      rewrite lookup_app_r by lia. rewrite Hlen.
      replace (S (Z.to_nat c) - Z.to_nat c)%nat with 1%nat by lia. reflexivity. }
    apply Hl in Hy as [Hy _]. lia.
Qed.

(** ** A mint and its fee transfer *)

Lemma handleMinted_transactions (event : Minted.t) (s : Store) :
  ∃ userId,
    transactions (handleMinted event s)
    = <[toString (ProtocolStats.transactionCounter (currentStats s)) :=
          mintedRecord event (ProtocolStats.transactionCounter (currentStats s)) userId]>
        (transactions (rotateTransactions s)).
Proof.
  unfold handleMinted. rewrite <- (currentStats_rotateTransactions s). unfold currentStats.
  destruct (getOrCreateProtocolStats (rotateTransactions s)) as [stats s1] eqn:E.
  apply getOrCreateProtocolStats_eq in E as [-> _].
  destruct (getOrCreateUser _ _) as [user s2] eqn:E.
  apply getOrCreateUser_eq in E as [-> _].
  exists (User.id user). store_simpl. reflexivity.
Qed.

Lemma handleMinted_counter (event : Minted.t) (s : Store) :
  wfStore s →
  ProtocolStats.transactionCounter (currentStats (handleMinted event s))
  = wrap32 (ProtocolStats.transactionCounter (currentStats s) + 1).
Proof.
  intros Hwf. unfold handleMinted.
  rewrite <- (currentStats_rotateTransactions s). unfold currentStats at 2.
  destruct (getOrCreateProtocolStats (rotateTransactions s)) as [stats s1] eqn:E.
  pose proof E as [_ Hid]%wfStore_getOrCreateProtocolStats;
    [|by apply wfStore_rotateTransactions].
  apply getOrCreateProtocolStats_eq in E as [-> _].
  destruct (getOrCreateUser _ _) as [user s2] eqn:E.
  apply getOrCreateUser_eq in E as [-> _].
  erewrite currentStats_lookup; cycle 1.
  { store_simpl.
    cbn [ProtocolStats.id ProtocolStats.set_transactionCounter
         ProtocolStats.set_totalTransactions ProtocolStats.set_totalFees
         ProtocolStats.set_totalMinted].
    rewrite Hid. apply lookup_insert_eq. }
  reflexivity.
Qed.

Lemma handleTransfer_transactions (event : Transfer.t) (s : Store) :
  Transfer.to (params event) = feesPoolAddress →
  Transfer.from (params event) ≠ zeroAddress →
  ∃ userId,
    transactions (handleTransfer event s)
    = <[toString (ProtocolStats.transactionCounter (currentStats s)) :=
          transferRecord event (ProtocolStats.transactionCounter (currentStats s)) userId]>
        (transactions (rotateTransactions s)).
Proof.
  intros Hto Hfrom. unfold handleTransfer. rewrite transfer_to_test, transfer_from_test.
  rewrite bool_decide_eq_false_2 by (by intros []).
  rewrite bool_decide_eq_false_2 by done.
  rewrite <- (currentStats_rotateTransactions s). unfold currentStats.
  destruct (getOrCreateProtocolStats (rotateTransactions s)) as [stats s1] eqn:E.
  apply getOrCreateProtocolStats_eq in E as [-> _].
  destruct (getOrCreateUser _ _) as [user s2] eqn:E.
  apply getOrCreateUser_eq in E as [-> _].
  exists (User.id user). store_simpl. reflexivity.
Qed.

(** C6. A [Minted] event followed at once by a [Transfer] from a
    non-zero source to the fee pool: each handler stores a record of its
    own, MINT under the sequence counter [c] and TRANSFER under the next
    counter value, and the two keys differ.  In a store as the projector
    builds it (counter not yet wrapped, keys from the counter on unused,
    no stored record younger than the mint) both records are live after
    the pair, and every other transaction record is untouched or rotated
    away: two records were added, not one. *)
Theorem mint_then_fee_transfer (mint : Minted.t) (transfer : Transfer.t) (s : Store) :
  let c := ProtocolStats.transactionCounter (currentStats s) in
  let s1 := handleMinted mint s in
  let s2 := handleTransfer transfer s1 in
  wfStore s →
  Transfer.to (params transfer) = feesPoolAddress →
  Transfer.from (params transfer) ≠ zeroAddress →
  ∃ m t,
    loadTransaction (toString c) s1 = Some m
    ∧ Transaction.type m = "MINT"
    ∧ loadTransaction (toString (wrap32 (c + 1))) s2 = Some t
    ∧ Transaction.type t = "TRANSFER"
    ∧ toString c ≠ toString (wrap32 (c + 1))
    ∧ (0 ≤ c < 2 ^ 31 - 1 →
       loadTransaction (toString (c + 1)) s = None →
       (∀ k tx, loadTransaction k s = Some tx →
          Transaction.timestamp tx ≤ timestamp (block mint)) →
       loadTransaction (toString c) s2 = Some m
       ∧ loadTransaction (toString (c + 1)) s2 = Some t
       ∧ ∀ k, k ≠ toString c → k ≠ toString (c + 1) →
           loadTransaction k s2 = None ∨ loadTransaction k s2 = loadTransaction k s).
Proof.
  intros c s1 s2 Hwf Hto Hfrom.
  destruct (handleMinted_transactions mint s) as [uid1 H1]. fold c s1 in H1.
  destruct (handleTransfer_transactions transfer s1 Hto Hfrom) as [uid2 H2]. fold s2 in H2.
  assert (ProtocolStats.transactionCounter (currentStats s1) = wrap32 (c + 1)) as Hc1
    by (by apply handleMinted_counter).
  rewrite Hc1 in H2.
  assert (toString c ≠ toString (wrap32 (c + 1))) as Hkeys.
  { intros E%toString_inj. by apply (wrap32_succ_ne c). }
  exists (mintedRecord mint c uid1), (transferRecord transfer (wrap32 (c + 1)) uid2).
  split; [rewrite loadTransaction_eq, H1; apply lookup_insert_eq|].
  split; [reflexivity|].
  split; [rewrite loadTransaction_eq, H2; apply lookup_insert_eq|].
  split; [reflexivity|]. split; [assumption|].
  intros Hc Hfree Hts. rewrite wrap32_small in * by lia.
  assert (wfStore s1) as Hwf1 by (by apply wfStore_handleMinted).
  split; [|split].
  - rewrite loadTransaction_eq, H2, lookup_insert_ne, <- loadTransaction_eq by (by symmetry).
    apply rotateTransactions_keeps_newest; try assumption; try lia.
    + rewrite loadTransaction_eq, H1. apply lookup_insert_eq.
    + rewrite loadTransaction_eq, H1, lookup_insert_ne by assumption.
      rewrite <- loadTransaction_eq.
      destruct (rotateTransactions_lookup s (toString (c + 1))) as [E|E];
        rewrite E; [reflexivity | assumption].
    + intros k tx. rewrite loadTransaction_eq, H1.
      destruct (decide (toString c = k)) as [<-|Hne].
      * rewrite lookup_insert_eq. intros [= <-]. reflexivity.
      * rewrite lookup_insert_ne by assumption. rewrite <- loadTransaction_eq.
        destruct (rotateTransactions_lookup s k) as [E|E]; rewrite E; [discriminate|].
        apply Hts.
  - rewrite loadTransaction_eq, H2. apply lookup_insert_eq.
  - intros k Hk Hk1.
    rewrite (loadTransaction_eq k s2), H2, lookup_insert_ne, <- loadTransaction_eq
      by (by apply not_eq_sym).
    destruct (rotateTransactions_lookup s1 k) as [E|E]; rewrite E; [by left|].
    rewrite (loadTransaction_eq k s1), H1, lookup_insert_ne, <- loadTransaction_eq
      by (by apply not_eq_sym).
    apply rotateTransactions_lookup.
Qed.

(** From the empty store the pair leaves exactly the records 0 (MINT)
    and 1 (TRANSFER). *)
Lemma mint_then_fee_transfer_witness :
  let s2 := handleTransfer (transferOf 1 alice feesPoolAddress 9)
              (handleMinted (mintedAt 1) emptyStore) in
  (∃ m, loadTransaction "0" s2 = Some m ∧ Transaction.type m = "MINT")
  ∧ (∃ t, loadTransaction "1" s2 = Some t ∧ Transaction.type t = "TRANSFER")
  ∧ liveTransactions s2 = 2%nat.
Proof.
  intros s2.
  destruct (mint_then_fee_transfer (mintedAt 1) (transferOf 1 alice feesPoolAddress 9)
              emptyStore wfStore_empty eq_refl)
    as (m & t & _ & Hm & _ & Ht & _ & Hlive).
  - vm_compute. discriminate.
  - destruct Hlive as (Hm2 & Ht2 & _).
    + vm_compute. split; [discriminate | reflexivity].
    + reflexivity.
    + intros k tx Hk. vm_compute in Hk. discriminate Hk.
    + split; [by exists m|]. split; [by exists t|]. vm_compute. reflexivity.
Defined.

(** ** Setters keep the id *)

Create Rewrite HintDb ids.

Lemma User_id_set_lotteryWinCount (v : Z) (e : User.t) :
  User.id (User.set_lotteryWinCount v e) = User.id e.
Proof. reflexivity. Qed.
Lemma User_id_set_totalLotteryWinnings (v : BigInt) (e : User.t) :
  User.id (User.set_totalLotteryWinnings v e) = User.id e.
Proof. reflexivity. Qed.
Lemma User_id_set_auctionWinCount (v : Z) (e : User.t) :
  User.id (User.set_auctionWinCount v e) = User.id e.
Proof. reflexivity. Qed.
Lemma User_id_set_totalAuctionWinnings (v : BigInt) (e : User.t) :
  User.id (User.set_totalAuctionWinnings v e) = User.id e.
Proof. reflexivity. Qed.
Lemma User_id_set_totalAuctionSpent (v : BigInt) (e : User.t) :
  User.id (User.set_totalAuctionSpent v e) = User.id e.
Proof. reflexivity. Qed.
Lemma User_id_set_totalMinted (v : BigInt) (e : User.t) :
  User.id (User.set_totalMinted v e) = User.id e.
Proof. reflexivity. Qed.
Lemma User_id_set_totalRedeemed (v : BigInt) (e : User.t) :
  User.id (User.set_totalRedeemed v e) = User.id e.
Proof. reflexivity. Qed.
Lemma User_id_set_transactionCount (v : Z) (e : User.t) :
  User.id (User.set_transactionCount v e) = User.id e.
Proof. reflexivity. Qed.
Lemma ProtocolStats_id_set_lotteryCount (v : Z) (e : ProtocolStats.t) :
  ProtocolStats.id (ProtocolStats.set_lotteryCount v e) = ProtocolStats.id e.
Proof. reflexivity. Qed.
Lemma ProtocolStats_id_set_totalLotteryPrizes (v : BigInt) (e : ProtocolStats.t) :
  ProtocolStats.id (ProtocolStats.set_totalLotteryPrizes v e) = ProtocolStats.id e.
Proof. reflexivity. Qed.
Lemma ProtocolStats_id_set_auctionCount (v : Z) (e : ProtocolStats.t) :
  ProtocolStats.id (ProtocolStats.set_auctionCount v e) = ProtocolStats.id e.
Proof. reflexivity. Qed.
Lemma ProtocolStats_id_set_totalAuctionPrizes (v : BigInt) (e : ProtocolStats.t) :
  ProtocolStats.id (ProtocolStats.set_totalAuctionPrizes v e) = ProtocolStats.id e.
Proof. reflexivity. Qed.
Lemma ProtocolStats_id_set_totalLotteryClaimed (v : BigInt) (e : ProtocolStats.t) :
  ProtocolStats.id (ProtocolStats.set_totalLotteryClaimed v e) = ProtocolStats.id e.
Proof. reflexivity. Qed.
Lemma ProtocolStats_id_set_totalAuctionClaimed (v : BigInt) (e : ProtocolStats.t) :
  ProtocolStats.id (ProtocolStats.set_totalAuctionClaimed v e) = ProtocolStats.id e.
Proof. reflexivity. Qed.
Lemma ProtocolStats_id_set_totalLotteryExpired (v : BigInt) (e : ProtocolStats.t) :
  ProtocolStats.id (ProtocolStats.set_totalLotteryExpired v e) = ProtocolStats.id e.
Proof. reflexivity. Qed.
Lemma ProtocolStats_id_set_totalAuctionExpired (v : BigInt) (e : ProtocolStats.t) :
  ProtocolStats.id (ProtocolStats.set_totalAuctionExpired v e) = ProtocolStats.id e.
Proof. reflexivity. Qed.
Lemma ProtocolStats_id_set_totalMinted (v : BigInt) (e : ProtocolStats.t) :
  ProtocolStats.id (ProtocolStats.set_totalMinted v e) = ProtocolStats.id e.
Proof. reflexivity. Qed.
Lemma ProtocolStats_id_set_totalRedeemed (v : BigInt) (e : ProtocolStats.t) :
  ProtocolStats.id (ProtocolStats.set_totalRedeemed v e) = ProtocolStats.id e.
Proof. reflexivity. Qed.
Lemma ProtocolStats_id_set_totalFees (v : BigInt) (e : ProtocolStats.t) :
  ProtocolStats.id (ProtocolStats.set_totalFees v e) = ProtocolStats.id e.
Proof. reflexivity. Qed.
Lemma ProtocolStats_id_set_totalTransactions (v : Z) (e : ProtocolStats.t) :
  ProtocolStats.id (ProtocolStats.set_totalTransactions v e) = ProtocolStats.id e.
Proof. reflexivity. Qed.
Lemma ProtocolStats_id_set_transactionCounter (v : Z) (e : ProtocolStats.t) :
  ProtocolStats.id (ProtocolStats.set_transactionCounter v e) = ProtocolStats.id e.
Proof. reflexivity. Qed.
Lemma LotteryPrize_id_set_claimed (v : bool) (e : LotteryPrize.t) :
  LotteryPrize.id (LotteryPrize.set_claimed v e) = LotteryPrize.id e.
Proof. reflexivity. Qed.
Lemma LotteryPrize_id_set_claimTimestamp (v : option BigInt) (e : LotteryPrize.t) :
  LotteryPrize.id (LotteryPrize.set_claimTimestamp v e) = LotteryPrize.id e.
Proof. reflexivity. Qed.
Lemma LotteryPrize_id_set_claimTxHash (v : option Bytes) (e : LotteryPrize.t) :
  LotteryPrize.id (LotteryPrize.set_claimTxHash v e) = LotteryPrize.id e.
Proof. reflexivity. Qed.
Lemma LotteryPrize_id_set_expired (v : bool) (e : LotteryPrize.t) :
  LotteryPrize.id (LotteryPrize.set_expired v e) = LotteryPrize.id e.
Proof. reflexivity. Qed.
Lemma LotteryPrize_id_set_expiryTimestamp (v : option BigInt) (e : LotteryPrize.t) :
  LotteryPrize.id (LotteryPrize.set_expiryTimestamp v e) = LotteryPrize.id e.
Proof. reflexivity. Qed.
Lemma LotteryPrize_id_set_expiryTxHash (v : option Bytes) (e : LotteryPrize.t) :
  LotteryPrize.id (LotteryPrize.set_expiryTxHash v e) = LotteryPrize.id e.
Proof. reflexivity. Qed.
Lemma LotteryPrize_id_set_beneficiary (v : option Bytes) (e : LotteryPrize.t) :
  LotteryPrize.id (LotteryPrize.set_beneficiary v e) = LotteryPrize.id e.
Proof. reflexivity. Qed.
Lemma AuctionPrize_id_set_claimed (v : bool) (e : AuctionPrize.t) :
  AuctionPrize.id (AuctionPrize.set_claimed v e) = AuctionPrize.id e.
Proof. reflexivity. Qed.
Lemma AuctionPrize_id_set_claimTimestamp (v : option BigInt) (e : AuctionPrize.t) :
  AuctionPrize.id (AuctionPrize.set_claimTimestamp v e) = AuctionPrize.id e.
Proof. reflexivity. Qed.
Lemma AuctionPrize_id_set_claimTxHash (v : option Bytes) (e : AuctionPrize.t) :
  AuctionPrize.id (AuctionPrize.set_claimTxHash v e) = AuctionPrize.id e.
Proof. reflexivity. Qed.
Lemma AuctionPrize_id_set_expired (v : bool) (e : AuctionPrize.t) :
  AuctionPrize.id (AuctionPrize.set_expired v e) = AuctionPrize.id e.
Proof. reflexivity. Qed.
Lemma AuctionPrize_id_set_expiryTimestamp (v : option BigInt) (e : AuctionPrize.t) :
  AuctionPrize.id (AuctionPrize.set_expiryTimestamp v e) = AuctionPrize.id e.
Proof. reflexivity. Qed.
Lemma AuctionPrize_id_set_expiryTxHash (v : option Bytes) (e : AuctionPrize.t) :
  AuctionPrize.id (AuctionPrize.set_expiryTxHash v e) = AuctionPrize.id e.
Proof. reflexivity. Qed.
Lemma AuctionPrize_id_set_beneficiary (v : option Bytes) (e : AuctionPrize.t) :
  AuctionPrize.id (AuctionPrize.set_beneficiary v e) = AuctionPrize.id e.
Proof. reflexivity. Qed.
Lemma AuctionPrize_id_set_bidCount (v : Z) (e : AuctionPrize.t) :
  AuctionPrize.id (AuctionPrize.set_bidCount v e) = AuctionPrize.id e.
Proof. reflexivity. Qed.

#[global] Hint Rewrite
  User_id_set_lotteryWinCount User_id_set_totalLotteryWinnings
  User_id_set_auctionWinCount User_id_set_totalAuctionWinnings
  User_id_set_totalAuctionSpent User_id_set_totalMinted
  User_id_set_totalRedeemed User_id_set_transactionCount
  ProtocolStats_id_set_lotteryCount ProtocolStats_id_set_totalLotteryPrizes
  ProtocolStats_id_set_auctionCount ProtocolStats_id_set_totalAuctionPrizes
  ProtocolStats_id_set_totalLotteryClaimed ProtocolStats_id_set_totalAuctionClaimed
  ProtocolStats_id_set_totalLotteryExpired ProtocolStats_id_set_totalAuctionExpired
  ProtocolStats_id_set_totalMinted ProtocolStats_id_set_totalRedeemed
  ProtocolStats_id_set_totalFees ProtocolStats_id_set_totalTransactions
  ProtocolStats_id_set_transactionCounter LotteryPrize_id_set_claimed
  LotteryPrize_id_set_claimTimestamp LotteryPrize_id_set_claimTxHash
  LotteryPrize_id_set_expired LotteryPrize_id_set_expiryTimestamp
  LotteryPrize_id_set_expiryTxHash LotteryPrize_id_set_beneficiary
  AuctionPrize_id_set_claimed AuctionPrize_id_set_claimTimestamp
  AuctionPrize_id_set_claimTxHash AuctionPrize_id_set_expired
  AuctionPrize_id_set_expiryTimestamp AuctionPrize_id_set_expiryTxHash
  AuctionPrize_id_set_beneficiary AuctionPrize_id_set_bidCount
  : ids.

(** ** Handlers in normal form *)

Lemma getOrCreateUser_fst (address : Bytes) (s s' : Store) :
  users s' = users s →
  (getOrCreateUser address s').1 = (getOrCreateUser address s).1.
Proof.
  intros H. unfold getOrCreateUser. rewrite !loadUser_eq, H.
  by destruct (users s !! toHexString address).
Qed.

(** Name the results of the two accessors, with what is known of them
    in a well-formed store; [wf] proves the store well-formed. *)
Ltac open_user wf :=
  match goal with
  | |- context [getOrCreateUser ?a ?s0] =>
      let user := fresh "user" in
      let s1 := fresh "s" in
      let E := fresh "E" in
      let Hcur := fresh "Hcur" in
      let Hid := fresh "Hid" in
      let Hwf1 := fresh "Hwf" in
      destruct (getOrCreateUser a s0) as [user s1] eqn:E;
      pose proof (f_equal fst E) as Hcur; cbn [fst] in Hcur;
      pose proof E as [Hwf1 Hid]%wfStore_getOrCreateUser; [|wf];
      apply getOrCreateUser_eq in E as [-> _]
  end.

Ltac open_stats wf :=
  match goal with
  | |- context [getOrCreateProtocolStats ?s0] =>
      let stats := fresh "stats" in
      let s1 := fresh "s" in
      let E := fresh "E" in
      let Hcur := fresh "Hcur" in
      let Hid := fresh "Hid" in
      let Hwf1 := fresh "Hwf" in
      destruct (getOrCreateProtocolStats s0) as [stats s1] eqn:E;
      pose proof (f_equal fst E) as Hcur; cbn [fst] in Hcur;
      pose proof E as [Hwf1 Hid]%wfStore_getOrCreateProtocolStats; [|wf];
      apply getOrCreateProtocolStats_eq in E as [-> _]
  end.

Lemma rotateLotteryPrizes_users (day : Z) (s : Store) :
  users (rotateLotteryPrizes day s) = users s.
Proof. by rewrite rotateLotteryPrizes_eq. Qed.

Lemma rotateLotteryPrizes_protocolStats (day : Z) (s : Store) :
  protocolStats (rotateLotteryPrizes day s) = protocolStats s.
Proof. by rewrite rotateLotteryPrizes_eq. Qed.

Lemma rotateLotteryPrizes_transactions (day : Z) (s : Store) :
  transactions (rotateLotteryPrizes day s) = transactions s.
Proof. by rewrite rotateLotteryPrizes_eq. Qed.

Lemma rotateLotteryPrizes_bids (day : Z) (s : Store) :
  bids (rotateLotteryPrizes day s) = bids s.
Proof. by rewrite rotateLotteryPrizes_eq. Qed.

Lemma rotateAuctionPrizes_users (day : Z) (s : Store) :
  users (rotateAuctionPrizes day s) = users s.
Proof. by rewrite rotateAuctionPrizes_eq. Qed.

Lemma rotateAuctionPrizes_protocolStats (day : Z) (s : Store) :
  protocolStats (rotateAuctionPrizes day s) = protocolStats s.
Proof. by rewrite rotateAuctionPrizes_eq. Qed.

Lemma rotateAuctionPrizes_transactions (day : Z) (s : Store) :
  transactions (rotateAuctionPrizes day s) = transactions s.
Proof. by rewrite rotateAuctionPrizes_eq. Qed.

Lemma rotateAuctionPrizes_bids (day : Z) (s : Store) :
  bids (rotateAuctionPrizes day s) = bids s.
Proof. by rewrite rotateAuctionPrizes_eq. Qed.

Lemma wfStore_rotateLotteryPrizes (day : Z) (s : Store) :
  wfStore s → wfStore (rotateLotteryPrizes day s).
Proof. apply wfStore_rotateLotteryLoop. Qed.

Lemma wfStore_rotateAuctionPrizes (day : Z) (s : Store) :
  wfStore s → wfStore (rotateAuctionPrizes day s).
Proof. apply wfStore_rotateAuctionLoop. Qed.

Lemma currentStats_eq (s : Store) : (getOrCreateProtocolStats s).1 = currentStats s.
Proof. reflexivity. Qed.

Lemma currentUser_eq (address : Bytes) (s : Store) :
  (getOrCreateUser address s).1 = currentUser address s.
Proof. reflexivity. Qed.

(** Rewrite with the frame equations in the context. *)
Ltac frames :=
  repeat match goal with
  | H : users _ = users _ |- _ => rewrite H
  | H : protocolStats _ = protocolStats _ |- _ => rewrite H
  | H : transactions _ = transactions _ |- _ => rewrite H
  | H : lotteryPrizes _ = lotteryPrizes _ |- _ => rewrite H
  | H : auctionPrizes _ = auctionPrizes _ |- _ => rewrite H
  | H : bids _ = bids _ |- _ => rewrite H
  end.

(** Name the store a rotation returns, keeping only that it is
    well-formed and which tables it shares with the store [s] it started
    from. *)
Ltac name_rotateTransactions s Hwf :=
  let s' := fresh "s" in
  pose proof (wfStore_rotateTransactions s Hwf);
  pose proof (rotateTransactions_users s);
  pose proof (rotateTransactions_protocolStats s);
  pose proof (rotateTransactions_lotteryPrizes s);
  pose proof (rotateTransactions_auctionPrizes s);
  pose proof (rotateTransactions_bids s);
  set (s' := rotateTransactions s) in *; clearbody s'.

Ltac name_rotateLotteryPrizes day s Hwf :=
  let s' := fresh "s" in
  pose proof (wfStore_rotateLotteryPrizes day s Hwf);
  pose proof (rotateLotteryPrizes_users day s);
  pose proof (rotateLotteryPrizes_protocolStats day s);
  pose proof (rotateLotteryPrizes_transactions day s);
  pose proof (rotateLotteryPrizes_auctionPrizes day s);
  pose proof (rotateLotteryPrizes_bids day s);
  set (s' := rotateLotteryPrizes day s) in *; clearbody s'.

Ltac name_rotateAuctionPrizes day s Hwf :=
  let s' := fresh "s" in
  pose proof (wfStore_rotateAuctionPrizes day s Hwf);
  pose proof (rotateAuctionPrizes_users day s);
  pose proof (rotateAuctionPrizes_protocolStats day s);
  pose proof (rotateAuctionPrizes_transactions day s);
  pose proof (rotateAuctionPrizes_lotteryPrizes day s);
  pose proof (rotateAuctionPrizes_bids day s);
  set (s' := rotateAuctionPrizes day s) in *; clearbody s'.

(** Replace the accessors' results by [currentStats] and [currentUser] of
    the store [s] the handler started from. *)
Ltac to_current s :=
  repeat match goal with
  | H : (getOrCreateProtocolStats ?s0).1 = ?stats |- _ =>
      rewrite (getOrCreateProtocolStats_fst s s0) in H
        by (autorewrite with store; frames; reflexivity);
      rewrite currentStats_eq in H;
      subst stats
  | H : (getOrCreateUser ?a ?s0).1 = ?user |- _ =>
      rewrite (getOrCreateUser_fst a s s0) in H
        by (autorewrite with store; frames; reflexivity);
      rewrite currentUser_eq in H;
      subst user
  end.

(** A store is the record of its six tables. *)
Lemma Store_eq_mk (s : Store)
    (u : gmap string User.t) (p : gmap string ProtocolStats.t)
    (t : gmap string Transaction.t) (l : gmap string LotteryPrize.t)
    (a : gmap string AuctionPrize.t) (b : gmap string Bid.t) :
  users s = u → protocolStats s = p → transactions s = t →
  lotteryPrizes s = l → auctionPrizes s = a → bids s = b →
  s = mkStore u p t l a b.
Proof. destruct s; cbn; congruence. Qed.

Ltac nf_finish :=
  apply Store_eq_mk; autorewrite with store; autorewrite with ids;
  repeat match goal with
  | H : User.id _ = toHexString _ |- _ => rewrite H
  | H : ProtocolStats.id _ = PROTOCOL_STATS_ID |- _ => rewrite H
  end;
  rewrite ?insert_insert_eq; frames; reflexivity.

Ltac wf_now :=
  repeat first
    [ assumption
    | apply wfStore_saveUser | apply wfStore_saveProtocolStats
    | apply wfStore_saveTransaction | apply wfStore_saveLotteryPrize
    | apply wfStore_saveAuctionPrize | apply wfStore_saveBid ].

Lemma handleMinted_nf (event : Minted.t) (s : Store) :
  wfStore s →
  let c := ProtocolStats.transactionCounter (currentStats s) in
  let to := Minted.to (params event) in
  handleMinted event s
  = mkStore
      (<[toHexString to := mintedUser event (currentUser to s)]> (users s))
      (<[PROTOCOL_STATS_ID := mintedStats event (currentStats s)]> (protocolStats s))
      (<[toString c := mintedRecord event c (toHexString to)]>
         (transactions (rotateTransactions s)))
      (lotteryPrizes s) (auctionPrizes s) (bids s).
Proof.
  intros Hwf c to. subst c to. unfold handleMinted. cbv zeta.
  name_rotateTransactions s Hwf.
  open_stats ltac:(wf_now). open_user ltac:(wf_now).
  unfold mintedUser, mintedStats, mintedRecord. cbv zeta.
  to_current s. nf_finish.
Qed.

Lemma handleRedeemed_nf (event : Redeemed.t) (s : Store) :
  wfStore s →
  let c := ProtocolStats.transactionCounter (currentStats s) in
  let from := Redeemed.from (params event) in
  handleRedeemed event s
  = mkStore
      (<[toHexString from := redeemedUser event (currentUser from s)]> (users s))
      (<[PROTOCOL_STATS_ID := redeemedStats event (currentStats s)]> (protocolStats s))
      (<[toString c := redeemedRecord event c (toHexString from)]>
         (transactions (rotateTransactions s)))
      (lotteryPrizes s) (auctionPrizes s) (bids s).
Proof.
  intros Hwf c from. subst c from. unfold handleRedeemed. cbv zeta.
  name_rotateTransactions s Hwf.
  open_stats ltac:(wf_now). open_user ltac:(wf_now).
  unfold redeemedUser, redeemedStats, redeemedRecord. cbv zeta.
  to_current s. nf_finish.
Qed.

Lemma handleTransfer_skip (event : Transfer.t) (s : Store) :
  feeTransfer event = false → handleTransfer event s = s.
Proof.
  unfold feeTransfer, handleTransfer. rewrite transfer_to_test, transfer_from_test.
  intros H.
  destruct (decide (Transfer.to (params event) = feesPoolAddress)) as [E1|E1].
  - rewrite (bool_decide_eq_true_2 _ E1) in H.
    destruct (decide (Transfer.from (params event) = zeroAddress)) as [E2|E2].
    + rewrite (bool_decide_eq_true_2 _ E2).
      destruct (bool_decide (Transfer.to (params event) ≠ feesPoolAddress)); reflexivity.
    + rewrite (bool_decide_eq_false_2 _ E2) in H. discriminate H.
  - rewrite (bool_decide_eq_true_2 (Transfer.to (params event) ≠ feesPoolAddress) E1).
    reflexivity.
Qed.

Lemma handleTransfer_nf (event : Transfer.t) (s : Store) :
  wfStore s → feeTransfer event = true →
  let c := ProtocolStats.transactionCounter (currentStats s) in
  let from := Transfer.from (params event) in
  handleTransfer event s
  = mkStore
      (<[toHexString from := transferUser (currentUser from s)]> (users s))
      (<[PROTOCOL_STATS_ID := transferStats (currentStats s)]> (protocolStats s))
      (<[toString c := transferRecord event c (toHexString from)]>
         (transactions (rotateTransactions s)))
      (lotteryPrizes s) (auctionPrizes s) (bids s).
Proof.
  intros Hwf H c from. subst c from. unfold feeTransfer in H.
  apply andb_true_iff in H as [Hto Hfrom].
  apply bool_decide_eq_true in Hto. apply negb_true_iff, bool_decide_eq_false in Hfrom.
  unfold handleTransfer. rewrite transfer_to_test, transfer_from_test.
  rewrite (bool_decide_eq_false_2 (Transfer.to (params event) ≠ feesPoolAddress))
    by (intros H; apply H, Hto).
  rewrite (bool_decide_eq_false_2 _ Hfrom).
  cbv zeta.
  name_rotateTransactions s Hwf.
  open_stats ltac:(wf_now). open_user ltac:(wf_now).
  unfold transferUser, transferStats, transferRecord. cbv zeta.
  to_current s. nf_finish.
Qed.

Lemma handleLotteryWon_nf (event : LotteryWon.t) (s : Store) :
  wfStore s →
  let day := LotteryWon.day (params event) in
  let winner := LotteryWon.winner (params event) in
  handleLotteryWon event s
  = mkStore
      (<[toHexString winner := lotteryWonUser event (currentUser winner s)]> (users s))
      (<[PROTOCOL_STATS_ID := lotteryWonStats event (currentStats s)]> (protocolStats s))
      (transactions s)
      (<[lotteryKey day := lotteryWonRecord event (toHexString winner)]>
         (lotteryPrizes (rotateLotteryPrizes day s)))
      (auctionPrizes s) (bids s).
Proof.
  intros Hwf day winner. subst day winner. unfold handleLotteryWon. cbv zeta.
  name_rotateLotteryPrizes (LotteryWon.day (params event)) s Hwf.
  open_user ltac:(wf_now). open_stats ltac:(wf_now).
  unfold lotteryWonUser, lotteryWonStats, lotteryWonRecord, lotteryKey. cbv zeta.
  to_current s. nf_finish.
Qed.

Lemma handleAuctionWon_nf (event : AuctionWon.t) (s : Store) :
  wfStore s →
  let day := AuctionWon.day (params event) in
  let winner := AuctionWon.winner (params event) in
  handleAuctionWon event s
  = mkStore
      (<[toHexString winner := auctionWonUser event (currentUser winner s)]> (users s))
      (<[PROTOCOL_STATS_ID := auctionWonStats event (currentStats s)]> (protocolStats s))
      (transactions s) (lotteryPrizes s)
      (<[auctionKey day := auctionWonRecord event (toHexString winner)]>
         (auctionPrizes (rotateAuctionPrizes day s)))
      (bids s).
Proof.
  intros Hwf day winner. subst day winner. unfold handleAuctionWon. cbv zeta.
  name_rotateAuctionPrizes (AuctionWon.day (params event)) s Hwf.
  open_user ltac:(wf_now). open_stats ltac:(wf_now).
  unfold auctionWonUser, auctionWonStats, auctionWonRecord, auctionKey. cbv zeta.
  to_current s. nf_finish.
Qed.

Lemma markLotteryClaimed_nf (event : PrizeClaimed.t) (p : LotteryPrize.t) (s : Store) :
  wfStore s →
  markLotteryClaimed event p s
  = mkStore (users s)
      (<[PROTOCOL_STATS_ID :=
           lotteryClaimedStats (PrizeClaimed.amount (params event)) (currentStats s)]>
         (protocolStats s))
      (transactions s)
      (<[LotteryPrize.id p := claimedLottery event p]> (lotteryPrizes s))
      (auctionPrizes s) (bids s).
Proof.
  intros Hwf. unfold markLotteryClaimed. cbv zeta.
  open_stats ltac:(wf_now).
  unfold lotteryClaimedStats, claimedLottery.
  to_current s. nf_finish.
Qed.

Lemma markAuctionClaimed_nf (event : PrizeClaimed.t) (p : AuctionPrize.t) (s : Store) :
  wfStore s →
  markAuctionClaimed event p s
  = mkStore (users s)
      (<[PROTOCOL_STATS_ID :=
           auctionClaimedStats (PrizeClaimed.amount (params event)) (currentStats s)]>
         (protocolStats s))
      (transactions s) (lotteryPrizes s)
      (<[AuctionPrize.id p := claimedAuction event p]> (auctionPrizes s))
      (bids s).
Proof.
  intros Hwf. unfold markAuctionClaimed. cbv zeta.
  open_stats ltac:(wf_now).
  unfold auctionClaimedStats, claimedAuction.
  to_current s. nf_finish.
Qed.

Lemma markLotteryExpired_nf (event : BeneficiaryFunded.t) (p : LotteryPrize.t) (s : Store) :
  wfStore s →
  markLotteryExpired event p s
  = mkStore (users s)
      (<[PROTOCOL_STATS_ID := lotteryExpiredStats (LotteryPrize.amount p) (currentStats s)]>
         (protocolStats s))
      (transactions s)
      (<[LotteryPrize.id p := expiredLottery event p]> (lotteryPrizes s))
      (auctionPrizes s) (bids s).
Proof.
  intros Hwf. unfold markLotteryExpired. cbv zeta.
  open_stats ltac:(wf_now).
  unfold lotteryExpiredStats, expiredLottery.
  to_current s. nf_finish.
Qed.

Lemma markAuctionExpired_nf (event : BeneficiaryFunded.t) (p : AuctionPrize.t) (s : Store) :
  wfStore s →
  markAuctionExpired event p s
  = mkStore (users s)
      (<[PROTOCOL_STATS_ID :=
           auctionExpiredStats (AuctionPrize.stratAmount p) (currentStats s)]>
         (protocolStats s))
      (transactions s) (lotteryPrizes s)
      (<[AuctionPrize.id p := expiredAuction event p]> (auctionPrizes s))
      (bids s).
Proof.
  intros Hwf. unfold markAuctionExpired. cbv zeta.
  open_stats ltac:(wf_now).
  unfold auctionExpiredStats, expiredAuction.
  to_current s. nf_finish.
Qed.

Lemma handleAuctionStarted_nf (event : AuctionStarted.t) (s : Store) :
  handleAuctionStarted event s
  = match loadAuctionPrize (auctionKey (AuctionStarted.day (params event))) s with
    | Some _ => s
    | None =>
        withAuctionPrizes
          <[auctionKey (AuctionStarted.day (params event)) := auctionPlaceholder event]> s
    end.
Proof. reflexivity. Qed.

Lemma handleBidPlaced_nf (event : BidPlaced.t) (s : Store) :
  wfStore s →
  handleBidPlaced event s
  = withBids <[bidKey (hash (transaction event)) (logIndex event) := bidRecord event]>
      (match loadAuctionPrize (auctionKey (BidPlaced.day (params event))) s with
       | Some auction =>
           withAuctionPrizes
             <[auctionKey (BidPlaced.day (params event)) := countedBid auction]> s
       | None => s
       end).
Proof.
  intros Hwf. unfold handleBidPlaced. cbv zeta.
  change (toString (BidPlaced.day (params event)) +:+ "-auction")
    with (auctionKey (BidPlaced.day (params event))).
  rewrite saveBid_eq. unfold bidRecord, bidKey. cbn [Bid.id].
  destruct (loadAuctionPrize _ s) as [auction|] eqn:E; [|reflexivity].
  rewrite saveAuctionPrize_eq. unfold countedBid. autorewrite with ids.
  rewrite loadAuctionPrize_eq in E.
  rewrite (wf_auctionPrizes s Hwf _ _ E). reflexivity.
Qed.

(** ** The aggregates after one event *)

Lemma currentStats_same (s s' : Store) :
  protocolStats s' = protocolStats s → currentStats s' = currentStats s.
Proof. apply getOrCreateProtocolStats_fst. Qed.

Lemma currentStats_inserted (stats : ProtocolStats.t)
    (u : gmap string User.t) (p : gmap string ProtocolStats.t)
    (t : gmap string Transaction.t) (l : gmap string LotteryPrize.t)
    (a : gmap string AuctionPrize.t) (b : gmap string Bid.t) :
  currentStats (mkStore u (<[PROTOCOL_STATS_ID := stats]> p) t l a b) = stats.
Proof. apply currentStats_lookup. cbn [protocolStats]. apply lookup_insert_eq. Qed.

Lemma currentStats_dispatch (ev : ContractEvent) (s : Store) :
  wfStore s → currentStats (dispatch ev s) = statsAfter ev s (currentStats s).
Proof.
  intros Hwf. destruct ev as [e|e|e|e|e|e|e|e|e]; cbn [dispatch statsAfter].
  - rewrite handleLotteryWon_nf by assumption. cbv zeta. apply currentStats_inserted.
  - rewrite handleAuctionWon_nf by assumption. cbv zeta. apply currentStats_inserted.
  - rewrite handlePrizeClaimed_scan. cbv zeta.
    destruct (scanLottery _ s) as [[j p]|].
    + rewrite markLotteryClaimed_nf by assumption. apply currentStats_inserted.
    + destruct (scanAuction _ s) as [[j p]|]; [|reflexivity].
      rewrite markAuctionClaimed_nf by assumption. apply currentStats_inserted.
  - rewrite handleBeneficiaryFunded_scan. cbv zeta.
    destruct (scanLottery _ s) as [[j p]|].
    + rewrite markLotteryExpired_nf by assumption. apply currentStats_inserted.
    + destruct (scanAuction _ s) as [[j p]|]; [|reflexivity].
      rewrite markAuctionExpired_nf by assumption. apply currentStats_inserted.
  - rewrite handleAuctionStarted_nf. destruct (loadAuctionPrize _ s); [reflexivity|].
    apply currentStats_same. autorewrite with store. reflexivity.
  - rewrite handleBidPlaced_nf by assumption. apply currentStats_same.
    destruct (loadAuctionPrize _ s); autorewrite with store; reflexivity.
  - rewrite handleMinted_nf by assumption. cbv zeta. apply currentStats_inserted.
  - rewrite handleRedeemed_nf by assumption. cbv zeta. apply currentStats_inserted.
  - destruct (feeTransfer e) eqn:E.
    + rewrite handleTransfer_nf by assumption. cbv zeta. apply currentStats_inserted.
    + rewrite handleTransfer_skip by assumption. reflexivity.
Qed.

Lemma users_dispatch (ev : ContractEvent) (s : Store) :
  wfStore s →
  users (dispatch ev s)
  = match eventUser ev with
    | Some address =>
        <[toHexString address := userAfter ev (currentUser address s)]> (users s)
    | None => users s
    end.
Proof.
  intros Hwf. destruct ev as [e|e|e|e|e|e|e|e|e]; cbn [dispatch eventUser userAfter].
  - rewrite handleLotteryWon_nf by assumption. reflexivity.
  - rewrite handleAuctionWon_nf by assumption. reflexivity.
  - rewrite handlePrizeClaimed_scan.
    destruct (scanLottery _ s) as [[j p]|].
    + rewrite markLotteryClaimed_nf by assumption. reflexivity.
    + destruct (scanAuction _ s) as [[j p]|]; [|reflexivity].
      rewrite markAuctionClaimed_nf by assumption. reflexivity.
  - rewrite handleBeneficiaryFunded_scan.
    destruct (scanLottery _ s) as [[j p]|].
    + rewrite markLotteryExpired_nf by assumption. reflexivity.
    + destruct (scanAuction _ s) as [[j p]|]; [|reflexivity].
      rewrite markAuctionExpired_nf by assumption. reflexivity.
  - rewrite handleAuctionStarted_nf. destruct (loadAuctionPrize _ s); [reflexivity|].
    autorewrite with store. reflexivity.
  - rewrite handleBidPlaced_nf by assumption.
    destruct (loadAuctionPrize _ s); autorewrite with store; reflexivity.
  - rewrite handleMinted_nf by assumption. reflexivity.
  - rewrite handleRedeemed_nf by assumption. reflexivity.
  - destruct (feeTransfer e) eqn:E.
    + rewrite handleTransfer_nf by assumption. reflexivity.
    + rewrite handleTransfer_skip by assumption. reflexivity.
Qed.

Lemma transactions_dispatch (ev : ContractEvent) (s : Store) :
  wfStore s →
  let c := ProtocolStats.transactionCounter (currentStats s) in
  transactions (dispatch ev s)
  = match transactionOf ev c with
    | Some tx => <[toString c := tx]> (transactions (rotateTransactions s))
    | None => transactions s
    end.
Proof.
  intros Hwf c. subst c.
  destruct ev as [e|e|e|e|e|e|e|e|e]; cbn [dispatch transactionOf].
  - rewrite handleLotteryWon_nf by assumption. reflexivity.
  - rewrite handleAuctionWon_nf by assumption. reflexivity.
  - rewrite handlePrizeClaimed_scan.
    destruct (scanLottery _ s) as [[j p]|].
    + rewrite markLotteryClaimed_nf by assumption. reflexivity.
    + destruct (scanAuction _ s) as [[j p]|]; [|reflexivity].
      rewrite markAuctionClaimed_nf by assumption. reflexivity.
  - rewrite handleBeneficiaryFunded_scan.
    destruct (scanLottery _ s) as [[j p]|].
    + rewrite markLotteryExpired_nf by assumption. reflexivity.
    + destruct (scanAuction _ s) as [[j p]|]; [|reflexivity].
      rewrite markAuctionExpired_nf by assumption. reflexivity.
  - rewrite handleAuctionStarted_nf. destruct (loadAuctionPrize _ s); [reflexivity|].
    autorewrite with store. reflexivity.
  - rewrite handleBidPlaced_nf by assumption.
    destruct (loadAuctionPrize _ s); autorewrite with store; reflexivity.
  - rewrite handleMinted_nf by assumption. reflexivity.
  - rewrite handleRedeemed_nf by assumption. reflexivity.
  - destruct (feeTransfer e) eqn:E.
    + rewrite handleTransfer_nf by assumption. reflexivity.
    + rewrite handleTransfer_skip by assumption. reflexivity.
Qed.

(** ** Totals and counters over the whole log *)

Lemma sumOver_snoc (f : ContractEvent → Z) (evs : list ContractEvent) (ev : ContractEvent) :
  sumOver f (evs ++ [ev]) = sumOver f evs + f ev.
Proof.
  unfold sumOver. induction evs as [|e evs IH]; cbn [foldr app]; [lia|].
  rewrite IH. lia.
Qed.

Lemma countOver_snoc (p : ContractEvent → bool) (evs : list ContractEvent) (ev : ContractEvent) :
  countOver p (evs ++ [ev]) = countOver p evs + (if p ev then 1 else 0).
Proof. apply sumOver_snoc. Qed.

Lemma countOver_nonneg (p : ContractEvent → bool) (evs : list ContractEvent) :
  0 ≤ countOver p evs.
Proof.
  unfold countOver, sumOver. induction evs as [|e evs IH]; cbn [foldr]; [lia|].
  destruct (p e); lia.
Qed.

Lemma wrap32_wrap32_succ (z : Z) : wrap32 (wrap32 z + 1) = wrap32 (z + 1).
Proof.
  unfold wrap32.
  replace ((z + 2 ^ 31) mod 2 ^ 32 - 2 ^ 31 + 1 + 2 ^ 31)
    with ((z + 2 ^ 31) mod 2 ^ 32 + 1) by lia.
  rewrite Zplus_mod_idemp_l. f_equal. f_equal. lia.
Qed.

Lemma currentStats_empty : currentStats emptyStore = newProtocolStats.
Proof.
  unfold currentStats, getOrCreateProtocolStats.
  rewrite loadProtocolStats_eq. cbn [protocolStats emptyStore].
  rewrite lookup_empty. reflexivity.
Qed.

Lemma currentUser_empty (address : Bytes) : currentUser address emptyStore = newUser address.
Proof.
  unfold currentUser, getOrCreateUser.
  rewrite loadUser_eq. cbn [users emptyStore].
  rewrite lookup_empty. reflexivity.
Qed.

Lemma wfStore_run (evs : list ContractEvent) : wfStore (processEvents evs emptyStore).
Proof. apply wfStore_processEvents, wfStore_empty. Qed.

Lemma stats_sum (g : ProtocolStats.t → Z) (f : ContractEvent → Z) :
  g newProtocolStats = 0 →
  (∀ ev s stats, g (statsAfter ev s stats) = g stats + f ev) →
  ∀ evs, g (currentStats (processEvents evs emptyStore)) = sumOver f evs.
Proof.
  intros Hnew Hstep evs. induction evs as [|ev evs IH] using rev_ind.
  - cbn [processEvents fold_left]. rewrite currentStats_empty. exact Hnew.
  - rewrite processEvents_snoc, currentStats_dispatch by apply wfStore_run.
    rewrite Hstep, IH, sumOver_snoc. reflexivity.
Qed.

Lemma stats_count (g : ProtocolStats.t → Z) (p : ContractEvent → bool) :
  g newProtocolStats = 0 →
  (∀ ev s stats, g (statsAfter ev s stats) = if p ev then wrap32 (g stats + 1) else g stats) →
  ∀ evs, g (currentStats (processEvents evs emptyStore)) = wrap32 (countOver p evs).
Proof.
  intros Hnew Hstep evs. induction evs as [|ev evs IH] using rev_ind.
  - cbn [processEvents fold_left]. rewrite currentStats_empty. exact Hnew.
  - rewrite processEvents_snoc, currentStats_dispatch by apply wfStore_run.
    rewrite Hstep, IH, countOver_snoc.
    destruct (p ev); [apply wrap32_wrap32_succ | f_equal; lia].
Qed.

(** Case analysis on what [statsAfter] depends on. *)
Ltac stats_cases :=
  let ev := fresh "ev" in
  let s := fresh "s" in
  let stats := fresh "stats" in
  intros ev s stats; destruct ev; cbn [statsAfter recorded isLotteryWon isAuctionWon];
  cbv zeta;
  repeat match goal with
  | |- context [scanLottery ?m ?s0] => destruct (scanLottery m s0) as [[? ?]|]
  | |- context [scanAuction ?m ?s0] => destruct (scanAuction m s0) as [[? ?]|]
  | |- context [feeTransfer ?e] => destruct (feeTransfer e)
  end.

(** X1. However the events of a log are interleaved, the five running
    totals of [ProtocolStats] that the win, mint and redeem handlers add
    to are the sums of the corresponding event amounts over the whole
    log: minted and redeemed token amounts, fees of mints and redeems,
    lottery prizes and auction prizes. *)
Theorem protocol_totals_are_sums (evs : list ContractEvent) :
  let stats := currentStats (processEvents evs emptyStore) in
  ProtocolStats.totalMinted stats = sumOver mintedOf evs
  ∧ ProtocolStats.totalRedeemed stats = sumOver redeemedOf evs
  ∧ ProtocolStats.totalFees stats = sumOver feeOf evs
  ∧ ProtocolStats.totalLotteryPrizes stats = sumOver lotteryPrizeOf evs
  ∧ ProtocolStats.totalAuctionPrizes stats = sumOver auctionPrizeOf evs.
Proof.
  cbv zeta. repeat split.
  - apply (stats_sum ProtocolStats.totalMinted); [reflexivity|].
    stats_cases; cbn; lia.
  - apply (stats_sum ProtocolStats.totalRedeemed); [reflexivity|].
    stats_cases; cbn; lia.
  - apply (stats_sum ProtocolStats.totalFees); [reflexivity|].
    stats_cases; cbn; lia.
  - apply (stats_sum ProtocolStats.totalLotteryPrizes); [reflexivity|].
    stats_cases; cbn; lia.
  - apply (stats_sum ProtocolStats.totalAuctionPrizes); [reflexivity|].
    stats_cases; cbn; lia.
Qed.

(** X2. The [i32] counters of [ProtocolStats] count events, wrapping
    around as [i32] addition does: [transactionCounter] and
    [totalTransactions] both hold the number of events that wrote a
    [Transaction] (mints, redeems and the fee-pool transfers that are
    not skipped), [lotteryCount] the number of lottery wins and
    [auctionCount] the number of auction wins. *)
Theorem protocol_counters_count_events (evs : list ContractEvent) :
  let stats := currentStats (processEvents evs emptyStore) in
  ProtocolStats.transactionCounter stats = wrap32 (countOver recorded evs)
  ∧ ProtocolStats.totalTransactions stats = wrap32 (countOver recorded evs)
  ∧ ProtocolStats.lotteryCount stats = wrap32 (countOver isLotteryWon evs)
  ∧ ProtocolStats.auctionCount stats = wrap32 (countOver isAuctionWon evs).
Proof.
  cbv zeta. repeat split.
  - apply (stats_count ProtocolStats.transactionCounter); [reflexivity|].
    stats_cases; reflexivity.
  - apply (stats_count ProtocolStats.totalTransactions); [reflexivity|].
    stats_cases; reflexivity.
  - apply (stats_count ProtocolStats.lotteryCount); [reflexivity|].
    stats_cases; reflexivity.
  - apply (stats_count ProtocolStats.auctionCount); [reflexivity|].
    stats_cases; reflexivity.
Qed.

Lemma currentUser_lookup (address : Bytes) (s : Store) (user : User.t) :
  users s !! toHexString address = Some user → currentUser address s = user.
Proof.
  intros H. unfold currentUser, getOrCreateUser. rewrite loadUser_eq, H. reflexivity.
Qed.

Lemma currentUser_same (address : Bytes) (s s' : Store) :
  users s' !! toHexString address = users s !! toHexString address →
  currentUser address s' = currentUser address s.
Proof.
  intros H. unfold currentUser, getOrCreateUser. rewrite !loadUser_eq, H.
  destruct (users s !! toHexString address); reflexivity.
Qed.

Lemma currentUser_dispatch (address : Bytes) (ev : ContractEvent) (s : Store) :
  wfStore s →
  currentUser address (dispatch ev s)
  = if about address ev then userAfter ev (currentUser address s)
    else currentUser address s.
Proof.
  intros Hwf. pose proof (users_dispatch ev s Hwf) as Hu. unfold about.
  destruct (eventUser ev) as [b|].
  - destruct (decide (b = address)) as [->|Hne].
    + rewrite bool_decide_eq_true_2 by reflexivity.
      apply currentUser_lookup. rewrite Hu. apply lookup_insert_eq.
    + rewrite bool_decide_eq_false_2 by congruence.
      apply currentUser_same. rewrite Hu. apply lookup_insert_ne.
      intros E. apply Hne. exact (inj toHexString _ _ E).
  - rewrite bool_decide_eq_false_2 by discriminate.
    apply currentUser_same. rewrite Hu. reflexivity.
Qed.

Lemma user_sum (address : Bytes) (g : User.t → Z) (f : ContractEvent → Z) :
  g (newUser address) = 0 →
  (∀ ev user, g (userAfter ev user) = g user + f ev) →
  ∀ evs,
    g (currentUser address (processEvents evs emptyStore)) = sumOver (onlyFor address f) evs.
Proof.
  intros Hnew Hstep evs. induction evs as [|ev evs IH] using rev_ind.
  - cbn [processEvents fold_left]. rewrite currentUser_empty. exact Hnew.
  - rewrite processEvents_snoc, currentUser_dispatch by apply wfStore_run.
    rewrite sumOver_snoc. unfold onlyFor at 2.
    destruct (about address ev); [rewrite Hstep|]; rewrite IH; lia.
Qed.

Lemma user_count (address : Bytes) (g : User.t → Z) (p : ContractEvent → bool) :
  g (newUser address) = 0 →
  (∀ ev user, eventUser ev ≠ None →
     g (userAfter ev user) = if p ev then wrap32 (g user + 1) else g user) →
  ∀ evs,
    g (currentUser address (processEvents evs emptyStore))
    = wrap32 (countOver (λ ev, about address ev && p ev) evs).
Proof.
  intros Hnew Hstep evs. induction evs as [|ev evs IH] using rev_ind.
  - cbn [processEvents fold_left]. rewrite currentUser_empty. exact Hnew.
  - rewrite processEvents_snoc, currentUser_dispatch by apply wfStore_run.
    rewrite countOver_snoc.
    destruct (about address ev) eqn:Ea; cbn [andb].
    + rewrite Hstep
        by (unfold about in Ea; apply bool_decide_eq_true in Ea; congruence).
      rewrite IH. destruct (p ev); [apply wrap32_wrap32_succ | f_equal; lia].
    + rewrite IH. f_equal. lia.
Qed.

(** X3. The totals of every [User] entity are the sums, over the whole
    log, of the amounts of the events about that address: tokens minted
    to it, tokens it redeemed, lottery prizes it won, auction prizes it
    won and what it paid for them. *)
Theorem user_totals_are_sums (address : Bytes) (evs : list ContractEvent) :
  let user := currentUser address (processEvents evs emptyStore) in
  User.totalMinted user = sumOver (onlyFor address mintedOf) evs
  ∧ User.totalRedeemed user = sumOver (onlyFor address redeemedOf) evs
  ∧ User.totalLotteryWinnings user = sumOver (onlyFor address lotteryPrizeOf) evs
  ∧ User.totalAuctionWinnings user = sumOver (onlyFor address auctionPrizeOf) evs
  ∧ User.totalAuctionSpent user = sumOver (onlyFor address auctionPaidOf) evs.
Proof.
  cbv zeta. repeat split.
  - apply (user_sum address User.totalMinted); [reflexivity|].
    intros [] user; cbn; lia.
  - apply (user_sum address User.totalRedeemed); [reflexivity|].
    intros [] user; cbn; lia.
  - apply (user_sum address User.totalLotteryWinnings); [reflexivity|].
    intros [] user; cbn; lia.
  - apply (user_sum address User.totalAuctionWinnings); [reflexivity|].
    intros [] user; cbn; lia.
  - apply (user_sum address User.totalAuctionSpent); [reflexivity|].
    intros [] user; cbn; lia.
Qed.

(** X4. The [i32] counters of every [User] entity count the events about
    its address, wrapping around as [i32] addition does: lottery wins,
    auction wins, and the events that wrote a [Transaction] for it. *)
Theorem user_counters_count_events (address : Bytes) (evs : list ContractEvent) :
  let user := currentUser address (processEvents evs emptyStore) in
  User.lotteryWinCount user
  = wrap32 (countOver (λ ev, about address ev && isLotteryWon ev) evs)
  ∧ User.auctionWinCount user
    = wrap32 (countOver (λ ev, about address ev && isAuctionWon ev) evs)
  ∧ User.transactionCount user
    = wrap32 (countOver (λ ev, about address ev && recorded ev) evs).
Proof.
  cbv zeta. repeat split.
  - apply (user_count address User.lotteryWinCount); [reflexivity|].
    intros [] user Hev; reflexivity.
  - apply (user_count address User.auctionWinCount); [reflexivity|].
    intros [] user Hev; reflexivity.
  - apply (user_count address User.transactionCount); [reflexivity|].
    intros [e|e|e|e|e|e|e|e|e] user Hev; try reflexivity.
    cbn [eventUser] in Hev. cbn [recorded userAfter].
    destruct (feeTransfer e); [reflexivity | contradiction].
Qed.

(** ** The sort of [rotateTransactions] *)

Lemma compareTimestamp_below (a b : Transaction.t) :
  (compareTimestamp a b <? 0) = true ↔ Transaction.timestamp a < Transaction.timestamp b.
Proof.
  unfold compareTimestamp.
  destruct (Transaction.timestamp a <? Transaction.timestamp b) eqn:E1.
  - split; [lia | reflexivity].
  - destruct (Transaction.timestamp a >? Transaction.timestamp b); split; lia.
Qed.

Lemma insertLeft_Permutation {A} (cmp : A → A → Z) (a : A) (l : list A) :
  insertLeft cmp a l ≡ₚ a :: l.
Proof.
  induction l as [|b l IH]; cbn [insertLeft]; [reflexivity|].
  destruct (cmp a b <? 0); [|reflexivity].
  rewrite IH. apply Permutation_swap.
Qed.

Lemma sortPrefix_Permutation {A} (cmp : A → A → Z) (l acc : list A) :
  fold_left (λ revPrefix a, insertLeft cmp a revPrefix) l acc ≡ₚ (l ++ acc)%list.
Proof.
  revert acc. induction l as [|a l IH]; intros acc; cbn [fold_left app]; [reflexivity|].
  rewrite IH, insertLeft_Permutation. symmetry. apply Permutation_middle.
Qed.

Lemma sort_Permutation {A} (cmp : A → A → Z) (l : list A) : sort cmp l ≡ₚ l.
Proof.
  unfold sort. rewrite reverse_Permutation, sortPrefix_Permutation, app_nil_r. reflexivity.
Qed.

Lemma insertLeft_sorted (a : Transaction.t) (l : list Transaction.t) :
  StronglySorted (flip notYounger) l →
  StronglySorted (flip notYounger) (insertLeft compareTimestamp a l).
Proof.
  induction l as [|b l IH]; intros Hl; cbn [insertLeft].
  - repeat constructor.
  - apply StronglySorted_inv in Hl as [Hl Hb].
    destruct (compareTimestamp a b <? 0) eqn:E.
    + apply compareTimestamp_below in E. constructor; [by apply IH|].
      rewrite insertLeft_Permutation. constructor; [|assumption].
      unfold flip, notYounger. lia.
    + assert (Transaction.timestamp b ≤ Transaction.timestamp a) as Hba.
      { destruct (decide (Transaction.timestamp a < Transaction.timestamp b)) as [Hlt|]; [|lia].
        apply compareTimestamp_below in Hlt. congruence. }
      constructor; [by constructor|]. constructor; [exact Hba|].
      eapply Forall_impl; [exact Hb|]. unfold flip, notYounger. intros; lia.
Qed.

Lemma sortPrefix_sorted (l acc : list Transaction.t) :
  StronglySorted (flip notYounger) acc →
  StronglySorted (flip notYounger)
    (fold_left (λ revPrefix a, insertLeft compareTimestamp a revPrefix) l acc).
Proof.
  revert acc. induction l as [|a l IH]; intros acc Hacc; cbn [fold_left]; [assumption|].
  by apply IH, insertLeft_sorted.
Qed.

Lemma StronglySorted_reverse {A} (R : relation A) (l : list A) :
  StronglySorted (flip R) l → StronglySorted R (reverse l).
Proof.
  induction l as [|a l IH]; intros Hl; [constructor|].
  apply StronglySorted_inv in Hl as [Hl Ha]. rewrite reverse_cons.
  apply StronglySorted_app_2; [|by apply IH|repeat constructor].
  intros x1 x2 Hx1 Hx2. rewrite elem_of_reverse in Hx1.
  rewrite list_elem_of_singleton in Hx2. subst x2.
  rewrite Forall_forall in Ha. exact (Ha x1 Hx1).
Qed.

Lemma sort_sorted (l : list Transaction.t) :
  StronglySorted notYounger (sort compareTimestamp l).
Proof. apply StronglySorted_reverse, sortPrefix_sorted. constructor. Qed.

Lemma stampedAt_insertLeft (ts : BigInt) (a : Transaction.t) (l : list Transaction.t) :
  stampedAt ts (insertLeft compareTimestamp a l) = stampedAt ts (a :: l).
Proof.
  unfold stampedAt. induction l as [|b l IH]; cbn [insertLeft]; [reflexivity|].
  destruct (compareTimestamp a b <? 0) eqn:E; [|reflexivity].
  apply compareTimestamp_below in E.
  rewrite (filter_cons _ b), IH, !(filter_cons _ a), (filter_cons _ b).
  repeat case_decide; try reflexivity. lia.
Qed.

Lemma stampedAt_sortPrefix (ts : BigInt) (l acc : list Transaction.t) :
  stampedAt ts (fold_left (λ revPrefix a, insertLeft compareTimestamp a revPrefix) l acc)
  = (reverse (stampedAt ts l) ++ stampedAt ts acc)%list.
Proof.
  revert acc. induction l as [|a l IH]; intros acc; cbn [fold_left]; [reflexivity|].
  rewrite IH, stampedAt_insertLeft. unfold stampedAt.
  rewrite !(filter_cons _ a). case_decide; [|reflexivity].
  rewrite reverse_cons, <- app_assoc. reflexivity.
Qed.

Lemma sort_stable (ts : BigInt) (l : list Transaction.t) :
  stampedAt ts (sort compareTimestamp l) = stampedAt ts l.
Proof.
  unfold sort, stampedAt at 1. rewrite filter_reverse.
  fold (stampedAt ts (fold_left (λ revPrefix a, insertLeft compareTimestamp a revPrefix) l [])).
  rewrite stampedAt_sortPrefix. unfold stampedAt at 2. rewrite filter_nil, app_nil_r.
  apply reverse_involutive.
Qed.

(** X5. The sort that [rotateTransactions] applies to the probed
    transactions, with its comparator on timestamps, returns the same
    transactions in non-decreasing order of timestamp, and is stable:
    transactions with equal timestamps keep the order in which they were
    probed. *)
Theorem sort_orders_by_timestamp (l : list Transaction.t) :
  sort compareTimestamp l ≡ₚ l
  ∧ StronglySorted notYounger (sort compareTimestamp l)
  ∧ ∀ ts, stampedAt ts (sort compareTimestamp l) = stampedAt ts l.
Proof.
  split; [apply sort_Permutation|]. split; [apply sort_sorted|].
  intros ts. apply sort_stable.
Qed.

(** ** When the rotation of transactions deletes, and what *)

Lemma probeTransactions_short (fuel : nat) (j : Z) (s : Store) :
  0 ≤ j < 2 ^ 31 → loadTransaction (toString j) s = None →
  Z.of_nat (length (probeTransactions fuel 0 s)) ≤ j.
Proof.
  intros Hj Hnone.
  destruct (decide (Z.of_nat (length (probeTransactions fuel 0 s)) ≤ j)) as [|Hgt];
    [assumption|].
  destruct (lookup_lt_is_Some_2 (probeTransactions fuel 0 s) (Z.to_nat j)) as [tx Htx];
    [lia|].
  apply (probeTransactions_lookup fuel 0 j s) in Htx as [Hlt _]; [lia|lia|lia|assumption].
Qed.

Lemma rotateTransactions_noop (j : Z) (s : Store) :
  0 ≤ j < MAX_TRANSACTIONS → loadTransaction (toString j) s = None →
  rotateTransactions s = s.
Proof.
  unfold MAX_TRANSACTIONS. intros Hj Hnone. unfold rotateTransactions.
  pose proof (probeTransactions_short (S (size (transactions s))) j s ltac:(lia) Hnone)
    as Hshort.
  unfold MAX_TRANSACTIONS.
  destruct (Z.of_nat (length (probeTransactions (S (size (transactions s))) 0 s)) >=? 10)
    eqn:E; [lia | reflexivity].
Qed.

Lemma present_keys_size (n : nat) (s : Store) :
  (∀ k, (k < n)%nat → is_Some (loadTransaction (toString (Z.of_nat k)) s)) →
  (n ≤ size (transactions s))%nat.
Proof.
  intros Hall.
  set (keys := (λ k : nat, toString (Z.of_nat k)) <$> seq 0 n).
  assert (NoDup keys) as Hnd.
  { apply NoDup_fmap_2; [|apply NoDup_seq].
    intros a b E. apply toString_inj in E. lia. }
  assert (list_to_set keys ⊆ dom (transactions s)) as Hsub.
  { intros x Hx. apply elem_of_list_to_set, list_elem_of_fmap in Hx as (k & -> & Hk).
    apply elem_of_seq in Hk. apply elem_of_dom.
    rewrite <- loadTransaction_eq. apply (Hall k). lia. }
  apply subseteq_size in Hsub.
  rewrite size_list_to_set, size_dom in Hsub by assumption.
  subst keys. rewrite length_fmap, length_seq in Hsub. exact Hsub.
Qed.

Lemma probeTransactions_exact (fuel : nat) (i m : Z) (s : Store) :
  0 ≤ i ≤ m → m < 2 ^ 31 →
  (∀ k, i ≤ k < m → is_Some (loadTransaction (toString k) s)) →
  loadTransaction (toString m) s = None →
  m - i < Z.of_nat fuel →
  length (probeTransactions fuel i s) = Z.to_nat (m - i).
Proof.
  revert i. induction fuel as [|fuel IH]; intros i Hi Hm Hall Hnone Hfuel; [lia|].
  cbn [probeTransactions].
  destruct (decide (i = m)) as [->|Hne].
  - rewrite Hnone. cbn [length]. lia.
  - destruct (Hall i ltac:(lia)) as [tx Htx]. rewrite Htx. cbn [length].
    rewrite wrap32_small by lia.
    rewrite IH; [lia|lia|lia| |assumption|lia].
    intros k Hk. apply Hall. lia.
Qed.

Lemma filter_head {A} (P : A → Prop) `{∀ x, Decision (P x)} (l r : list A) (x : A) :
  filter P l = x :: r →
  ∃ l1 l2, l = (l1 ++ x :: l2)%list ∧ Forall (λ y, ¬ P y) l1.
Proof.
  induction l as [|a l IH]; intros Hf; [discriminate|].
  rewrite filter_cons in Hf. destruct (decide (P a)) as [Ha|Ha].
  - injection Hf as -> _. exists [], l. split; [reflexivity | constructor].
  - destruct (IH Hf) as (l1 & l2 & -> & Hl1).
    exists (a :: l1), l2. split; [reflexivity | by constructor].
Qed.

Lemma rotateTransactions_at_cap (s : Store) :
  wfStore s →
  (∀ j, 0 ≤ j < MAX_TRANSACTIONS → is_Some (loadTransaction (toString j) s)) →
  loadTransaction (toString MAX_TRANSACTIONS) s = None →
  ∃ j oldest,
    0 ≤ j < MAX_TRANSACTIONS
    ∧ loadTransaction (toString j) s = Some oldest
    ∧ transactions (rotateTransactions s) = delete (toString j) (transactions s)
    ∧ (∀ i tx, 0 ≤ i < MAX_TRANSACTIONS → loadTransaction (toString i) s = Some tx →
         Transaction.timestamp oldest ≤ Transaction.timestamp tx)
    ∧ (∀ i tx, 0 ≤ i < j → loadTransaction (toString i) s = Some tx →
         Transaction.timestamp oldest < Transaction.timestamp tx).
Proof.
  unfold MAX_TRANSACTIONS. intros Hwf Hall Hnone.
  set (l := probeTransactions (S (size (transactions s))) 0 s).
  assert (10 ≤ size (transactions s))%nat as Hsize.
  { apply present_keys_size. intros k Hk. apply Hall. lia. }
  assert (length l = 10%nat) as Hlen.
  { subst l. rewrite (probeTransactions_exact _ 0 10 s); [reflexivity|lia|lia| |assumption|lia].
    intros k Hk. apply Hall. lia. }
  assert (∀ k tx, l !! k = Some tx →
            Z.of_nat k < 10 ∧ loadTransaction (toString (Z.of_nat k)) s = Some tx) as Hl.
  { intros k tx Hk.
    apply (probeTransactions_lookup _ 0 10 s k tx) in Hk; [|lia|lia|assumption].
    by rewrite Z.add_0_l in Hk. }
  assert (∀ i tx, 0 ≤ i < 10 → loadTransaction (toString i) s = Some tx →
            l !! Z.to_nat i = Some tx) as Hl'.
  { intros i tx Hi Htx.
    destruct (lookup_lt_is_Some_2 l (Z.to_nat i)) as [tx' Htx']; [lia|].
    pose proof (Hl _ _ Htx') as [_ Hload]. rewrite Z2Nat.id in Hload by lia. congruence. }
  pose proof (sort_Permutation compareTimestamp l) as Hperm.
  pose proof (sort_sorted l) as Hsorted.
  pose proof (sort_length compareTimestamp l) as Hslen.
  destruct (sort compareTimestamp l) as [|x rest] eqn:Esort;
    [rewrite Hlen in Hslen; discriminate|].
  assert (x ∈ l) as Hx by (rewrite <- Hperm; by left).
  apply StronglySorted_inv in Hsorted as [_ Hmin]. rewrite Forall_forall in Hmin.
  assert (∀ tx, tx ∈ l → Transaction.timestamp x ≤ Transaction.timestamp tx) as Hmin'.
  { intros tx Htx. rewrite <- Hperm in Htx. apply elem_of_cons in Htx as [->|Htx]; [lia|].
    exact (Hmin tx Htx). }
  pose proof (sort_stable (Transaction.timestamp x) l) as Hstable.
  rewrite Esort in Hstable. unfold stampedAt in Hstable.
  rewrite filter_cons_True in Hstable by reflexivity. symmetry in Hstable.
  apply filter_head in Hstable as (l1 & l2 & El & Hl1). rewrite Forall_forall in Hl1.
  set (j := length l1).
  assert (l !! j = Some x) as Hj
    by (rewrite El; subst j; rewrite lookup_app_r, Nat.sub_diag by lia; reflexivity).
  pose proof (Hl _ _ Hj) as [Hj10 Hjload].
  exists (Z.of_nat j), x. split; [lia|]. split; [assumption|]. split.
  - unfold rotateTransactions. fold l. rewrite Hlen. unfold MAX_TRANSACTIONS.
    change (Z.of_nat 10 >=? 10) with true. cbv iota.
    rewrite removeAll_eq, transactions_withTransactions, Esort.
    rewrite Hslen, Hlen.
    change (Z.to_nat (Z.of_nat 10 - 10 + 1)) with 1%nat.
    cbn [take]. unfold deleteAll. cbn [fold_left].
    rewrite loadTransaction_eq in Hjload.
    rewrite (wf_transactions s Hwf _ _ Hjload). reflexivity.
  - split.
    + intros i tx Hi Htx. apply Hmin'. apply list_elem_of_lookup.
      exists (Z.to_nat i). by apply Hl'.
    + intros i tx Hi Htx.
      assert (l !! Z.to_nat i = Some tx) as Hitx by (apply Hl'; [lia | assumption]).
      assert (tx ∈ l1) as Hin.
      { rewrite El in Hitx. rewrite lookup_app_l in Hitx by (subst j; lia).
        apply list_elem_of_lookup. by exists (Z.to_nat i). }
      pose proof (Hl1 _ Hin) as Hne.
      assert (tx ∈ l) as Hinl by (apply list_elem_of_lookup; by exists (Z.to_nat i)).
      pose proof (Hmin' _ Hinl). lia.
Qed.

(** X6. The rotation deletes nothing unless the ten keys ["0"] to ["9"]
    are all taken: as soon as one of them is missing, the probe stops
    before ten transactions are collected and the store is returned
    unchanged, however many transactions live under larger keys. *)
Theorem rotation_needs_ten_contiguous_keys (j : Z) (s : Store) :
  0 ≤ j < MAX_TRANSACTIONS → loadTransaction (toString j) s = None →
  rotateTransactions s = s.
Proof. apply rotateTransactions_noop. Qed.

Lemma rotation_needs_ten_contiguous_keys_witness :
  let s := processEvents (mints 12) emptyStore in
  liveTransactions s = 11%nat ∧ rotateTransactions s = s.
Proof.
  intros s. split; [vm_compute; reflexivity|].
  apply (rotation_needs_ten_contiguous_keys 0 s).
  - unfold MAX_TRANSACTIONS. lia.
  - vm_compute. reflexivity.
Defined.

(** X7. With the ten keys ["0"] to ["9"] taken and key ["10"] free,
    the rotation deletes exactly one transaction and changes nothing
    else: one with the smallest timestamp among the ten and, when several
    share that timestamp, the one under the smallest key. *)
Theorem rotation_evicts_the_oldest (s : Store) :
  wfStore s →
  (∀ j, 0 ≤ j < MAX_TRANSACTIONS → is_Some (loadTransaction (toString j) s)) →
  loadTransaction (toString MAX_TRANSACTIONS) s = None →
  ∃ j oldest,
    0 ≤ j < MAX_TRANSACTIONS
    ∧ loadTransaction (toString j) s = Some oldest
    ∧ rotateTransactions s = withTransactions (delete (toString j)) s
    ∧ (∀ i tx, 0 ≤ i < MAX_TRANSACTIONS → loadTransaction (toString i) s = Some tx →
         Transaction.timestamp oldest ≤ Transaction.timestamp tx)
    ∧ (∀ i tx, 0 ≤ i < j → loadTransaction (toString i) s = Some tx →
         Transaction.timestamp oldest < Transaction.timestamp tx).
Proof.
  intros Hwf Hall Hnone.
  destruct (rotateTransactions_at_cap s Hwf Hall Hnone) as (j & oldest & Hj & Hl & Ht & Hmin & Hfirst).
  exists j, oldest. repeat split; try assumption; try lia.
  rewrite rotateTransactions_eq, Ht. reflexivity.
Qed.

Lemma rotation_evicts_the_oldest_witness :
  let s := processEvents (mints 10) emptyStore in
  ∃ j oldest,
    loadTransaction (toString j) s = Some oldest
    ∧ rotateTransactions s = withTransactions (delete (toString j)) s.
Proof.
  intros s.
  destruct (rotation_evicts_the_oldest s) as (j & oldest & _ & Hl & Hr & _).
  - apply wfStore_processEvents, wfStore_empty.
  - unfold MAX_TRANSACTIONS. intros j Hj.
    assert (j = 0 ∨ j = 1 ∨ j = 2 ∨ j = 3 ∨ j = 4 ∨ j = 5 ∨ j = 6 ∨ j = 7 ∨ j = 8 ∨ j = 9)
      as Hcases by lia.
    repeat destruct Hcases as [->|Hcases]; try subst j; vm_compute; eauto.
  - vm_compute. reflexivity.
  - exists j, oldest. split; assumption.
Defined.

(** ** The number of live transactions *)

Lemma transactionCounter_statsAfter (ev : ContractEvent) (s : Store) (stats : ProtocolStats.t) :
  ProtocolStats.transactionCounter (statsAfter ev s stats)
  = if recorded ev then wrap32 (ProtocolStats.transactionCounter stats + 1)
    else ProtocolStats.transactionCounter stats.
Proof. revert ev s stats. stats_cases; reflexivity. Qed.

Lemma transactionOf_recorded (ev : ContractEvent) (c : Z) :
  recorded ev = true → is_Some (transactionOf ev c).
Proof.
  destruct ev as [e|e|e|e|e|e|e|e|e]; cbn [recorded transactionOf]; try discriminate; eauto.
  intros ->. eauto.
Qed.

Lemma transactionOf_not_recorded (ev : ContractEvent) (c : Z) :
  recorded ev = false → transactionOf ev c = None.
Proof.
  destruct ev as [e|e|e|e|e|e|e|e|e]; cbn [recorded transactionOf]; try discriminate;
    try reflexivity.
  intros ->. reflexivity.
Qed.

Lemma transactionsInv_empty : transactionsInv 0 emptyStore.
Proof.
  unfold transactionsInv. rewrite currentStats_empty.
  split; [reflexivity|]. split.
  { intros k tx H. rewrite loadTransaction_eq in H. cbn [transactions emptyStore] in H.
    rewrite lookup_empty in H. discriminate. }
  split; [intros _ j Hj; lia|]. split; [unfold MAX_TRANSACTIONS; lia|].
  unfold liveTransactions. cbn [transactions emptyStore]. rewrite map_size_empty.
  reflexivity.
Qed.

(** A record written under the counter value [n] over a table that holds
    keys below [n] only. *)
Lemma transactionsInv_fresh (n : Z) (s : Store) :
  (∀ k tx, loadTransaction k s = Some tx → ∃ j, k = toString j ∧ 0 ≤ j < n) →
  loadTransaction (toString n) s = None.
Proof.
  intros Hkeys. destruct (loadTransaction (toString n) s) as [tx'|] eqn:E; [|reflexivity].
  destruct (Hkeys _ _ E) as (j & Hj%toString_inj & Hlt). lia.
Qed.

Lemma transactionsInv_recorded (n : Z) (s s' : Store) (tx : Transaction.t) :
  wfStore s → 0 ≤ n → n + 1 < 2 ^ 31 →
  transactionsInv n s →
  ProtocolStats.transactionCounter (currentStats s') = n + 1 →
  transactions s' = <[toString n := tx]> (transactions (rotateTransactions s)) →
  transactionsInv (n + 1) s'.
Proof.
  unfold transactionsInv, liveAfter, liveTransactions, MAX_TRANSACTIONS.
  intros Hwf Hn Hbound (Hc & Hkeys & Hfull & Hgap & Hsize) Hc' Ht'.
  pose proof (transactionsInv_fresh n s Hkeys) as Hfree.
  setoid_rewrite loadTransaction_eq. rewrite Ht'.
  setoid_rewrite loadTransaction_eq in Hkeys.
  setoid_rewrite loadTransaction_eq in Hfull.
  setoid_rewrite loadTransaction_eq in Hgap.
  assert (∀ j, j ≠ n → toString n ≠ toString j) as Hne
    by (intros j Hj E%toString_inj; congruence).
  split; [assumption|].
  destruct (decide (n = 10)) as [->|Hn10].
  - (* the cap is reached: one record goes *)
    destruct (rotateTransactions_at_cap s Hwf) as (j & oldest & Hj & Hold & Hrot & _).
    { intros j Hj. rewrite loadTransaction_eq. apply Hfull; unfold MAX_TRANSACTIONS in *; lia. }
    { exact Hfree. }
    unfold MAX_TRANSACTIONS in Hj. rewrite Hrot. rewrite loadTransaction_eq in Hold.
    split.
    { intros k tx0 Hk. destruct (decide (k = toString 10)) as [->|Hk10].
      - exists 10. split; [reflexivity | lia].
      - rewrite lookup_insert_ne in Hk by congruence.
        apply lookup_delete_Some in Hk as [_ Hk].
        destruct (Hkeys _ _ Hk) as (i & -> & Hi). exists i. split; [reflexivity | lia]. }
    split; [lia|]. split.
    { intros _. exists j. split; [lia|].
      rewrite lookup_insert_ne by (apply Hne; lia). apply lookup_delete_eq. }
    rewrite map_size_insert_None.
    + rewrite map_size_delete_Some by eauto.
      change (10 + 1 <=? 10) with false. cbv iota.
      change (10 <=? 10) with true in Hsize. cbv iota in Hsize. lia.
    + rewrite lookup_delete_ne by (intros E; apply (Hne j); [lia | by symmetry]).
      rewrite <- loadTransaction_eq. exact Hfree.
  - (* below or beyond the cap: nothing goes *)
    assert (rotateTransactions s = s) as ->.
    { destruct (decide (n < 10)) as [Hlt|Hge].
      - apply (rotateTransactions_noop n); [unfold MAX_TRANSACTIONS; lia | exact Hfree].
      - destruct Hgap as (j & Hj & Hnone); [lia|].
        apply (rotateTransactions_noop j); [unfold MAX_TRANSACTIONS; lia|].
        rewrite loadTransaction_eq. exact Hnone. }
    rewrite loadTransaction_eq in Hfree.
    split.
    { intros k tx0 Hk. destruct (decide (k = toString n)) as [->|Hkn].
      - exists n. split; [reflexivity | lia].
      - rewrite lookup_insert_ne in Hk by congruence.
        destruct (Hkeys _ _ Hk) as (i & -> & Hi). exists i. split; [reflexivity | lia]. }
    split.
    { intros Hle j Hj. destruct (decide (j = n)) as [->|Hjn].
      - rewrite lookup_insert_eq. eauto.
      - rewrite lookup_insert_ne by (by apply Hne). apply Hfull; lia. }
    split.
    { intros Hgt. destruct Hgap as (j & Hj & Hnone); [lia|].
      exists j. split; [lia|]. rewrite lookup_insert_ne by (apply Hne; lia). exact Hnone. }
    rewrite map_size_insert_None by exact Hfree.
    destruct (n <=? 10) eqn:E1, (n + 1 <=? 10) eqn:E2; lia.
Qed.

Lemma transactionsInv_dispatch (n : Z) (ev : ContractEvent) (s : Store) :
  wfStore s → 0 ≤ n →
  n + (if recorded ev then 1 else 0) < 2 ^ 31 →
  transactionsInv n s →
  transactionsInv (n + (if recorded ev then 1 else 0)) (dispatch ev s).
Proof.
  intros Hwf Hn Hbound Hinv.
  pose proof (currentStats_dispatch ev s Hwf) as Hstats.
  pose proof (transactions_dispatch ev s Hwf) as Htx. cbv zeta in Htx.
  pose proof Hinv as (Hc & _).
  apply (f_equal ProtocolStats.transactionCounter) in Hstats.
  rewrite transactionCounter_statsAfter, Hc in Hstats. rewrite Hc in Htx.
  destruct (recorded ev) eqn:Erec.
  - destruct (transactionOf_recorded ev n Erec) as [tx Etx]. rewrite Etx in Htx.
    rewrite wrap32_small in Hstats by lia.
    by apply (transactionsInv_recorded n s _ tx).
  - rewrite (transactionOf_not_recorded ev n Erec) in Htx. rewrite Z.add_0_r.
    destruct Hinv as (_ & Hkeys & Hfull & Hgap & Hsize).
    unfold transactionsInv, liveTransactions in *.
    setoid_rewrite loadTransaction_eq. rewrite Htx.
    setoid_rewrite loadTransaction_eq in Hkeys.
    setoid_rewrite loadTransaction_eq in Hfull.
    setoid_rewrite loadTransaction_eq in Hgap.
    repeat split; assumption.
Qed.

Lemma transactionsInv_run (evs : list ContractEvent) :
  countOver recorded evs < 2 ^ 31 →
  transactionsInv (countOver recorded evs) (processEvents evs emptyStore).
Proof.
  induction evs as [|ev evs IH] using rev_ind; intros Hbound.
  - apply transactionsInv_empty.
  - rewrite countOver_snoc in *. rewrite processEvents_snoc.
    pose proof (countOver_nonneg recorded evs).
    apply transactionsInv_dispatch; [apply wfStore_run | assumption | assumption |].
    apply IH. destruct (recorded ev); lia.
Qed.

(** X8. From the empty store, after a log in which [n] events wrote a
    transaction (mints, redeems and recorded fee-pool transfers, however
    interleaved with other events and whatever their timestamps), the
    store holds [n] transactions when [n ≤ 10] and [n - 1] when [n > 10]:
    the rotation deletes one record, on the eleventh such event, and none
    ever after. *)
Theorem live_transactions_after (evs : list ContractEvent) :
  countOver recorded evs < 2 ^ 31 →
  Z.of_nat (liveTransactions (processEvents evs emptyStore))
  = liveAfter (countOver recorded evs).
Proof. intros Hbound. by destruct (transactionsInv_run evs Hbound) as (_ & _ & _ & _ & H). Qed.

Lemma live_transactions_after_witness :
  liveTransactions (processEvents (mints 30) emptyStore) = 29%nat.
Proof.
  apply Nat2Z.inj. rewrite (live_transactions_after (mints 30)).
  - vm_compute. reflexivity.
  - vm_compute. reflexivity.
Defined.

(** X9. Transaction ids are counter values and are never reused: from
    the empty store, every stored transaction sits under the decimal
    rendering of a counter value below the current one, so the key the
    next recorded event will write, the current counter, is free and no
    stored transaction is overwritten. *)
Theorem transaction_ids_never_reused (evs : list ContractEvent) :
  countOver recorded evs < 2 ^ 31 →
  let s := processEvents evs emptyStore in
  let counter := ProtocolStats.transactionCounter (currentStats s) in
  counter = countOver recorded evs
  ∧ (∀ k tx, loadTransaction k s = Some tx →
       Transaction.id tx = k ∧ ∃ j, k = toString j ∧ 0 ≤ j < counter)
  ∧ loadTransaction (toString counter) s = None.
Proof.
  intros Hbound s counter.
  destruct (transactionsInv_run evs Hbound) as (Hc & Hkeys & _).
  fold s in Hc, Hkeys. fold counter in Hc. rewrite <- Hc in Hkeys.
  split; [exact Hc|]. split.
  - intros k tx Hk. split; [|by apply (Hkeys k tx)].
    rewrite loadTransaction_eq in Hk.
    exact (wf_transactions s (wfStore_run evs) _ _ Hk).
  - exact (transactionsInv_fresh counter s Hkeys).
Qed.

Lemma transaction_ids_never_reused_witness :
  loadTransaction "12" (processEvents (mints 12) emptyStore) = None.
Proof.
  destruct (transaction_ids_never_reused (mints 12)) as (Hc & _ & Hfree).
  - vm_compute. reflexivity.
  - cbv zeta in Hc, Hfree. rewrite Hc in Hfree. exact Hfree.
Defined.

(** ** Which record a claim or an expiry marks *)

Lemma scanFirst_Some_intro {E} (load : Z → option E) (matches : E → bool)
    (n : nat) (i j : Z) (e : E) :
  i ≤ j < i + Z.of_nat n → load j = Some e → matches e = true →
  (∀ j' e', i ≤ j' < j → load j' = Some e' → matches e' = false) →
  scanFirst load matches n i = Some (j, e).
Proof.
  revert i. induction n as [|n IH]; intros i Hj Hload Hm Hbefore; [lia|].
  cbn [scanFirst]. destruct (decide (i = j)) as [->|Hne].
  - rewrite Hload, Hm. reflexivity.
  - assert (scanFirst load matches n (i + 1) = Some (j, e)) as Hrec.
    { apply IH; [lia|assumption|assumption|]. intros j' e' Hj'. apply Hbefore. lia. }
    destruct (load i) as [e0|] eqn:E0; [|exact Hrec].
    rewrite (Hbefore i e0) by (assumption || lia). exact Hrec.
Qed.

Lemma scanLottery_firstMatch (matches : LotteryPrize.t → bool) (s : Store)
    (j : Z) (p : LotteryPrize.t) :
  firstMatch (lotteryOn s) matches j p → scanLottery matches s = Some (j, p).
Proof.
  intros (Hj & Hload & Hm & Hbefore). unfold scanLottery.
  apply scanFirst_Some_intro; [lia | exact Hload | exact Hm | exact Hbefore].
Qed.

Lemma scanAuction_firstMatch (matches : AuctionPrize.t → bool) (s : Store)
    (j : Z) (p : AuctionPrize.t) :
  firstMatch (auctionOn s) matches j p → scanAuction matches s = Some (j, p).
Proof.
  intros (Hj & Hload & Hm & Hbefore). unfold scanAuction.
  apply scanFirst_Some_intro; [lia | exact Hload | exact Hm | exact Hbefore].
Qed.

Lemma scanLottery_noMatch (matches : LotteryPrize.t → bool) (s : Store) :
  noMatch (lotteryOn s) matches → scanLottery matches s = None.
Proof.
  intros H. unfold scanLottery. apply scanFirst_None_intro.
  intros j e Hj. apply H. lia.
Qed.

Lemma firstMatch_lottery_id (matches : LotteryPrize.t → bool) (s : Store)
    (j : Z) (p : LotteryPrize.t) :
  wfStore s → firstMatch (lotteryOn s) matches j p → LotteryPrize.id p = lotteryKey j.
Proof.
  intros Hwf (_ & Hload & _). unfold lotteryOn in Hload. rewrite loadLotteryPrize_eq in Hload.
  exact (wf_lotteryPrizes s Hwf _ _ Hload).
Qed.

Lemma firstMatch_auction_id (matches : AuctionPrize.t → bool) (s : Store)
    (j : Z) (p : AuctionPrize.t) :
  wfStore s → firstMatch (auctionOn s) matches j p → AuctionPrize.id p = auctionKey j.
Proof.
  intros Hwf (_ & Hload & _). unfold auctionOn in Hload. rewrite loadAuctionPrize_eq in Hload.
  exact (wf_auctionPrizes s Hwf _ _ Hload).
Qed.

(** X10. A claim marks one record, the earliest match: when several
    lottery records of days 0 to 29 answer a [PrizeClaimed] event (same
    winner, same amount, neither claimed nor expired), the one of the
    smallest day is marked claimed and stamped, and the total of claimed
    lottery prizes grows by the claimed amount.  Nothing else changes:
    later matching lottery records stay unclaimed and no auction record
    is looked at. *)
Theorem claim_marks_earliest_lottery
    (event : PrizeClaimed.t) (s : Store) (j : Z) (p : LotteryPrize.t) :
  let winner := PrizeClaimed.winner (params event) in
  let amount := PrizeClaimed.amount (params event) in
  wfStore s →
  firstMatch (lotteryOn s) (lotteryMatchesClaim winner amount) j p →
  handlePrizeClaimed event s
  = mkStore (users s)
      (<[PROTOCOL_STATS_ID := lotteryClaimedStats amount (currentStats s)]> (protocolStats s))
      (transactions s)
      (<[lotteryKey j := claimedLottery event p]> (lotteryPrizes s))
      (auctionPrizes s) (bids s).
Proof.
  intros winner amount Hwf Hfirst. subst winner amount.
  rewrite handlePrizeClaimed_scan, (scanLottery_firstMatch _ _ _ _ Hfirst).
  rewrite markLotteryClaimed_nf by assumption.
  rewrite (firstMatch_lottery_id _ _ _ _ Hwf Hfirst). reflexivity.
Qed.

Lemma claim_marks_earliest_lottery_witness :
  let s := processEvents [EvLotteryWon (lotteryWonOn 3 alice 100);
                          EvLotteryWon (lotteryWonOn 5 alice 100)] emptyStore in
  let s1 := handlePrizeClaimed (prizeClaimedBy 6 alice 100) s in
  LotteryPrize.claimed <$> lotteryOn s1 3 = Some true
  ∧ LotteryPrize.claimed <$> lotteryOn s1 5 = Some false.
Proof.
  intros s s1. subst s1.
  rewrite (claim_marks_earliest_lottery (prizeClaimedBy 6 alice 100) s 3
             (lotteryWonRecord (lotteryWonOn 3 alice 100) (toHexString alice))).
  - vm_compute. split; reflexivity.
  - apply wfStore_processEvents, wfStore_empty.
  - split; [lia|]. split; [vm_compute; reflexivity|]. split; [vm_compute; reflexivity|].
    intros i e Hi Hload.
    assert (i = 0 ∨ i = 1 ∨ i = 2) as [->|[->| ->]] by lia;
      vm_compute in Hload; discriminate Hload.
Defined.

(** X11. Auction prizes are tried only after the lottery prizes: when no
    lottery record of days 0 to 29 answers a [PrizeClaimed] event, the
    matching auction record of the smallest day is marked claimed and
    stamped, the total of claimed auction prizes grows by the claimed
    amount, and nothing else changes. *)
Theorem claim_falls_back_to_auction
    (event : PrizeClaimed.t) (s : Store) (j : Z) (p : AuctionPrize.t) :
  let winner := PrizeClaimed.winner (params event) in
  let amount := PrizeClaimed.amount (params event) in
  wfStore s →
  noMatch (lotteryOn s) (lotteryMatchesClaim winner amount) →
  firstMatch (auctionOn s) (auctionMatchesClaim winner amount) j p →
  handlePrizeClaimed event s
  = mkStore (users s)
      (<[PROTOCOL_STATS_ID := auctionClaimedStats amount (currentStats s)]> (protocolStats s))
      (transactions s) (lotteryPrizes s)
      (<[auctionKey j := claimedAuction event p]> (auctionPrizes s))
      (bids s).
Proof.
  intros winner amount Hwf Hnone Hfirst. subst winner amount.
  rewrite handlePrizeClaimed_scan, (scanLottery_noMatch _ _ Hnone),
    (scanAuction_firstMatch _ _ _ _ Hfirst).
  rewrite markAuctionClaimed_nf by assumption.
  rewrite (firstMatch_auction_id _ _ _ _ Hwf Hfirst). reflexivity.
Qed.

Lemma claim_falls_back_to_auction_witness :
  let s := processEvents [EvLotteryWon (lotteryWonOn 3 bob 100);
                          EvAuctionWon (auctionWonAt 4 2 alice 100 7)] emptyStore in
  let s1 := handlePrizeClaimed (prizeClaimedBy 6 alice 100) s in
  AuctionPrize.claimed <$> auctionOn s1 2 = Some true
  ∧ LotteryPrize.claimed <$> lotteryOn s1 3 = Some false
  ∧ ProtocolStats.totalAuctionClaimed (currentStats s1) = 100.
Proof.
  intros s s1. subst s1.
  assert (lotteryPrizes s
          = {[lotteryKey 3 := lotteryWonRecord (lotteryWonOn 3 bob 100) (toHexString bob)]})
    as HL by (vm_compute; reflexivity).
  rewrite (claim_falls_back_to_auction (prizeClaimedBy 6 alice 100) s 2
             (auctionWonRecord (auctionWonAt 4 2 alice 100 7) (toHexString alice))).
  - vm_compute. repeat split; reflexivity.
  - apply wfStore_processEvents, wfStore_empty.
  - intros i e Hi Hload. unfold lotteryOn in Hload.
    rewrite loadLotteryPrize_eq, HL in Hload.
    apply lookup_singleton_Some in Hload as [_ <-]. vm_compute. reflexivity.
  - split; [lia|]. split; [vm_compute; reflexivity|]. split; [vm_compute; reflexivity|].
    intros i e Hi Hload.
    assert (i = 0 ∨ i = 1) as [->| ->] by lia;
      vm_compute in Hload; discriminate Hload.
Defined.

(** X12. An expiry marks the earliest unclaimed, unexpired lottery
    record of the previous winner among days 0 to 29: it is marked
    expired, stamped, and given the beneficiary of the event.  The total
    of expired lottery prizes grows by the amount stored in that record;
    the amount carried by the [BeneficiaryFunded] event is not used.
    Nothing else changes. *)
Theorem expiry_marks_earliest_lottery
    (event : BeneficiaryFunded.t) (s : Store) (j : Z) (p : LotteryPrize.t) :
  let previousWinner := BeneficiaryFunded.previousWinner (params event) in
  wfStore s →
  firstMatch (lotteryOn s) (lotteryMatchesExpiry previousWinner) j p →
  handleBeneficiaryFunded event s
  = mkStore (users s)
      (<[PROTOCOL_STATS_ID := lotteryExpiredStats (LotteryPrize.amount p) (currentStats s)]>
         (protocolStats s))
      (transactions s)
      (<[lotteryKey j := expiredLottery event p]> (lotteryPrizes s))
      (auctionPrizes s) (bids s).
Proof.
  intros previousWinner Hwf Hfirst. subst previousWinner.
  rewrite handleBeneficiaryFunded_scan, (scanLottery_firstMatch _ _ _ _ Hfirst).
  rewrite markLotteryExpired_nf by assumption.
  rewrite (firstMatch_lottery_id _ _ _ _ Hwf Hfirst). reflexivity.
Qed.

Lemma expiry_marks_earliest_lottery_witness :
  let s := processEvents [EvLotteryWon (lotteryWonOn 3 alice 100);
                          EvLotteryWon (lotteryWonOn 5 alice 250)] emptyStore in
  let s1 := handleBeneficiaryFunded (beneficiaryFundedFor 40 alice bob 999) s in
  LotteryPrize.expired <$> lotteryOn s1 3 = Some true
  ∧ LotteryPrize.expired <$> lotteryOn s1 5 = Some false
  ∧ ProtocolStats.totalLotteryExpired (currentStats s1) = 100.
Proof.
  intros s s1. subst s1.
  rewrite (expiry_marks_earliest_lottery (beneficiaryFundedFor 40 alice bob 999) s 3
             (lotteryWonRecord (lotteryWonOn 3 alice 100) (toHexString alice))).
  - vm_compute. repeat split; reflexivity.
  - apply wfStore_processEvents, wfStore_empty.
  - split; [lia|]. split; [vm_compute; reflexivity|]. split; [vm_compute; reflexivity|].
    intros i e Hi Hload.
    assert (i = 0 ∨ i = 1 ∨ i = 2) as [->|[->| ->]] by lia;
      vm_compute in Hload; discriminate Hload.
Defined.

(** X13. When the previous winner has no unclaimed, unexpired lottery
    record among days 0 to 29, an expiry marks their earliest such
    auction record: expired, stamped, beneficiary set, and the total of
    expired auction prizes grows by the token amount stored in the
    record.  Nothing else changes. *)
Theorem expiry_falls_back_to_auction
    (event : BeneficiaryFunded.t) (s : Store) (j : Z) (p : AuctionPrize.t) :
  let previousWinner := BeneficiaryFunded.previousWinner (params event) in
  wfStore s →
  noMatch (lotteryOn s) (lotteryMatchesExpiry previousWinner) →
  firstMatch (auctionOn s) (auctionMatchesExpiry previousWinner) j p →
  handleBeneficiaryFunded event s
  = mkStore (users s)
      (<[PROTOCOL_STATS_ID :=
           auctionExpiredStats (AuctionPrize.stratAmount p) (currentStats s)]>
         (protocolStats s))
      (transactions s) (lotteryPrizes s)
      (<[auctionKey j := expiredAuction event p]> (auctionPrizes s))
      (bids s).
Proof.
  intros previousWinner Hwf Hnone Hfirst. subst previousWinner.
  rewrite handleBeneficiaryFunded_scan, (scanLottery_noMatch _ _ Hnone),
    (scanAuction_firstMatch _ _ _ _ Hfirst).
  rewrite markAuctionExpired_nf by assumption.
  rewrite (firstMatch_auction_id _ _ _ _ Hwf Hfirst). reflexivity.
Qed.

Lemma expiry_falls_back_to_auction_witness :
  let s := processEvents [EvLotteryWon (lotteryWonOn 3 bob 100);
                          EvAuctionWon (auctionWonAt 4 2 alice 60 7)] emptyStore in
  let s1 := handleBeneficiaryFunded (beneficiaryFundedFor 40 alice bob 999) s in
  AuctionPrize.expired <$> auctionOn s1 2 = Some true
  ∧ LotteryPrize.expired <$> lotteryOn s1 3 = Some false
  ∧ ProtocolStats.totalAuctionExpired (currentStats s1) = 60.
Proof.
  intros s s1. subst s1.
  assert (lotteryPrizes s
          = {[lotteryKey 3 := lotteryWonRecord (lotteryWonOn 3 bob 100) (toHexString bob)]})
    as HL by (vm_compute; reflexivity).
  rewrite (expiry_falls_back_to_auction (beneficiaryFundedFor 40 alice bob 999) s 2
             (auctionWonRecord (auctionWonAt 4 2 alice 60 7) (toHexString alice))).
  - vm_compute. repeat split; reflexivity.
  - apply wfStore_processEvents, wfStore_empty.
  - intros i e Hi Hload. unfold lotteryOn in Hload.
    rewrite loadLotteryPrize_eq, HL in Hload.
    apply lookup_singleton_Some in Hload as [_ <-]. vm_compute. reflexivity.
  - split; [lia|]. split; [vm_compute; reflexivity|]. split; [vm_compute; reflexivity|].
    intros i e Hi Hload.
    assert (i = 0 ∨ i = 1) as [->| ->] by lia;
      vm_compute in Hload; discriminate Hload.
Defined.

(** ** The seven-day windows *)

Lemma lotteryOn_handleLotteryWon (event : LotteryWon.t) (s : Store) (d : Z) :
  wfStore s →
  lotteryOn (handleLotteryWon event s) d
  = if bool_decide (d = winDay event)
    then Some (lotteryWonRecord event (toHexString (LotteryWon.winner (params event))))
    else if bool_decide (0 ≤ d ∧ winDay event - 106 ≤ d ≤ winDay event - 7) then None
    else lotteryOn s d.
Proof.
  intros Hwf. unfold lotteryOn, winDay.
  rewrite handleLotteryWon_nf by assumption. cbv zeta.
  rewrite loadLotteryPrize_eq. cbn [lotteryPrizes].
  case_bool_decide as Hd.
  - subst d. apply lookup_insert_eq.
  - rewrite lookup_insert_ne by (intros E%lotteryKey_inj; congruence).
    rewrite <- loadLotteryPrize_eq.
    case_bool_decide as Hr.
    + apply rotateLotteryPrizes_removed; lia.
    + by apply rotateLotteryPrizes_kept.
Qed.

(** X14. What an auction win for day [D] does to the auction records of
    all days: the record of [D] becomes the fresh, unclaimed record of
    the win; the records of the hundred days [D - 106 .. D - 7] (those
    that are not negative) are deleted; the record of every other day,
    in particular of the six days before [D] and of any later day, is
    left as it was. *)
Theorem auction_won_window (event : AuctionWon.t) (s : Store) (d : Z) :
  wfStore s →
  let D := AuctionWon.day (params event) in
  auctionOn (handleAuctionWon event s) d
  = if bool_decide (d = D)
    then Some (auctionWonRecord event (toHexString (AuctionWon.winner (params event))))
    else if bool_decide (0 ≤ d ∧ D - 106 ≤ d ≤ D - 7) then None
    else auctionOn s d.
Proof.
  intros Hwf D. subst D. unfold auctionOn.
  rewrite handleAuctionWon_nf by assumption. cbv zeta.
  rewrite loadAuctionPrize_eq. cbn [auctionPrizes].
  case_bool_decide as Hd.
  - subst d. apply lookup_insert_eq.
  - rewrite lookup_insert_ne by (intros E%auctionKey_inj; congruence).
    rewrite <- loadAuctionPrize_eq.
    case_bool_decide as Hr.
    + apply rotateAuctionPrizes_removed; lia.
    + by apply rotateAuctionPrizes_kept.
Qed.

Lemma auction_won_window_witness :
  let s := processEvents [EvAuctionWon (auctionWonAt 1 1 alice 10 2);
                          EvAuctionWon (auctionWonAt 3 3 bob 20 4)] emptyStore in
  let s1 := handleAuctionWon (auctionWonAt 9 9 alice 30 5) s in
  auctionOn s1 1 = None ∧ auctionOn s1 3 = auctionOn s 3 ∧ is_Some (auctionOn s1 9).
Proof.
  intros s s1. subst s1.
  rewrite !(auction_won_window (auctionWonAt 9 9 alice 30 5) s)
    by apply wfStore_processEvents, wfStore_empty.
  vm_compute. repeat split. eauto.
Defined.

Lemma consecutive_snoc_lt (l : list Z) (d : Z) :
  consecutive Z.lt (l ++ [d]) → consecutive Z.lt l ∧ Forall (λ x, x < d) l.
Proof.
  induction l as [|a l IH]; intros H; [split; [exact I | constructor]|].
  destruct l as [|b l].
  - cbn in H. destruct H as [H _]. split; [exact I|]. repeat constructor. exact H.
  - change (a < b ∧ consecutive Z.lt ((b :: l) ++ [d])) in H. destruct H as [Hab H].
    destruct (IH H) as [Hc Hall]. split; [by split|].
    constructor; [|assumption]. apply Forall_cons in Hall as [Hb _]. lia.
Qed.

Lemma lottery_window_run (l : list LotteryWon.t) (D : Z) (e : LotteryWon.t) :
  consecutive Z.lt (map winDay l) →
  Forall (λ x, winDay x ≤ D) l →
  e ∈ l → D - 6 ≤ winDay e →
  lotteryOn (processEvents (lotteryWins l) emptyStore) (winDay e)
  = Some (lotteryWonRecord e (toHexString (LotteryWon.winner (params e)))).
Proof.
  induction l as [|e0 l IH] using rev_ind; intros Hinc Hle He Hd.
  - by apply elem_of_nil in He.
  - rewrite map_app in Hinc. apply consecutive_snoc_lt in Hinc as [Hinc Hlt].
    apply Forall_app in Hle as [Hle He0]. apply Forall_cons in He0 as [He0 _].
    rewrite Forall_forall in Hlt.
    assert (∀ x, x ∈ l → winDay x < winDay e0) as Hlt'.
    { intros x Hx. apply Hlt. apply list_elem_of_fmap. by exists x. }
    rewrite processEvents_lotteryWins_snoc.
    rewrite lotteryOn_handleLotteryWon
      by (unfold lotteryWins; apply wfStore_processEvents, wfStore_empty).
    apply elem_of_app in He as [He|He].
    + pose proof (Hlt' _ He).
      rewrite bool_decide_eq_false_2 by lia.
      rewrite bool_decide_eq_false_2 by lia.
      by apply IH.
    + apply list_elem_of_singleton in He. subst e0.
      rewrite bool_decide_eq_true_2 by reflexivity. reflexivity.
Qed.

(** X15. The last seven days of lottery wins are kept: after a run of
    lottery wins with strictly increasing days ending with the win for
    day [D], the record of every win of the run for a day from [D - 6]
    on is still stored, exactly as its own win wrote it. *)
Theorem lottery_window_retained
    (pre : list LotteryWon.t) (event win : LotteryWon.t) :
  let D := winDay event in
  consecutive Z.lt (map winDay (pre ++ [event])) →
  win ∈ (pre ++ [event])%list →
  D - 6 ≤ winDay win →
  lotteryOn (processEvents (lotteryWins (pre ++ [event])) emptyStore) (winDay win)
  = Some (lotteryWonRecord win (toHexString (LotteryWon.winner (params win)))).
Proof.
  intros D Hinc Hin Hd. apply (lottery_window_run _ D); try assumption.
  pose proof Hinc as Hinc'. rewrite map_app in Hinc'.
  apply consecutive_snoc_lt in Hinc' as [_ Hlt]. rewrite Forall_forall in Hlt.
  apply Forall_app. split.
  - apply Forall_forall. intros x Hx.
    assert (winDay x < winDay event); [|subst D; lia].
    apply Hlt. apply list_elem_of_fmap. by exists x.
  - repeat constructor. subst D. lia.
Qed.

Lemma lottery_window_retained_witness :
  let wins := [lotteryWonOn 0 alice 5; lotteryWonOn 2 bob 6; lotteryWonOn 7 alice 8] in
  let s := processEvents (lotteryWins wins) emptyStore in
  lotteryOn s 2 = Some (lotteryWonRecord (lotteryWonOn 2 bob 6) (toHexString bob))
  ∧ lotteryOn s 0 = None.
Proof.
  intros wins s. split.
  - apply (lottery_window_retained
             [lotteryWonOn 0 alice 5; lotteryWonOn 2 bob 6] (lotteryWonOn 7 alice 8)
             (lotteryWonOn 2 bob 6)).
    + vm_compute. auto.
    + apply elem_of_cons. right. apply elem_of_cons. left. reflexivity.
    + vm_compute. discriminate.
  - vm_compute. reflexivity.
Defined.

(** ** Rotation on the first days *)

Lemma rotateLotteryLoop_early (n : nat) (i o : Z) (s : Store) :
  o - (i + 1) < 0 → rotateLotteryLoop n i o s = s.
Proof.
  intros H. destruct n as [|n]; [reflexivity|]. cbn [rotateLotteryLoop]. cbv zeta.
  destruct (o - (i + 1) <? 0) eqn:E; [reflexivity | lia].
Qed.

Lemma rotateAuctionLoop_early (n : nat) (i o : Z) (s : Store) :
  o - (i + 1) < 0 → rotateAuctionLoop n i o s = s.
Proof.
  intros H. destruct n as [|n]; [reflexivity|]. cbn [rotateAuctionLoop]. cbv zeta.
  destruct (o - (i + 1) <? 0) eqn:E; [reflexivity | lia].
Qed.

(** X16. On the first days nothing is rotated: for a win of day 6 or
    earlier the day before the oldest day to keep is negative, the scan
    stops at once, and both rotations return the store unchanged. *)
Theorem early_days_rotate_nothing (day : Z) (s : Store) :
  day ≤ MAX_PRIZES - 1 →
  rotateLotteryPrizes day s = s ∧ rotateAuctionPrizes day s = s.
Proof.
  unfold MAX_PRIZES. intros Hday. split.
  - unfold rotateLotteryPrizes, MAX_PRIZES. apply rotateLotteryLoop_early. lia.
  - unfold rotateAuctionPrizes, MAX_PRIZES. apply rotateAuctionLoop_early. lia.
Qed.

Lemma early_days_rotate_nothing_witness :
  let s := processEvents [EvLotteryWon (lotteryWonOn 0 alice 5);
                          EvAuctionWon (auctionWonAt 1 0 bob 20 4)] emptyStore in
  rotateLotteryPrizes 6 s = s ∧ rotateAuctionPrizes 6 s = s.
Proof.
  intros s. apply (early_days_rotate_nothing 6 s). unfold MAX_PRIZES. lia.
Defined.

(** ** Bid entities *)

Lemma hexDigit_not_dash (n : N) : hexDigit n ≠ "-"%char.
Proof. unfold hexDigit. repeat case_match; discriminate. Qed.

Lemma dashFree_hex (b : Bytes) : dashFree (foldr byteToHex EmptyString b).
Proof.
  induction b as [|x b IH]; [exact I|].
  cbn [foldr]. unfold byteToHex. cbn [dashFree].
  split; [apply hexDigit_not_dash|]. split; [apply hexDigit_not_dash | exact IH].
Qed.

Lemma dashFree_toHexString (b : Bytes) : dashFree (toHexString b).
Proof.
  unfold toHexString.
  change ("0x" +:+ ?r) with (String "0" (String "x" r)).
  cbn [dashFree]. split; [discriminate|]. split; [discriminate | apply dashFree_hex].
Qed.

Lemma dashFree_split (a b x y : string) :
  dashFree a → dashFree b →
  a +:+ "-" +:+ x = b +:+ "-" +:+ y → a = b ∧ x = y.
Proof.
  revert b. induction a as [|c a IH]; intros [|d b] Ha Hb H.
  - change (String "-" x = String "-" y) in H. injection H as ->. by split.
  - change (String "-" x = String d (b +:+ "-" +:+ y)) in H. injection H as <- _.
    destruct Hb as [Hd _]. by destruct Hd.
  - change (String c (a +:+ "-" +:+ x) = String "-" y) in H. injection H as -> _.
    destruct Ha as [Hc _]. by destruct Hc.
  - change (String c (a +:+ "-" +:+ x) = String d (b +:+ "-" +:+ y)) in H.
    injection H as -> H. destruct Ha as [_ Ha], Hb as [_ Hb].
    destruct (IH b Ha Hb H) as [-> ->]. by split.
Qed.

Lemma bidKey_inj (h1 h2 : Bytes) (i1 i2 : BigInt) :
  bidKey h1 i1 = bidKey h2 i2 → h1 = h2 ∧ i1 = i2.
Proof.
  unfold bidKey. intros H.
  apply dashFree_split in H as [Hh Hi]; [|apply dashFree_toHexString..].
  split; [exact (inj toHexString _ _ Hh) | by apply toString_inj].
Qed.

Lemma bids_dispatch (ev : ContractEvent) (s : Store) :
  wfStore s →
  bids (dispatch ev s)
  = match ev with
    | EvBidPlaced e =>
        <[bidKey (hash (transaction e)) (logIndex e) := bidRecord e]> (bids s)
    | _ => bids s
    end.
Proof.
  intros Hwf. destruct ev as [e|e|e|e|e|e|e|e|e]; cbn [dispatch].
  - rewrite handleLotteryWon_nf by assumption. reflexivity.
  - rewrite handleAuctionWon_nf by assumption. reflexivity.
  - rewrite handlePrizeClaimed_scan.
    destruct (scanLottery _ s) as [[j p]|].
    + rewrite markLotteryClaimed_nf by assumption. reflexivity.
    + destruct (scanAuction _ s) as [[j p]|]; [|reflexivity].
      rewrite markAuctionClaimed_nf by assumption. reflexivity.
  - rewrite handleBeneficiaryFunded_scan.
    destruct (scanLottery _ s) as [[j p]|].
    + rewrite markLotteryExpired_nf by assumption. reflexivity.
    + destruct (scanAuction _ s) as [[j p]|]; [|reflexivity].
      rewrite markAuctionExpired_nf by assumption. reflexivity.
  - rewrite handleAuctionStarted_nf. destruct (loadAuctionPrize _ s); [reflexivity|].
    autorewrite with store. reflexivity.
  - rewrite handleBidPlaced_nf by assumption.
    destruct (loadAuctionPrize _ s); autorewrite with store; reflexivity.
  - rewrite handleMinted_nf by assumption. reflexivity.
  - rewrite handleRedeemed_nf by assumption. reflexivity.
  - destruct (feeTransfer e) eqn:E.
    + rewrite handleTransfer_nf by assumption. reflexivity.
    + rewrite handleTransfer_skip by assumption. reflexivity.
Qed.

Lemma bidsOf_snoc (evs : list ContractEvent) (ev : ContractEvent) :
  bidsOf (evs ++ [ev])
  = (bidsOf evs ++ match ev with EvBidPlaced e => [e] | _ => [] end)%list.
Proof. unfold bidsOf. rewrite omap_app. by destruct ev. Qed.

Lemma bids_run (evs : list ContractEvent) :
  NoDup (bidIdentity <$> bidsOf evs) →
  let s := processEvents evs emptyStore in
  size (bids s) = length (bidsOf evs)
  ∧ (∀ k b, bids s !! k = Some b →
       ∃ e, e ∈ bidsOf evs ∧ k = bidKey (hash (transaction e)) (logIndex e))
  ∧ (∀ e, e ∈ bidsOf evs →
       bids s !! bidKey (hash (transaction e)) (logIndex e) = Some (bidRecord e)).
Proof.
  induction evs as [|ev evs IH] using rev_ind; intros Hnd; cbv zeta.
  - cbn [processEvents fold_left emptyStore bids bidsOf omap length].
    split; [apply map_size_empty|]. split.
    + intros k b H. by rewrite lookup_empty in H.
    + intros e H. by apply elem_of_nil in H.
  - rewrite processEvents_snoc, bids_dispatch by apply wfStore_run.
    rewrite bidsOf_snoc in *.
    destruct ev as [e0|e0|e0|e0|e0|e0|e0|e0|e0];
      try (rewrite app_nil_r in *; by apply IH).
    rewrite fmap_app in Hnd. apply NoDup_app in Hnd as (Hnd & Hfresh & _).
    destruct (IH Hnd) as (Hsize & Hkeys & Hall).
    assert (bids (processEvents evs emptyStore)
              !! bidKey (hash (transaction e0)) (logIndex e0) = None) as Hnone.
    { apply eq_None_not_Some. intros [b Hb].
      destruct (Hkeys _ _ Hb) as (e & He & [Hh Hi]%bidKey_inj).
      apply (Hfresh (bidIdentity e0)).
      - apply list_elem_of_fmap. exists e. split; [|assumption].
        unfold bidIdentity. by rewrite Hh, Hi.
      - cbn. by left. }
    split; [|split].
    + rewrite map_size_insert_None by assumption. rewrite length_app. cbn [length]. lia.
    + intros k b Hk. destruct (decide (k = bidKey (hash (transaction e0)) (logIndex e0)))
        as [->|Hne].
      * exists e0. split; [|reflexivity]. apply elem_of_app. right. by left.
      * rewrite lookup_insert_ne in Hk by congruence.
        destruct (Hkeys _ _ Hk) as (e & He & ->). exists e. split; [|reflexivity].
        apply elem_of_app. by left.
    + intros e He. apply elem_of_app in He as [He|He].
      * rewrite lookup_insert_ne; [by apply Hall|].
        intros E. rewrite E in Hnone. rewrite (Hall e He) in Hnone. discriminate.
      * apply list_elem_of_singleton in He. subst e. apply lookup_insert_eq.
Qed.

(** X17. Every bid is stored: in a log whose bid events are pairwise
    distinct in (transaction hash, log index), as events of a chain are,
    each [BidPlaced] event has its own [Bid] entity, under the id built
    from that pair, holding the bid as placed; ids of different bids
    never collide, no bid is overwritten or deleted by any later event,
    and there are as many [Bid] entities as bid events. *)
Theorem every_bid_is_stored (evs : list ContractEvent) (event : BidPlaced.t) :
  NoDup (bidIdentity <$> bidsOf evs) →
  EvBidPlaced event ∈ evs →
  let s := processEvents evs emptyStore in
  bids s !! bidKey (hash (transaction event)) (logIndex event) = Some (bidRecord event)
  ∧ size (bids s) = length (bidsOf evs).
Proof.
  intros Hnd Hin s. destruct (bids_run evs Hnd) as (Hsize & _ & Hall).
  split; [|exact Hsize]. apply Hall.
  unfold bidsOf. apply list_elem_of_omap. by exists (EvBidPlaced event).
Qed.

Lemma every_bid_is_stored_witness :
  let b1 := bidPlacedAt 1 3 alice 10 in
  let b2 := bidPlacedAt 2 3 bob 11 in
  let s := processEvents [EvBidPlaced b1; EvAuctionStarted (auctionStartedOn 3 50);
                          EvBidPlaced b2] emptyStore in
  bids s !! bidKey (hash (transaction b1)) (logIndex b1) = Some (bidRecord b1)
  ∧ size (bids s) = 2%nat.
Proof.
  intros b1 b2 s.
  apply (every_bid_is_stored
           [EvBidPlaced b1; EvAuctionStarted (auctionStartedOn 3 50); EvBidPlaced b2] b1).
  - vm_compute. repeat constructor.
    + intros H. apply elem_of_cons in H as [H|H]; [discriminate H | by apply elem_of_nil in H].
    + intros H. by apply elem_of_nil in H.
  - apply elem_of_cons. by left.
Defined.

(** ** Bids counted on the day's record *)

Lemma auctionOn_handleBidPlaced (event : BidPlaced.t) (s : Store) (d : Z) :
  wfStore s →
  auctionOn (handleBidPlaced event s) d
  = if bool_decide (d = BidPlaced.day (params event))
    then countedBid <$> auctionOn s d
    else auctionOn s d.
Proof.
  intros Hwf. unfold auctionOn. rewrite handleBidPlaced_nf by assumption.
  rewrite (loadAuctionPrize_eq (auctionKey d) (withBids _ _)).
  rewrite auctionPrizes_withBids.
  destruct (loadAuctionPrize (auctionKey (BidPlaced.day (params event))) s) as [a|] eqn:E.
  - rewrite auctionPrizes_withAuctionPrizes.
    case_bool_decide as Hd.
    + subst d. rewrite E. apply lookup_insert_eq.
    + rewrite lookup_insert_ne by (intros Hk%auctionKey_inj; congruence).
      symmetry. apply loadAuctionPrize_eq.
  - rewrite <- loadAuctionPrize_eq.
    case_bool_decide as Hd; [|reflexivity].
    subst d. rewrite E. reflexivity.
Qed.

Lemma bidsFor_snoc (day : Z) (l : list BidPlaced.t) (b : BidPlaced.t) :
  bidsFor day (l ++ [b])
  = bidsFor day l + (if bool_decide (day = BidPlaced.day (params b)) then 1 else 0).
Proof.
  unfold bidsFor. rewrite filter_app, length_app, filter_cons, filter_nil.
  case_bool_decide as Hd; case_decide as Hd'; cbn [length]; rewrite Nat2Z.inj_add;
    try reflexivity; congruence.
Qed.

(** X18. Until the win, every bid for a day is counted once on that
    day's auction record and bids for other days are not: starting from
    a store whose record for day [D] has bid count [c], a run of
    [BidPlaced] events leaves the record with bid count [c] plus the
    number of bids of the run placed for [D], as an [i32]. *)
Theorem bids_are_counted_per_day
    (bs : list BidPlaced.t) (s : Store) (D : Z) (auction : AuctionPrize.t) :
  wfStore s →
  auctionOn s D = Some auction →
  - 2 ^ 31 ≤ AuctionPrize.bidCount auction < 2 ^ 31 →
  bidCountOn D (processEvents (map EvBidPlaced bs) s)
  = Some (wrap32 (AuctionPrize.bidCount auction + bidsFor D bs)).
Proof.
  intros Hwf Hrec Hrange.
  induction bs as [|b bs IH] using rev_ind.
  - cbn [map processEvents fold_left]. unfold bidCountOn, bidsFor. cbn [filter length].
    unfold auctionOn in Hrec. rewrite Hrec. cbn [fmap option_fmap option_map].
    rewrite Z.add_0_r, wrap32_small by assumption. reflexivity.
  - rewrite map_app, processEvents_app. cbn [map processEvents fold_left dispatch].
    unfold bidCountOn in *. fold (auctionOn (processEvents (map EvBidPlaced bs) s) D) in IH.
    fold (auctionOn (handleBidPlaced b (processEvents (map EvBidPlaced bs) s)) D).
    rewrite auctionOn_handleBidPlaced by (by apply wfStore_processEvents).
    rewrite bidsFor_snoc.
    destruct (auctionOn (processEvents (map EvBidPlaced bs) s) D) as [a|];
      [|discriminate IH].
    cbn [fmap option_fmap option_map] in *. injection IH as IH.
    case_bool_decide as Hd; cbn [fmap option_fmap option_map].
    + unfold countedBid. cbn [AuctionPrize.bidCount AuctionPrize.set_bidCount].
      rewrite IH, wrap32_wrap32_succ. do 2 f_equal. lia.
    + rewrite IH. do 2 f_equal. lia.
Qed.

Lemma bids_are_counted_per_day_witness :
  let s := handleAuctionStarted (auctionStartedOn 3 50) emptyStore in
  bidCountOn 3 (processEvents (map EvBidPlaced [bidPlacedAt 1 3 alice 10;
                                                bidPlacedAt 2 4 bob 11;
                                                bidPlacedAt 3 3 bob 12]) s)
  = Some 2.
Proof.
  intros s.
  rewrite (bids_are_counted_per_day _ s 3 (auctionPlaceholder (auctionStartedOn 3 50))).
  - vm_compute. reflexivity.
  - apply wfStore_handleAuctionStarted, wfStore_empty.
  - vm_compute. reflexivity.
  - unfold auctionPlaceholder. cbn [AuctionPrize.bidCount]. lia.
Defined.

(** ** The tables after one event *)

Lemma protocolStats_dispatch (ev : ContractEvent) (s : Store) :
  wfStore s →
  protocolStats (dispatch ev s) = protocolStats s
  ∨ protocolStats (dispatch ev s)
    = <[PROTOCOL_STATS_ID := statsAfter ev s (currentStats s)]> (protocolStats s).
Proof.
  intros Hwf. destruct ev as [e|e|e|e|e|e|e|e|e]; cbn [dispatch statsAfter].
  - right. rewrite handleLotteryWon_nf by assumption. reflexivity.
  - right. rewrite handleAuctionWon_nf by assumption. reflexivity.
  - rewrite handlePrizeClaimed_scan. cbv zeta.
    destruct (scanLottery _ s) as [[j p]|].
    + right. rewrite markLotteryClaimed_nf by assumption. reflexivity.
    + destruct (scanAuction _ s) as [[j p]|]; [|by left].
      right. rewrite markAuctionClaimed_nf by assumption. reflexivity.
  - rewrite handleBeneficiaryFunded_scan. cbv zeta.
    destruct (scanLottery _ s) as [[j p]|].
    + right. rewrite markLotteryExpired_nf by assumption. reflexivity.
    + destruct (scanAuction _ s) as [[j p]|]; [|by left].
      right. rewrite markAuctionExpired_nf by assumption. reflexivity.
  - left. rewrite handleAuctionStarted_nf. destruct (loadAuctionPrize _ s); [reflexivity|].
    autorewrite with store. reflexivity.
  - left. rewrite handleBidPlaced_nf by assumption.
    destruct (loadAuctionPrize _ s); autorewrite with store; reflexivity.
  - right. rewrite handleMinted_nf by assumption. reflexivity.
  - right. rewrite handleRedeemed_nf by assumption. reflexivity.
  - destruct (feeTransfer e) eqn:E.
    + right. rewrite handleTransfer_nf by assumption. reflexivity.
    + left. rewrite handleTransfer_skip by assumption. reflexivity.
Qed.

Lemma protocolStats_untouched (ev : ContractEvent) (s : Store) :
  wfStore s → touchesStats ev = false → protocolStats (dispatch ev s) = protocolStats s.
Proof.
  intros Hwf. destruct ev as [e|e|e|e|e|e|e|e|e]; cbn [dispatch touchesStats];
    try discriminate; intros Ht.
  - rewrite handleAuctionStarted_nf. destruct (loadAuctionPrize _ s); [reflexivity|].
    autorewrite with store. reflexivity.
  - rewrite handleBidPlaced_nf by assumption.
    destruct (loadAuctionPrize _ s); autorewrite with store; reflexivity.
  - rewrite handleTransfer_skip by assumption. reflexivity.
Qed.

Lemma lotteryPrizes_dispatch (ev : ContractEvent) (s : Store) :
  wfStore s →
  lotteryPrizes (dispatch ev s)
  = match ev with
    | EvLotteryWon e =>
        <[lotteryKey (winDay e) :=
            lotteryWonRecord e (toHexString (LotteryWon.winner (params e)))]>
          (lotteryPrizes (rotateLotteryPrizes (winDay e) s))
    | EvPrizeClaimed e =>
        match scanLottery (lotteryMatchesClaim (PrizeClaimed.winner (params e))
                             (PrizeClaimed.amount (params e))) s with
        | Some (_, p) => <[LotteryPrize.id p := claimedLottery e p]> (lotteryPrizes s)
        | None => lotteryPrizes s
        end
    | EvBeneficiaryFunded e =>
        match scanLottery (lotteryMatchesExpiry
                             (BeneficiaryFunded.previousWinner (params e))) s with
        | Some (_, p) => <[LotteryPrize.id p := expiredLottery e p]> (lotteryPrizes s)
        | None => lotteryPrizes s
        end
    | _ => lotteryPrizes s
    end.
Proof.
  intros Hwf. destruct ev as [e|e|e|e|e|e|e|e|e]; cbn [dispatch].
  - rewrite handleLotteryWon_nf by assumption. reflexivity.
  - rewrite handleAuctionWon_nf by assumption. reflexivity.
  - rewrite handlePrizeClaimed_scan.
    destruct (scanLottery _ s) as [[j p]|].
    + rewrite markLotteryClaimed_nf by assumption. reflexivity.
    + destruct (scanAuction _ s) as [[j p]|]; [|reflexivity].
      rewrite markAuctionClaimed_nf by assumption. reflexivity.
  - rewrite handleBeneficiaryFunded_scan.
    destruct (scanLottery _ s) as [[j p]|].
    + rewrite markLotteryExpired_nf by assumption. reflexivity.
    + destruct (scanAuction _ s) as [[j p]|]; [|reflexivity].
      rewrite markAuctionExpired_nf by assumption. reflexivity.
  - rewrite handleAuctionStarted_nf. destruct (loadAuctionPrize _ s); [reflexivity|].
    autorewrite with store. reflexivity.
  - rewrite handleBidPlaced_nf by assumption.
    destruct (loadAuctionPrize _ s); autorewrite with store; reflexivity.
  - rewrite handleMinted_nf by assumption. reflexivity.
  - rewrite handleRedeemed_nf by assumption. reflexivity.
  - destruct (feeTransfer e) eqn:E.
    + rewrite handleTransfer_nf by assumption. reflexivity.
    + rewrite handleTransfer_skip by assumption. reflexivity.
Qed.

Lemma auctionPrizes_dispatch (ev : ContractEvent) (s : Store) :
  wfStore s →
  auctionPrizes (dispatch ev s)
  = match ev with
    | EvAuctionWon e =>
        <[auctionKey (AuctionWon.day (params e)) :=
            auctionWonRecord e (toHexString (AuctionWon.winner (params e)))]>
          (auctionPrizes (rotateAuctionPrizes (AuctionWon.day (params e)) s))
    | EvPrizeClaimed e =>
        match scanLottery (lotteryMatchesClaim (PrizeClaimed.winner (params e))
                             (PrizeClaimed.amount (params e))) s with
        | Some _ => auctionPrizes s
        | None =>
            match scanAuction (auctionMatchesClaim (PrizeClaimed.winner (params e))
                                 (PrizeClaimed.amount (params e))) s with
            | Some (_, p) => <[AuctionPrize.id p := claimedAuction e p]> (auctionPrizes s)
            | None => auctionPrizes s
            end
        end
    | EvBeneficiaryFunded e =>
        match scanLottery (lotteryMatchesExpiry
                             (BeneficiaryFunded.previousWinner (params e))) s with
        | Some _ => auctionPrizes s
        | None =>
            match scanAuction (auctionMatchesExpiry
                                 (BeneficiaryFunded.previousWinner (params e))) s with
            | Some (_, p) => <[AuctionPrize.id p := expiredAuction e p]> (auctionPrizes s)
            | None => auctionPrizes s
            end
        end
    | EvAuctionStarted e =>
        match auctionOn s (AuctionStarted.day (params e)) with
        | Some _ => auctionPrizes s
        | None =>
            <[auctionKey (AuctionStarted.day (params e)) := auctionPlaceholder e]>
              (auctionPrizes s)
        end
    | EvBidPlaced e =>
        match auctionOn s (BidPlaced.day (params e)) with
        | Some auction =>
            <[auctionKey (BidPlaced.day (params e)) := countedBid auction]> (auctionPrizes s)
        | None => auctionPrizes s
        end
    | _ => auctionPrizes s
    end.
Proof.
  intros Hwf. destruct ev as [e|e|e|e|e|e|e|e|e]; cbn [dispatch]; unfold auctionOn.
  - rewrite handleLotteryWon_nf by assumption. reflexivity.
  - rewrite handleAuctionWon_nf by assumption. reflexivity.
  - rewrite handlePrizeClaimed_scan.
    destruct (scanLottery _ s) as [[j p]|].
    + rewrite markLotteryClaimed_nf by assumption. reflexivity.
    + destruct (scanAuction _ s) as [[j p]|]; [|reflexivity].
      rewrite markAuctionClaimed_nf by assumption. reflexivity.
  - rewrite handleBeneficiaryFunded_scan.
    destruct (scanLottery _ s) as [[j p]|].
    + rewrite markLotteryExpired_nf by assumption. reflexivity.
    + destruct (scanAuction _ s) as [[j p]|]; [|reflexivity].
      rewrite markAuctionExpired_nf by assumption. reflexivity.
  - rewrite handleAuctionStarted_nf. destruct (loadAuctionPrize _ s); [reflexivity|].
    autorewrite with store. reflexivity.
  - rewrite handleBidPlaced_nf by assumption.
    destruct (loadAuctionPrize _ s); autorewrite with store; reflexivity.
  - rewrite handleMinted_nf by assumption. reflexivity.
  - rewrite handleRedeemed_nf by assumption. reflexivity.
  - destruct (feeTransfer e) eqn:E.
    + rewrite handleTransfer_nf by assumption. reflexivity.
    + rewrite handleTransfer_skip by assumption. reflexivity.
Qed.

(** X19. What an event cannot change.  The users table changes only by
    events that name a user (wins, mints, redeems, recorded transfers);
    the statistics by no auction start, bid or skipped transfer; the
    transaction table only by events that write a transaction; the
    lottery table only by lottery wins, claims and expiries; the auction
    table by none of lottery wins, mints, redeems and transfers; and the
    bid table only by bids. *)
Theorem event_footprint (ev : ContractEvent) (s : Store) :
  wfStore s →
  (eventUser ev = None → users (dispatch ev s) = users s)
  ∧ (touchesStats ev = false → protocolStats (dispatch ev s) = protocolStats s)
  ∧ (recorded ev = false → transactions (dispatch ev s) = transactions s)
  ∧ (touchesLottery ev = false → lotteryPrizes (dispatch ev s) = lotteryPrizes s)
  ∧ (touchesAuction ev = false → auctionPrizes (dispatch ev s) = auctionPrizes s)
  ∧ (isBidPlaced ev = false → bids (dispatch ev s) = bids s).
Proof.
  intros Hwf. repeat split.
  - intros H. rewrite users_dispatch, H by assumption. reflexivity.
  - by apply protocolStats_untouched.
  - intros H. pose proof (transactions_dispatch ev s Hwf) as Ht. cbv zeta in Ht.
    rewrite transactionOf_not_recorded in Ht by assumption. exact Ht.
  - intros H. rewrite lotteryPrizes_dispatch by assumption.
    destruct ev; try reflexivity; discriminate H.
  - intros H. rewrite auctionPrizes_dispatch by assumption.
    destruct ev; try reflexivity; discriminate H.
  - intros H. rewrite bids_dispatch by assumption.
    destruct ev; try reflexivity; discriminate H.
Qed.

Lemma event_footprint_witness :
  let s := processEvents [EvLotteryWon (lotteryWonOn 3 alice 100);
                          EvAuctionStarted (auctionStartedOn 3 50)] emptyStore in
  let s1 := dispatch (EvBidPlaced (bidPlacedAt 4 3 bob 10)) s in
  users s1 = users s ∧ protocolStats s1 = protocolStats s
  ∧ transactions s1 = transactions s ∧ lotteryPrizes s1 = lotteryPrizes s.
Proof.
  intros s s1.
  destruct (event_footprint (EvBidPlaced (bidPlacedAt 4 3 bob 10)) s)
    as (Hu & Hp & Ht & Hl & _).
  - apply wfStore_processEvents, wfStore_empty.
  - split; [by apply Hu|]. split; [by apply Hp|]. split; [by apply Ht | by apply Hl].
Defined.

(** ** Keys and references *)

Lemma linked_empty : linked emptyStore.
Proof.
  split; cbn [emptyStore users protocolStats transactions lotteryPrizes auctionPrizes bids];
    intros k x H; by rewrite lookup_empty in H.
Qed.

Lemma userAfter_address (ev : ContractEvent) (user : User.t) :
  User.address (userAfter ev user) = User.address user.
Proof. destruct ev; reflexivity. Qed.

Lemma currentUser_address (address : Bytes) (s : Store) :
  (∀ k u, users s !! k = Some u → k = toHexString (User.address u)) →
  User.address (currentUser address s) = address.
Proof.
  intros Hkeys. unfold currentUser, getOrCreateUser. rewrite loadUser_eq.
  destruct (users s !! toHexString address) as [u|] eqn:E; [|reflexivity].
  cbn [fst]. symmetry. exact (inj toHexString _ _ (Hkeys _ _ E)).
Qed.

Lemma userExists_dispatch (ev : ContractEvent) (s : Store) (userId : string) :
  wfStore s → userExists userId s → userExists userId (dispatch ev s).
Proof.
  unfold userExists. intros Hwf H. rewrite loadUser_eq in *.
  rewrite users_dispatch by assumption.
  destruct (eventUser ev) as [a|]; [|assumption].
  apply lookup_insert_is_Some. destruct (decide (toHexString a = userId)); auto.
Qed.

Lemma userExists_eventUser (ev : ContractEvent) (s : Store) (address : Bytes) :
  wfStore s → eventUser ev = Some address →
  userExists (toHexString address) (dispatch ev s).
Proof.
  unfold userExists. intros Hwf H. rewrite loadUser_eq, users_dispatch, H by assumption.
  rewrite lookup_insert_eq. eauto.
Qed.

Lemma transactionOf_user (ev : ContractEvent) (c : Z) (tx : Transaction.t) :
  transactionOf ev c = Some tx →
  eventUser ev = Some (Transaction.user tx)
  ∧ Transaction.userEntity tx = toHexString (Transaction.user tx).
Proof.
  destruct ev as [e|e|e|e|e|e|e|e|e]; cbn [transactionOf eventUser]; try discriminate.
  - intros [= <-]. by split.
  - intros [= <-]. by split.
  - destruct (feeTransfer e); [|discriminate]. intros [= <-]. by split.
Qed.

Lemma scanLottery_stored (matches : LotteryPrize.t → bool) (s : Store)
    (j : Z) (p : LotteryPrize.t) :
  scanLottery matches s = Some (j, p) →
  lotteryPrizes s !! lotteryKey j = Some p ∧ matches p = true.
Proof.
  intros (_ & Hload & Hm & _)%scanFirst_Some.
  rewrite loadLotteryPrize_eq in Hload. by split.
Qed.

Lemma scanAuction_stored (matches : AuctionPrize.t → bool) (s : Store)
    (j : Z) (p : AuctionPrize.t) :
  scanAuction matches s = Some (j, p) →
  auctionPrizes s !! auctionKey j = Some p ∧ matches p = true.
Proof.
  intros (_ & Hload & Hm & _)%scanFirst_Some.
  rewrite loadAuctionPrize_eq in Hload. by split.
Qed.

Lemma rotateTransactions_stored (s : Store) (k : string) (tx : Transaction.t) :
  transactions (rotateTransactions s) !! k = Some tx → transactions s !! k = Some tx.
Proof.
  rewrite <- !loadTransaction_eq. intros H.
  destruct (rotateTransactions_lookup s k) as [E|E]; congruence.
Qed.

Lemma rotateLotteryPrizes_stored (day : Z) (s : Store) (k : string) (p : LotteryPrize.t) :
  lotteryPrizes (rotateLotteryPrizes day s) !! k = Some p → lotteryPrizes s !! k = Some p.
Proof.
  rewrite <- !loadLotteryPrize_eq. intros H.
  destruct (rotateLotteryPrizes_lookup day s k) as [E|E]; congruence.
Qed.

Lemma rotateAuctionPrizes_stored (day : Z) (s : Store) (k : string) (p : AuctionPrize.t) :
  auctionPrizes (rotateAuctionPrizes day s) !! k = Some p → auctionPrizes s !! k = Some p.
Proof.
  rewrite <- !loadAuctionPrize_eq. intros H.
  destruct (rotateAuctionPrizes_lookup day s k) as [E|E]; congruence.
Qed.

Lemma linked_dispatch (ev : ContractEvent) (s : Store) :
  wfStore s → linked s → linked (dispatch ev s).
Proof.
  intros Hwf [Hu Hp Ht Hl Ha Hb].
  assert (∀ id, userExists id s → userExists id (dispatch ev s)) as Hmono
    by (intros id; by apply userExists_dispatch).
  split.
  - (* users *)
    intros k u. rewrite users_dispatch by assumption.
    destruct (eventUser ev) as [a|]; [|apply Hu].
    intros [[<- <-]|[_ H]]%lookup_insert_Some; [|by apply Hu].
    by rewrite userAfter_address, currentUser_address.
  - (* statistics *)
    intros k stats.
    destruct (protocolStats_dispatch ev s Hwf) as [-> | ->]; [apply Hp|].
    intros [[<- _]|[_ H]]%lookup_insert_Some; [reflexivity | by apply (Hp k stats)].
  - (* transactions *)
    intros k tx. pose proof (transactions_dispatch ev s Hwf) as Htx. cbv zeta in Htx.
    rewrite Htx. clear Htx.
    destruct (transactionOf ev _) as [new|] eqn:Enew.
    + intros [[_ <-]|[_ H]]%lookup_insert_Some.
      * apply transactionOf_user in Enew as [Huser Hent]. split; [exact Hent|].
        rewrite Hent. by apply userExists_eventUser.
      * apply rotateTransactions_stored in H. destruct (Ht _ _ H) as [? ?]. auto.
    + intros H. destruct (Ht _ _ H) as [? ?]. auto.
  - (* lottery prizes *)
    intros k p. rewrite lotteryPrizes_dispatch by assumption.
    destruct ev as [e|e|e|e|e|e|e|e|e];
      try (intros H; destruct (Hl _ _ H) as [? ?]; by auto).
    + intros [[_ <-]|[_ H]]%lookup_insert_Some.
      * split; [reflexivity|]. by apply userExists_eventUser.
      * apply rotateLotteryPrizes_stored in H. destruct (Hl _ _ H) as [? ?]. auto.
    + destruct (scanLottery _ s) as [[j q]|] eqn:Escan;
        [|intros H; destruct (Hl _ _ H) as [? ?]; by auto].
      apply scanLottery_stored in Escan as [Hq _].
      intros [[_ <-]|[_ H]]%lookup_insert_Some; [destruct (Hl _ _ Hq) as [? ?]
                                                 | destruct (Hl _ _ H) as [? ?]]; auto.
    + destruct (scanLottery _ s) as [[j q]|] eqn:Escan;
        [|intros H; destruct (Hl _ _ H) as [? ?]; by auto].
      apply scanLottery_stored in Escan as [Hq _].
      intros [[_ <-]|[_ H]]%lookup_insert_Some; [destruct (Hl _ _ Hq) as [? ?]
                                                 | destruct (Hl _ _ H) as [? ?]]; auto.
  - (* auction prizes *)
    assert (∀ k a, auctionPrizes s !! k = Some a →
              AuctionPrize.user a = toHexString (AuctionPrize.winner a)
              ∧ (userExists (AuctionPrize.user a) (dispatch ev s)
                 ∨ AuctionPrize.winner a = zeroAddress)) as Ha'.
    { intros k a H. destruct (Ha _ _ H) as [? [?|?]]; auto. }
    intros k a. rewrite auctionPrizes_dispatch by assumption.
    destruct ev as [e|e|e|e|e|e|e|e|e]; try apply Ha'.
    + intros [[_ <-]|[_ H]]%lookup_insert_Some.
      * split; [reflexivity|]. left. by apply userExists_eventUser.
      * apply rotateAuctionPrizes_stored in H. by apply (Ha' k).
    + destruct (scanLottery _ s) as [[j q]|]; [apply Ha'|].
      destruct (scanAuction _ s) as [[j q]|] eqn:Escan; [|apply Ha'].
      apply scanAuction_stored in Escan as [Hq _].
      intros [[_ <-]|[_ H]]%lookup_insert_Some; [exact (Ha' _ _ Hq) | by apply (Ha' k)].
    + destruct (scanLottery _ s) as [[j q]|]; [apply Ha'|].
      destruct (scanAuction _ s) as [[j q]|] eqn:Escan; [|apply Ha'].
      apply scanAuction_stored in Escan as [Hq _].
      intros [[_ <-]|[_ H]]%lookup_insert_Some; [exact (Ha' _ _ Hq) | by apply (Ha' k)].
    + destruct (auctionOn s _) as [q|]; [apply Ha'|].
      intros [[_ <-]|[_ H]]%lookup_insert_Some; [|by apply (Ha' k)].
      split; [symmetry; apply toHexString_zeroAddress | by right].
    + destruct (auctionOn s _) as [q|] eqn:Eq; [|apply Ha'].
      unfold auctionOn in Eq. rewrite loadAuctionPrize_eq in Eq.
      intros [[_ <-]|[_ H]]%lookup_insert_Some; [exact (Ha' _ _ Eq) | by apply (Ha' k)].
  - (* bids *)
    intros k b. rewrite bids_dispatch by assumption.
    destruct ev as [e|e|e|e|e|e|e|e|e]; try apply Hb.
    intros [[_ <-]|[_ H]]%lookup_insert_Some; [reflexivity | by apply (Hb k)].
Qed.

Lemma linked_run (evs : list ContractEvent) : linked (processEvents evs emptyStore).
Proof.
  induction evs as [|ev evs IH] using rev_ind; [apply linked_empty|].
  rewrite processEvents_snoc. apply linked_dispatch; [apply wfStore_run | exact IH].
Qed.

(** X20. References resolve: in every store built from the empty one,
    the user a [Transaction] or a [LotteryPrize] refers to is the stored
    [User] entity of the record's address, and so is the user of every
    [AuctionPrize], except for the placeholder written at the start of an
    auction, whose winner is the zero address.  [User] entities are never
    removed, so no later event breaks a reference. *)
Theorem references_resolve (evs : list ContractEvent) :
  let s := processEvents evs emptyStore in
  (∀ k tx, loadTransaction k s = Some tx →
     Transaction.userEntity tx = toHexString (Transaction.user tx)
     ∧ userExists (Transaction.userEntity tx) s)
  ∧ (∀ k p, loadLotteryPrize k s = Some p →
       LotteryPrize.user p = toHexString (LotteryPrize.winner p)
       ∧ userExists (LotteryPrize.user p) s)
  ∧ (∀ k a, loadAuctionPrize k s = Some a →
       AuctionPrize.user a = toHexString (AuctionPrize.winner a)
       ∧ (userExists (AuctionPrize.user a) s ∨ AuctionPrize.winner a = zeroAddress))
  ∧ (∀ userId more, userExists userId s →
       userExists userId (processEvents (evs ++ more) emptyStore)).
Proof.
  intros s. destruct (linked_run evs) as [_ _ Ht Hl Ha _]. fold s in Ht, Hl, Ha.
  split; [intros k tx; rewrite loadTransaction_eq; apply Ht|].
  split; [intros k p; rewrite loadLotteryPrize_eq; apply Hl|].
  split; [intros k a; rewrite loadAuctionPrize_eq; apply Ha|].
  intros userId more. rewrite processEvents_app. fold s.
  assert (wfStore s) as Hwf by apply wfStore_run. clear Ht Hl Ha. clearbody s.
  revert s Hwf.
  induction more as [|ev more IH]; intros s Hwf H; [exact H|].
  rewrite processEvents_cons. apply IH; [by apply wfStore_dispatch|].
  by apply userExists_dispatch.
Qed.

(** X21. Every entity sits under the key its content determines: in
    every store built from the empty one each entity is stored under its
    own id; a [User] under its address in hexadecimal; the statistics
    entity alone in its table, under the fixed id; a prize under the key
    of its own day; and a [Bid] points to the auction key of its day. *)
Theorem entities_under_their_keys (evs : list ContractEvent) :
  let s := processEvents evs emptyStore in
  (∀ k u, loadUser k s = Some u → User.id u = k ∧ k = toHexString (User.address u))
  ∧ (∀ k stats, loadProtocolStats k s = Some stats →
       ProtocolStats.id stats = k ∧ k = PROTOCOL_STATS_ID)
  ∧ (∀ k tx, loadTransaction k s = Some tx → Transaction.id tx = k)
  ∧ (∀ k p, loadLotteryPrize k s = Some p →
       LotteryPrize.id p = k ∧ k = lotteryKey (LotteryPrize.day p))
  ∧ (∀ k a, loadAuctionPrize k s = Some a →
       AuctionPrize.id a = k ∧ k = auctionKey (AuctionPrize.day a))
  ∧ (∀ k b, bids s !! k = Some b → Bid.id b = k ∧ Bid.auction b = auctionKey (Bid.day b)).
Proof.
  intros s. destruct (linked_run evs) as [Hu Hp _ _ _ Hb].
  destruct (reachable_invariants evs) as [[Wu Wp Wt Wl Wa Wb] [Pl Pa]].
  fold s in Hu, Hp, Hb, Wu, Wp, Wt, Wl, Wa, Wb, Pl, Pa.
  split; [intros k u H; rewrite loadUser_eq in H; split; [exact (Wu _ _ H) | by apply Hu]|].
  split; [intros k x H; rewrite loadProtocolStats_eq in H;
          split; [exact (Wp _ _ H) | by apply (Hp k x)]|].
  split; [intros k x H; rewrite loadTransaction_eq in H; exact (Wt _ _ H)|].
  split; [intros k x H; rewrite loadLotteryPrize_eq in H;
          split; [exact (Wl _ _ H) | exact (proj1 (Pl _ _ H))]|].
  split; [intros k x H; rewrite loadAuctionPrize_eq in H;
          split; [exact (Wa _ _ H) | exact (proj1 (Pa _ _ H))]|].
  intros k b H. split; [exact (Wb _ _ H) | by apply (Hb k)].
Qed.

(** ** Accounting of the lottery prizes *)

Lemma sumMap_empty {A} (f : A → Z) : sumMap f ∅ = 0.
Proof. unfold sumMap. apply map_fold_empty. Qed.

Lemma sumMap_insert_fresh {A} (f : A → Z) (m : gmap string A) (k : string) (x : A) :
  m !! k = None → sumMap f (<[k := x]> m) = f x + sumMap f m.
Proof.
  intros H. unfold sumMap. rewrite map_fold_insert_L; [reflexivity| |assumption].
  intros. lia.
Qed.

Lemma sumMap_delete {A} (f : A → Z) (m : gmap string A) (k : string) (x : A) :
  m !! k = Some x → sumMap f m = f x + sumMap f (delete k m).
Proof.
  intros H. unfold sumMap. rewrite (map_fold_delete_L _ _ k x m); [reflexivity| |assumption].
  intros. lia.
Qed.

Lemma sumMap_insert {A} (f : A → Z) (m : gmap string A) (k : string) (x : A) :
  sumMap f (<[k := x]> m) = f x + sumMap f (delete k m).
Proof.
  rewrite <- (insert_delete_eq m k x). apply sumMap_insert_fresh, lookup_delete_eq.
Qed.

Lemma sumMap_replace {A} (f : A → Z) (m : gmap string A) (k : string) (old x : A) :
  m !! k = Some old → sumMap f (<[k := x]> m) = sumMap f m - f old + f x.
Proof. intros H. rewrite sumMap_insert, (sumMap_delete f m k old H). lia. Qed.

Lemma sumMap_submap {A} (f : A → Z) (m' m : gmap string A) :
  (∀ k x, m !! k = Some x → 0 ≤ f x) →
  (∀ k x, m' !! k = Some x → m !! k = Some x) →
  0 ≤ sumMap f m' ≤ sumMap f m.
Proof.
  revert m. induction m' as [|k x m' Hk IH] using map_ind; intros m Hpos Hsub.
  - rewrite sumMap_empty. split; [lia|].
    induction m as [|k x m Hk IHm] using map_ind; [rewrite sumMap_empty; lia|].
    rewrite sumMap_insert_fresh by assumption.
    pose proof (Hpos k x (lookup_insert_eq _ _ _)).
    assert (0 ≤ sumMap f m); [|lia]. apply IHm.
    + intros j y Hj. apply (Hpos j). rewrite lookup_insert_ne; [assumption|]. congruence.
    + intros j y Hj. by rewrite lookup_empty in Hj.
  - assert (m !! k = Some x) as Hmk by (apply Hsub, lookup_insert_eq).
    rewrite sumMap_insert_fresh by assumption. rewrite (sumMap_delete f m k x Hmk).
    pose proof (Hpos k x Hmk).
    destruct (IH (delete k m)) as [H0 Hle]; [| |lia].
    + intros j y [_ Hj]%lookup_delete_Some. by apply (Hpos j).
    + intros j y Hj. apply lookup_delete_Some. split; [congruence|].
      apply Hsub. rewrite lookup_insert_ne; [assumption|]. congruence.
Qed.

Lemma openAmount_nonneg (p : LotteryPrize.t) : 0 ≤ LotteryPrize.amount p → 0 ≤ openAmount p.
Proof. unfold openAmount. destruct (_ || _); lia. Qed.

(** The statistics of the lottery after one event. *)
Lemma lotteryStats_statsAfter (ev : ContractEvent) (s : Store) (stats : ProtocolStats.t) :
  ProtocolStats.totalLotteryPrizes (statsAfter ev s stats)
  = ProtocolStats.totalLotteryPrizes stats + lotteryPrizeOf ev
  ∧ ProtocolStats.totalLotteryClaimed (statsAfter ev s stats)
    = ProtocolStats.totalLotteryClaimed stats
      + match ev with
        | EvPrizeClaimed e =>
            match scanLottery (lotteryMatchesClaim (PrizeClaimed.winner (params e))
                                 (PrizeClaimed.amount (params e))) s with
            | Some _ => PrizeClaimed.amount (params e)
            | None => 0
            end
        | _ => 0
        end
  ∧ ProtocolStats.totalLotteryExpired (statsAfter ev s stats)
    = ProtocolStats.totalLotteryExpired stats
      + match ev with
        | EvBeneficiaryFunded e =>
            match scanLottery (lotteryMatchesExpiry
                                 (BeneficiaryFunded.previousWinner (params e))) s with
            | Some (_, p) => LotteryPrize.amount p
            | None => 0
            end
        | _ => 0
        end.
Proof.
  revert ev s stats. stats_cases; cbn; repeat split; lia.
Qed.

Lemma lottery_accounting_run (evs : list ContractEvent) :
  Forall (λ ev, 0 ≤ lotteryPrizeOf ev) evs →
  let s := processEvents evs emptyStore in
  let stats := currentStats s in
  (∀ k p, lotteryPrizes s !! k = Some p → 0 ≤ LotteryPrize.amount p)
  ∧ 0 ≤ ProtocolStats.totalLotteryClaimed stats
  ∧ 0 ≤ ProtocolStats.totalLotteryExpired stats
  ∧ ProtocolStats.totalLotteryClaimed stats + ProtocolStats.totalLotteryExpired stats
    + openLottery s
    ≤ ProtocolStats.totalLotteryPrizes stats.
Proof.
  induction evs as [|ev evs IH] using rev_ind; intros Hpos; cbv zeta.
  - cbn [processEvents fold_left]. rewrite currentStats_empty.
    unfold openLottery. cbn [emptyStore lotteryPrizes]. rewrite sumMap_empty.
    split; [intros k p H; by rewrite lookup_empty in H|]. cbn. lia.
  - apply Forall_app in Hpos as [Hpos Hev]. apply Forall_cons in Hev as [Hev _].
    specialize (IH Hpos). cbv zeta in IH. destruct IH as (Hamt & Hc & He & Hsum).
    rewrite processEvents_snoc.
    set (s := processEvents evs emptyStore) in *.
    assert (wfStore s) as Hwf by apply wfStore_run.
    rewrite currentStats_dispatch by assumption.
    destruct (lotteryStats_statsAfter ev s (currentStats s)) as (-> & -> & ->).
    unfold openLottery in *. rewrite lotteryPrizes_dispatch by assumption.
    assert (∀ k p, lotteryPrizes s !! k = Some p → 0 ≤ openAmount p) as Hopen
      by (intros k p H; apply openAmount_nonneg, (Hamt k p H)).
    destruct ev as [e|e|e|e|e|e|e|e|e]; cbn [lotteryPrizeOf] in *;
      try (split; [exact Hamt|]; lia).
    + (* a win: rotation and overwriting only drop open amounts *)
      set (R := lotteryPrizes (rotateLotteryPrizes (winDay e) s)).
      assert (∀ k p, R !! k = Some p → lotteryPrizes s !! k = Some p) as Hsub
        by (intros k p; apply rotateLotteryPrizes_stored).
      split.
      { intros k p [[_ <-]|[_ H]]%lookup_insert_Some; [exact Hev|].
        apply (Hamt k), Hsub, H. }
      rewrite sumMap_insert.
      assert (sumMap openAmount (delete (lotteryKey (winDay e)) R)
              ≤ sumMap openAmount (lotteryPrizes s)) as Hle.
      { apply sumMap_submap; [exact Hopen|].
        intros k p [_ H]%lookup_delete_Some. by apply Hsub. }
      change (openAmount (lotteryWonRecord e _)) with (LotteryWon.amount (params e)).
      lia.
    + (* a claim *)
      destruct (scanLottery _ s) as [[j p]|] eqn:Escan; [|split; [exact Hamt|]; lia].
      destruct (scanLottery_stored _ _ _ _ Escan) as [Hp Hm].
      pose proof (wf_lotteryPrizes s Hwf _ _ Hp) as Hid. rewrite Hid.
      apply lotteryMatchesClaim_true in Hm as (_ & Ha & Hcl & Hex).
      pose proof (Hamt _ _ Hp) as Hp0.
      split.
      { intros k q [[_ <-]|[_ H]]%lookup_insert_Some; [exact Hp0 | by apply (Hamt k)]. }
      rewrite (sumMap_replace _ _ _ p) by assumption.
      unfold openAmount at 2 3. cbn [claimedLottery LotteryPrize.claimed LotteryPrize.expired
        LotteryPrize.set_claimTxHash LotteryPrize.set_claimTimestamp LotteryPrize.set_claimed
        LotteryPrize.amount orb].
      rewrite Hcl, Hex. cbn [orb]. lia.
    + (* an expiry *)
      destruct (scanLottery _ s) as [[j p]|] eqn:Escan; [|split; [exact Hamt|]; lia].
      destruct (scanLottery_stored _ _ _ _ Escan) as [Hp Hm].
      pose proof (wf_lotteryPrizes s Hwf _ _ Hp) as Hid. rewrite Hid.
      apply lotteryMatchesExpiry_true in Hm as (_ & Hcl & Hex).
      pose proof (Hamt _ _ Hp) as Hp0.
      split.
      { intros k q [[_ <-]|[_ H]]%lookup_insert_Some; [exact Hp0 | by apply (Hamt k)]. }
      rewrite (sumMap_replace _ _ _ p) by assumption.
      unfold openAmount at 2 3.
      cbn [expiredLottery LotteryPrize.claimed LotteryPrize.expired
        LotteryPrize.set_beneficiary LotteryPrize.set_expiryTxHash
        LotteryPrize.set_expiryTimestamp LotteryPrize.set_expired LotteryPrize.amount].
      rewrite Hcl, Hex. cbn [orb]. lia.
Qed.

(** X22. The lottery pays out no more than it awarded: in every store
    built from the empty one by a log whose lottery prizes are not
    negative, the totals of claimed and of expired lottery prizes, plus
    the amounts of the stored records that are still neither claimed nor
    expired, do not exceed the total of the lottery prizes won; each of
    these quantities is non-negative. *)
Theorem lottery_payouts_bounded (evs : list ContractEvent) :
  Forall (λ ev, 0 ≤ lotteryPrizeOf ev) evs →
  let s := processEvents evs emptyStore in
  let stats := currentStats s in
  0 ≤ ProtocolStats.totalLotteryClaimed stats
  ∧ 0 ≤ ProtocolStats.totalLotteryExpired stats
  ∧ 0 ≤ openLottery s
  ∧ ProtocolStats.totalLotteryClaimed stats + ProtocolStats.totalLotteryExpired stats
    + openLottery s
    ≤ ProtocolStats.totalLotteryPrizes stats.
Proof.
  intros Hpos s stats.
  destruct (lottery_accounting_run evs Hpos) as (Hamt & Hc & He & Hsum).
  fold s in Hamt, Hc, He, Hsum. fold stats in Hc, He, Hsum.
  split; [exact Hc|]. split; [exact He|]. split; [|exact Hsum].
  unfold openLottery.
  apply (sumMap_submap openAmount (lotteryPrizes s) (lotteryPrizes s)); [|auto].
  intros k p H. apply openAmount_nonneg, (Hamt k p H).
Qed.

Lemma lottery_payouts_bounded_witness :
  let s := processEvents [EvLotteryWon (lotteryWonOn 3 alice 100);
                          EvLotteryWon (lotteryWonOn 5 bob 40);
                          EvPrizeClaimed (prizeClaimedBy 6 alice 100);
                          EvLotteryWon (lotteryWonOn 3 alice 7)] emptyStore in
  ProtocolStats.totalLotteryClaimed (currentStats s)
  + ProtocolStats.totalLotteryExpired (currentStats s)
  ≤ ProtocolStats.totalLotteryPrizes (currentStats s).
Proof.
  intros s.
  destruct (lottery_payouts_bounded
              [EvLotteryWon (lotteryWonOn 3 alice 100);
               EvLotteryWon (lotteryWonOn 5 bob 40);
               EvPrizeClaimed (prizeClaimedBy 6 alice 100);
               EvLotteryWon (lotteryWonOn 3 alice 7)])
    as (_ & _ & Hopen & Hsum).
  - repeat constructor; cbn; lia.
  - fold s in Hopen, Hsum. lia.
Defined.

(** ** Where each recorded event is stored, and which one goes *)

Lemma transactionOf_timestamp (ev : ContractEvent) (c : Z) (tx : Transaction.t) :
  transactionOf ev c = Some tx → Transaction.timestamp tx = eventTimestamp ev.
Proof.
  destruct ev as [e|e|e|e|e|e|e|e|e]; cbn [transactionOf eventTimestamp]; try discriminate.
  - by intros [= <-].
  - by intros [= <-].
  - destruct (feeTransfer e); [|discriminate]. by intros [= <-].
Qed.

Lemma recordedStamps_snoc (evs : list ContractEvent) (ev : ContractEvent) :
  recordedStamps (evs ++ [ev])
  = (recordedStamps evs ++ if recorded ev then [eventTimestamp ev] else [])%list.
Proof.
  unfold recordedStamps. rewrite omap_app. f_equal. simpl.
  by destruct (recorded ev).
Qed.

(** X23. Each recorded event is stored at once, under the counter value
    it found: the event that follows a log with [n] recorded events
    leaves its transaction (of type MINT, REDEEM or TRANSFER, with the
    fields of the event) under the key [n], as an [i32]. *)
Theorem recorded_event_is_stored (evs : list ContractEvent) (ev : ContractEvent) :
  recorded ev = true →
  let n := wrap32 (countOver recorded evs) in
  loadTransaction (toString n) (processEvents (evs ++ [ev]) emptyStore)
  = transactionOf ev n
  ∧ is_Some (transactionOf ev n).
Proof.
  intros Hrec n. split; [|by apply transactionOf_recorded].
  rewrite processEvents_snoc, loadTransaction_eq.
  pose proof (transactions_dispatch ev (processEvents evs emptyStore) (wfStore_run evs))
    as Ht. cbv zeta in Ht.
  assert (ProtocolStats.transactionCounter (currentStats (processEvents evs emptyStore)) = n)
    as Hc.
  { subst n. apply (stats_count ProtocolStats.transactionCounter); [reflexivity|].
    stats_cases; reflexivity. }
  rewrite Hc in Ht. rewrite Ht.
  destruct (transactionOf_recorded ev n Hrec) as [tx Htx]. rewrite Htx.
  apply lookup_insert_eq.
Qed.

Lemma recorded_event_is_stored_witness :
  Transaction.type
  <$> loadTransaction "2"
        (processEvents (mints 2 ++ [EvTransfer (transferOf 3 alice feesPoolAddress 9)])
           emptyStore)
  = Some "TRANSFER".
Proof.
  destruct (recorded_event_is_stored (mints 2)
              (EvTransfer (transferOf 3 alice feesPoolAddress 9))) as [H _].
  - vm_compute. reflexivity.
  - cbv zeta in H.
    change (toString (wrap32 (countOver recorded (mints 2)))) with "2" in H.
    rewrite H. vm_compute. reflexivity.
Defined.

Lemma oldestFirst_empty : oldestFirst 0 [] emptyStore.
Proof.
  unfold oldestFirst. setoid_rewrite loadTransaction_eq.
  cbn [emptyStore transactions]. setoid_rewrite lookup_empty.
  split; [discriminate|]. split; [discriminate|]. split; [lia|].
  unfold MAX_TRANSACTIONS. lia.
Qed.

Lemma oldestFirst_recorded (n : Z) (stamps : list BigInt) (s s' : Store) (tx : Transaction.t) :
  wfStore s → 0 ≤ n → n + 1 < 2 ^ 31 →
  transactionsInv n s → oldestFirst n stamps s →
  Forall (λ ts, ts ≤ Transaction.timestamp tx) stamps →
  transactions s' = <[toString n := tx]> (transactions (rotateTransactions s)) →
  oldestFirst (n + 1) (stamps ++ [Transaction.timestamp tx]) s'.
Proof.
  unfold transactionsInv, oldestFirst, MAX_TRANSACTIONS.
  intros Hwf Hn Hbound (Hc & Hkeys & Hfull & Hgap & Hsize) (HA & HB & HC & HD) Hstamps Ht'.
  rewrite Forall_forall in Hstamps.
  pose proof (transactionsInv_fresh n s Hkeys) as Hfree.
  assert (∀ j, j ≠ n → toString n ≠ toString j) as Hne
    by (intros j Hj E%toString_inj; congruence).
  (* the table after the rotation: the one before, without key 0 at the cap *)
  assert (∀ k x, transactions (rotateTransactions s) !! k = Some x →
            loadTransaction k s = Some x) as Hold.
  { intros k x H. rewrite loadTransaction_eq. by apply rotateTransactions_stored. }
  assert (∀ j, 1 ≤ j < n →
            is_Some (transactions (rotateTransactions s) !! toString j)) as Hkept.
  { intros j Hj. destruct (decide (n = 10)) as [->|Hn10].
    - destruct (rotateTransactions_at_cap s Hwf) as (d & oldest & Hd & Hload & Hrot & _ & Hfirst).
      { intros i Hi. apply Hfull; unfold MAX_TRANSACTIONS in *; lia. }
      { exact Hfree. }
      unfold MAX_TRANSACTIONS in Hd.
      assert (d = 0) as ->.
      { destruct (decide (d = 0)) as [|Hd0]; [assumption|].
        destruct (Hfull ltac:(lia) 0 ltac:(lia)) as [tx0 Htx0].
        pose proof (Hfirst 0 tx0 ltac:(lia) Htx0).
        pose proof (HB 0 d tx0 oldest ltac:(lia) Htx0 Hload). lia. }
      rewrite Hrot, lookup_delete_ne by (intros E%toString_inj; lia).
      rewrite <- loadTransaction_eq. apply HC. lia.
    - assert (rotateTransactions s = s) as ->.
      { destruct (decide (n < 10)) as [Hlt|Hge].
        - apply (rotateTransactions_noop n); [unfold MAX_TRANSACTIONS; lia | exact Hfree].
        - apply (rotateTransactions_noop 0); [unfold MAX_TRANSACTIONS; lia|].
          apply HD. lia. }
      rewrite <- loadTransaction_eq. by apply HC. }
  assert (10 ≤ n → transactions (rotateTransactions s) !! toString 0 = None) as Hzero.
  { intros Hge. destruct (decide (n = 10)) as [->|Hn10].
    - destruct (rotateTransactions_at_cap s Hwf) as (d & oldest & Hd & Hload & Hrot & _ & Hfirst).
      { intros i Hi. apply Hfull; unfold MAX_TRANSACTIONS in *; lia. }
      { exact Hfree. }
      unfold MAX_TRANSACTIONS in Hd.
      assert (d = 0) as ->.
      { destruct (decide (d = 0)) as [|Hd0]; [assumption|].
        destruct (Hfull ltac:(lia) 0 ltac:(lia)) as [tx0 Htx0].
        pose proof (Hfirst 0 tx0 ltac:(lia) Htx0).
        pose proof (HB 0 d tx0 oldest ltac:(lia) Htx0 Hload). lia. }
      rewrite Hrot. apply lookup_delete_eq.
    - destruct (transactions (rotateTransactions s) !! toString 0) as [x|] eqn:E;
        [|reflexivity].
      apply Hold in E. rewrite HD in E by lia. discriminate. }
  setoid_rewrite loadTransaction_eq. rewrite Ht'.
  split; [|split; [|split]].
  - intros k x [[_ <-]|[_ H]]%lookup_insert_Some.
    + apply elem_of_app. right. by left.
    + apply elem_of_app. left. apply (HA k). by apply Hold.
  - intros i j txi txj Hij Hi Hj.
    apply lookup_insert_Some in Hj as [[Hjn <-]|[Hjn Hj]].
    + apply lookup_insert_Some in Hi as [[_ <-]|[_ Hi]]; [lia|].
      apply Hstamps, (HA (toString i)). by apply Hold.
    + apply lookup_insert_Some in Hi as [[Hin <-]|[_ Hi]].
      * apply toString_inj in Hin. subst i.
        apply Hold in Hj. destruct (Hkeys _ _ Hj) as (j' & Ej%toString_inj & Hj'). lia.
      * apply (HB i j); [lia | by apply Hold | by apply Hold].
  - intros j Hj. destruct (decide (j = n)) as [->|Hjn].
    + rewrite lookup_insert_eq. eauto.
    + rewrite lookup_insert_ne by (by apply Hne). apply Hkept. lia.
  - intros Hgt. rewrite lookup_insert_ne by (apply Hne; lia). apply Hzero. lia.
Qed.

Lemma oldestFirst_run (evs : list ContractEvent) :
  countOver recorded evs < 2 ^ 31 →
  StronglySorted Z.le (recordedStamps evs) →
  oldestFirst (countOver recorded evs) (recordedStamps evs) (processEvents evs emptyStore).
Proof.
  induction evs as [|ev evs IH] using rev_ind; intros Hbound Hsorted.
  - apply oldestFirst_empty.
  - rewrite countOver_snoc, recordedStamps_snoc, processEvents_snoc in *.
    pose proof (countOver_nonneg recorded evs) as Hn.
    set (s := processEvents evs emptyStore) in *.
    assert (wfStore s) as Hwf by apply wfStore_run.
    pose proof (transactions_dispatch ev s Hwf) as Ht. cbv zeta in Ht.
    destruct (recorded ev) eqn:Erec.
    + apply StronglySorted_app in Hsorted as (Hle & Hsorted & _).
      assert (transactionsInv (countOver recorded evs) s) as Hinv
        by (apply transactionsInv_run; lia).
      pose proof Hinv as (Hc & _). rewrite Hc in Ht.
      destruct (transactionOf_recorded ev (countOver recorded evs) Erec) as [tx Htx].
      rewrite Htx in Ht.
      pose proof (transactionOf_timestamp _ _ _ Htx) as Hts. rewrite <- Hts.
      apply (oldestFirst_recorded _ _ s); try assumption; try lia.
      * apply IH; [lia | assumption].
      * apply Forall_forall. intros ts Hin. rewrite Hts. apply Hle; [assumption | by left].
    + rewrite app_nil_r in *. rewrite Z.add_0_r in *.
      rewrite (transactionOf_not_recorded _ _ Erec) in Ht.
      specialize (IH Hbound Hsorted). unfold oldestFirst in *.
      setoid_rewrite loadTransaction_eq. rewrite Ht.
      setoid_rewrite loadTransaction_eq in IH. exact IH.
Qed.

(** X24. When the events that write a transaction come in the order of
    their block timestamps, as the events of a chain do, the one record
    the rotation ever deletes is the first: once more than ten such
    events were processed, key ["0"] is free and every later
    transaction, under the keys ["1"] to ["n - 1"], is still stored. *)
Theorem only_the_first_transaction_is_evicted (evs : list ContractEvent) :
  let n := countOver recorded evs in
  let s := processEvents evs emptyStore in
  n < 2 ^ 31 →
  StronglySorted Z.le (recordedStamps evs) →
  MAX_TRANSACTIONS < n →
  loadTransaction (toString 0) s = None
  ∧ ∀ j, 1 ≤ j < n → is_Some (loadTransaction (toString j) s).
Proof.
  intros n s Hbound Hsorted Hn.
  destruct (oldestFirst_run evs Hbound Hsorted) as (_ & _ & HC & HD).
  split; [by apply HD | exact HC].
Qed.

Lemma only_the_first_transaction_is_evicted_witness :
  let s := processEvents (mints 12) emptyStore in
  loadTransaction "0" s = None ∧ is_Some (loadTransaction "1" s)
  ∧ is_Some (loadTransaction "11" s).
Proof.
  intros s.
  destruct (only_the_first_transaction_is_evicted (mints 12)) as [H0 Hrest].
  - vm_compute. reflexivity.
  - vm_compute. repeat constructor; discriminate.
  - vm_compute. reflexivity.
  - split; [exact H0|]. split.
    + apply (Hrest 1). vm_compute. split; [discriminate | reflexivity].
    + apply (Hrest 11). vm_compute. split; [discriminate | reflexivity].
Defined.

(** ** Accounting of the auction prizes *)

Lemma auctionStats_statsAfter (ev : ContractEvent) (s : Store) (stats : ProtocolStats.t) :
  ProtocolStats.totalAuctionPrizes (statsAfter ev s stats)
  = ProtocolStats.totalAuctionPrizes stats + auctionPrizeOf ev
  ∧ ProtocolStats.totalAuctionClaimed (statsAfter ev s stats)
    = ProtocolStats.totalAuctionClaimed stats
      + match ev with
        | EvPrizeClaimed e =>
            match scanLottery (lotteryMatchesClaim (PrizeClaimed.winner (params e))
                                 (PrizeClaimed.amount (params e))) s with
            | Some _ => 0
            | None =>
                match scanAuction (auctionMatchesClaim (PrizeClaimed.winner (params e))
                                     (PrizeClaimed.amount (params e))) s with
                | Some _ => PrizeClaimed.amount (params e)
                | None => 0
                end
            end
        | _ => 0
        end
  ∧ ProtocolStats.totalAuctionExpired (statsAfter ev s stats)
    = ProtocolStats.totalAuctionExpired stats
      + match ev with
        | EvBeneficiaryFunded e =>
            match scanLottery (lotteryMatchesExpiry
                                 (BeneficiaryFunded.previousWinner (params e))) s with
            | Some _ => 0
            | None =>
                match scanAuction (auctionMatchesExpiry
                                     (BeneficiaryFunded.previousWinner (params e))) s with
                | Some (_, a) => AuctionPrize.stratAmount a
                | None => 0
                end
            end
        | _ => 0
        end.
Proof.
  revert ev s stats. stats_cases; cbn; repeat split; lia.
Qed.

Lemma openAuctionAmount_nonneg (a : AuctionPrize.t) :
  (AuctionPrize.winner a ≠ zeroAddress → 0 ≤ AuctionPrize.stratAmount a) →
  0 ≤ openAuctionAmount a.
Proof.
  unfold openAuctionAmount. intros H. case_bool_decide as Hw.
  - rewrite orb_true_r. lia.
  - destruct (_ || _ || false); [lia | by apply H].
Qed.

Lemma openAuctionAmount_open (a : AuctionPrize.t) :
  AuctionPrize.claimed a = false → AuctionPrize.expired a = false →
  AuctionPrize.winner a ≠ zeroAddress →
  openAuctionAmount a = AuctionPrize.stratAmount a.
Proof.
  unfold openAuctionAmount. intros -> -> Hw.
  rewrite bool_decide_eq_false_2 by assumption. reflexivity.
Qed.

Lemma auction_accounting_run (evs : list ContractEvent) :
  Forall (λ ev, 0 ≤ auctionPrizeOf ev) evs →
  Forall (λ ev, soughtWinner ev ≠ Some zeroAddress) evs →
  let s := processEvents evs emptyStore in
  let stats := currentStats s in
  (∀ k a, auctionPrizes s !! k = Some a →
     AuctionPrize.winner a ≠ zeroAddress → 0 ≤ AuctionPrize.stratAmount a)
  ∧ 0 ≤ ProtocolStats.totalAuctionClaimed stats
  ∧ 0 ≤ ProtocolStats.totalAuctionExpired stats
  ∧ ProtocolStats.totalAuctionClaimed stats + ProtocolStats.totalAuctionExpired stats
    + openAuction s
    ≤ ProtocolStats.totalAuctionPrizes stats.
Proof.
  induction evs as [|ev evs IH] using rev_ind; intros Hpos Hsought; cbv zeta.
  - cbn [processEvents fold_left]. rewrite currentStats_empty.
    unfold openAuction. cbn [emptyStore auctionPrizes]. rewrite sumMap_empty.
    split; [intros k p H; by rewrite lookup_empty in H|]. cbn. lia.
  - apply Forall_app in Hpos as [Hpos Hev]. apply Forall_cons in Hev as [Hev _].
    apply Forall_app in Hsought as [Hsought Hw]. apply Forall_cons in Hw as [Hw _].
    specialize (IH Hpos Hsought). cbv zeta in IH. destruct IH as (Hamt & Hc & He & Hsum).
    rewrite processEvents_snoc.
    set (s := processEvents evs emptyStore) in *.
    assert (wfStore s) as Hwf by apply wfStore_run.
    rewrite currentStats_dispatch by assumption.
    destruct (auctionStats_statsAfter ev s (currentStats s)) as (-> & -> & ->).
    unfold openAuction in *. rewrite auctionPrizes_dispatch by assumption.
    assert (∀ k a, auctionPrizes s !! k = Some a → 0 ≤ openAuctionAmount a) as Hopen
      by (intros k a H; apply openAuctionAmount_nonneg, (Hamt k a H)).
    destruct ev as [e|e|e|e|e|e|e|e|e]; cbn [auctionPrizeOf soughtWinner] in *;
      try (split; [exact Hamt|]; lia).
    + (* a win: rotation and overwriting only drop open amounts *)
      set (R := auctionPrizes (rotateAuctionPrizes (AuctionWon.day (params e)) s)).
      assert (∀ k a, R !! k = Some a → auctionPrizes s !! k = Some a) as Hsub
        by (intros k a; apply rotateAuctionPrizes_stored).
      split.
      { intros k a [[_ <-]|[_ H]]%lookup_insert_Some; [intros _; exact Hev|].
        apply (Hamt k), Hsub, H. }
      rewrite sumMap_insert.
      assert (sumMap openAuctionAmount (delete (auctionKey (AuctionWon.day (params e))) R)
              ≤ sumMap openAuctionAmount (auctionPrizes s)) as Hle.
      { apply sumMap_submap; [exact Hopen|].
        intros k a [_ H]%lookup_delete_Some. by apply Hsub. }
      assert (openAuctionAmount
                (auctionWonRecord e (toHexString (AuctionWon.winner (params e))))
              ≤ AuctionWon.stratAmount (params e)) as Hnew.
      { unfold openAuctionAmount, auctionWonRecord.
        cbn [AuctionPrize.claimed AuctionPrize.expired AuctionPrize.winner
             AuctionPrize.stratAmount orb].
        destruct (bool_decide _); lia. }
      lia.
    + (* a claim *)
      destruct (scanLottery _ s) as [[j p]|]; [split; [exact Hamt|]; lia|].
      destruct (scanAuction _ s) as [[j a]|] eqn:Escan; [|split; [exact Hamt|]; lia].
      destruct (scanAuction_stored _ _ _ _ Escan) as [Ha Hm].
      pose proof (wf_auctionPrizes s Hwf _ _ Ha) as Hid. rewrite Hid.
      apply auctionMatchesClaim_true in Hm as (Hwin & Hval & Hcl & Hex).
      assert (AuctionPrize.winner a ≠ zeroAddress) as Hnz by congruence.
      pose proof (Hamt _ _ Ha Hnz) as Ha0.
      split.
      { intros k q [[_ <-]|[_ H]]%lookup_insert_Some; [intros _; exact Ha0 | by apply (Hamt k)]. }
      rewrite (sumMap_replace _ _ _ a) by assumption.
      rewrite (openAuctionAmount_open a) by assumption.
      unfold openAuctionAmount at 2.
      cbn [claimedAuction AuctionPrize.claimed AuctionPrize.set_claimTxHash
           AuctionPrize.set_claimTimestamp AuctionPrize.set_claimed orb].
      lia.
    + (* an expiry *)
      destruct (scanLottery _ s) as [[j p]|]; [split; [exact Hamt|]; lia|].
      destruct (scanAuction _ s) as [[j a]|] eqn:Escan; [|split; [exact Hamt|]; lia].
      destruct (scanAuction_stored _ _ _ _ Escan) as [Ha Hm].
      pose proof (wf_auctionPrizes s Hwf _ _ Ha) as Hid. rewrite Hid.
      apply auctionMatchesExpiry_true in Hm as (Hwin & Hcl & Hex).
      assert (AuctionPrize.winner a ≠ zeroAddress) as Hnz by congruence.
      pose proof (Hamt _ _ Ha Hnz) as Ha0.
      split.
      { intros k q [[_ <-]|[_ H]]%lookup_insert_Some; [intros _; exact Ha0 | by apply (Hamt k)]. }
      rewrite (sumMap_replace _ _ _ a) by assumption.
      rewrite (openAuctionAmount_open a) by assumption.
      unfold openAuctionAmount at 2.
      cbn [expiredAuction AuctionPrize.claimed AuctionPrize.expired
           AuctionPrize.set_beneficiary AuctionPrize.set_expiryTxHash
           AuctionPrize.set_expiryTimestamp AuctionPrize.set_expired].
      rewrite Hcl. cbn [orb]. lia.
    + (* the start of an auction: a placeholder, which holds nothing *)
      destruct (auctionOn s _) as [q|] eqn:Eq; [split; [exact Hamt|]; lia|].
      unfold auctionOn in Eq. rewrite loadAuctionPrize_eq in Eq.
      split.
      { intros k a [[_ <-]|[_ H]]%lookup_insert_Some; [|by apply (Hamt k)].
        intros Hnz. by destruct Hnz. }
      rewrite sumMap_insert_fresh by assumption.
      unfold openAuctionAmount at 1. cbn [auctionPlaceholder AuctionPrize.winner].
      rewrite bool_decide_eq_true_2 by reflexivity. rewrite orb_true_r. lia.
    + (* a bid: the record keeps what it holds *)
      destruct (auctionOn s _) as [q|] eqn:Eq; [|split; [exact Hamt|]; lia].
      unfold auctionOn in Eq. rewrite loadAuctionPrize_eq in Eq.
      split.
      { intros k a [[_ <-]|[_ H]]%lookup_insert_Some; [exact (Hamt _ _ Eq) | by apply (Hamt k)]. }
      rewrite (sumMap_replace _ _ _ q) by assumption.
      change (openAuctionAmount (countedBid q)) with (openAuctionAmount q). lia.
Qed.

(** X25. Auctions pay out no more than they awarded, as long as no claim
    or expiry names the zero address (the winner of the placeholder that
    the start of an auction writes, which such an event would match):
    for a log with non-negative auction prizes, the totals of claimed and
    of expired auction prizes, plus the token amounts of the stored
    records with a winner that are still neither claimed nor expired, do
    not exceed the total of the auction prizes won. *)
Theorem auction_payouts_bounded (evs : list ContractEvent) :
  Forall (λ ev, 0 ≤ auctionPrizeOf ev) evs →
  Forall (λ ev, soughtWinner ev ≠ Some zeroAddress) evs →
  let s := processEvents evs emptyStore in
  let stats := currentStats s in
  0 ≤ ProtocolStats.totalAuctionClaimed stats
  ∧ 0 ≤ ProtocolStats.totalAuctionExpired stats
  ∧ 0 ≤ openAuction s
  ∧ ProtocolStats.totalAuctionClaimed stats + ProtocolStats.totalAuctionExpired stats
    + openAuction s
    ≤ ProtocolStats.totalAuctionPrizes stats.
Proof.
  intros Hpos Hsought s stats.
  destruct (auction_accounting_run evs Hpos Hsought) as (Hamt & Hc & He & Hsum).
  fold s in Hamt, Hc, He, Hsum. fold stats in Hc, He, Hsum.
  split; [exact Hc|]. split; [exact He|]. split; [|exact Hsum].
  unfold openAuction.
  apply (sumMap_submap openAuctionAmount (auctionPrizes s) (auctionPrizes s)); [|auto].
  intros k a H. apply openAuctionAmount_nonneg, (Hamt k a H).
Qed.

Lemma auction_payouts_bounded_witness :
  let s := processEvents [EvAuctionStarted (auctionStartedOn 2 60);
                          EvBidPlaced (bidPlacedAt 3 2 alice 5);
                          EvAuctionWon (auctionWonAt 4 2 alice 60 7);
                          EvPrizeClaimed (prizeClaimedBy 6 alice 60)] emptyStore in
  ProtocolStats.totalAuctionClaimed (currentStats s)
  + ProtocolStats.totalAuctionExpired (currentStats s)
  ≤ ProtocolStats.totalAuctionPrizes (currentStats s).
Proof.
  intros s.
  destruct (auction_payouts_bounded
              [EvAuctionStarted (auctionStartedOn 2 60);
               EvBidPlaced (bidPlacedAt 3 2 alice 5);
               EvAuctionWon (auctionWonAt 4 2 alice 60 7);
               EvPrizeClaimed (prizeClaimedBy 6 alice 60)])
    as (_ & _ & Hopen & Hsum).
  - repeat constructor; cbn; lia.
  - repeat constructor; cbn; discriminate.
  - fold s in Hopen, Hsum. lia.
Defined.

(** ** Which users exist, and what stays of a transaction *)

(** X26. A [User] entity exists for exactly the addresses that some
    event of the log named as its user: the winner of a lottery or
    auction win, the receiver of a mint, the source of a redeem or of a
    recorded fee-pool transfer.  Bidders, claimers, beneficiaries and the
    two ends of a skipped transfer get no entity. *)
Theorem users_are_the_named_addresses (evs : list ContractEvent) (address : Bytes) :
  userExists (toHexString address) (processEvents evs emptyStore)
  ↔ ∃ ev, ev ∈ evs ∧ eventUser ev = Some address.
Proof.
  induction evs as [|ev0 evs IH] using rev_ind.
  - unfold userExists. rewrite loadUser_eq. cbn [processEvents fold_left emptyStore users].
    rewrite lookup_empty. split.
    + intros [u Hu]. discriminate Hu.
    + intros (ev & Hin & _). by apply elem_of_nil in Hin.
  - rewrite processEvents_snoc. split.
    + intros Hex. unfold userExists in Hex.
      rewrite loadUser_eq, users_dispatch in Hex by apply wfStore_run.
      destruct (eventUser ev0) as [b|] eqn:Eb.
      * destruct (decide (b = address)) as [->|Hne].
        -- exists ev0. split; [|exact Eb]. apply elem_of_app. right. by left.
        -- rewrite lookup_insert_ne in Hex
             by (intros E; apply Hne; exact (inj toHexString _ _ E)).
           rewrite <- loadUser_eq in Hex. apply IH in Hex as (ev & Hin & Hev).
           exists ev. split; [|exact Hev]. apply elem_of_app. by left.
      * rewrite <- loadUser_eq in Hex. apply IH in Hex as (ev & Hin & Hev).
        exists ev. split; [|exact Hev]. apply elem_of_app. by left.
    + intros (ev & Hin & Hev). apply elem_of_app in Hin as [Hin|Hin].
      * apply userExists_dispatch; [apply wfStore_run|]. apply IH. by exists ev.
      * apply list_elem_of_singleton in Hin. subst ev.
        apply userExists_eventUser; [apply wfStore_run | exact Hev].
Qed.

(** X27. Stored transactions are immutable: a transaction stored after a
    log is, after any continuation of the log (with fewer than [2^31]
    recorded events in all), either still stored unchanged under the
    same key or deleted by the rotation; its key is never given to
    another transaction. *)
Theorem transactions_are_immutable
    (evs more : list ContractEvent) (k : string) (tx : Transaction.t) :
  countOver recorded (evs ++ more) < 2 ^ 31 →
  loadTransaction k (processEvents evs emptyStore) = Some tx →
  loadTransaction k (processEvents (evs ++ more) emptyStore) = Some tx
  ∨ loadTransaction k (processEvents (evs ++ more) emptyStore) = None.
Proof.
  intros Hbound Hk.
  assert (∃ j, k = toString j ∧ 0 ≤ j < countOver recorded evs) as (j & -> & Hj).
  { assert (countOver recorded evs < 2 ^ 31) as Hb.
    { clear Hk. induction more as [|ev more IH] using rev_ind.
      - by rewrite app_nil_r in Hbound.
      - rewrite app_assoc, countOver_snoc in Hbound. apply IH.
        destruct (recorded ev); lia. }
    destruct (transactionsInv_run evs Hb) as (_ & Hkeys & _). by apply (Hkeys _ tx). }
  induction more as [|ev more IH] using rev_ind.
  - rewrite app_nil_r. by left.
  - rewrite app_assoc in *. rewrite countOver_snoc in Hbound.
    pose proof (countOver_nonneg recorded (evs ++ more)) as Hn.
    assert (countOver recorded (evs ++ more) < 2 ^ 31) as Hb
      by (destruct (recorded ev); lia).
    specialize (IH Hb).
    assert (countOver recorded evs ≤ countOver recorded (evs ++ more)) as Hmono.
    { clear. induction more as [|e more IHm] using rev_ind.
      - rewrite app_nil_r. lia.
      - rewrite app_assoc, countOver_snoc. destruct (recorded e); lia. }
    rewrite processEvents_snoc.
    set (s := processEvents (evs ++ more) emptyStore) in *.
    pose proof (transactions_dispatch ev s (wfStore_run _)) as Ht. cbv zeta in Ht.
    destruct (transactionsInv_run (evs ++ more) Hb) as (Hc & _). fold s in Hc.
    rewrite Hc in Ht. rewrite !(loadTransaction_eq _ (dispatch ev s)), Ht.
    destruct (transactionOf ev _) as [new|].
    + rewrite lookup_insert_ne by (intros E%toString_inj; lia).
      rewrite <- loadTransaction_eq.
      destruct (rotateTransactions_lookup s (toString j)) as [->| ->]; [by right | exact IH].
    + rewrite <- loadTransaction_eq. exact IH.
Qed.

Lemma transactions_are_immutable_witness :
  let first := processEvents (mints 3) emptyStore in
  let later := processEvents (mints 3 ++ [EvRedeemed (at_ 9 (Redeemed.mk bob 1 2 0))])
                 emptyStore in
  loadTransaction "1" later = loadTransaction "1" first.
Proof.
  intros first later.
  destruct (loadTransaction "1" first) as [tx|] eqn:E.
  - destruct (transactions_are_immutable (mints 3)
                [EvRedeemed (at_ 9 (Redeemed.mk bob 1 2 0))] "1" tx) as [H|H].
    + vm_compute. reflexivity.
    + exact E.
    + exact H.
    + vm_compute in H. discriminate H.
  - vm_compute in E. discriminate E.
Defined.
